(** * portfolio-ui: the valuation-series engine of [src/App.jsx]

    A shallow embedding of the spreadsheet helpers of [App.jsx]
    ([coerceDate], [isDateLike], [isNumericLike], [detectColumns],
    [toSeries], [calculateTrailingReturns], [calculateYTD], [findClosest],
    [monthlyReturns]), of [equityCards] and [handleFile] of [PortfolioPage],
    and the properties the specification states about them.

    Conventions of the embedding.
    - A JavaScript number is a [num], a binary64: [NaN], a signed infinity,
      the negative zero, or a finite value held as the rational it denotes
      (the positive zero is [Fin 0]).  Every operation computes the exact
      result and rounds it with [round64], the Number value of the language
      standard: to the nearest binary64, the even one of two, an infinity
      from [2^1024 - 2^970] on.
    - A JavaScript string is a [string] of code units below 256.
    - A [Date] is its time value: [Some t] with [t] in milliseconds since
      the epoch, or [None] for an invalid date.
    - A call that can throw returns a [completion].
    - What the host provides and the source only calls (the time zone, the
      spreadsheet library's serial decoder, the engine's date-string parser)
      is the interface [Host]. *)

From Stdlib Require Import ZArith QArith Qabs Qround Qreduction Lqa Lia Bool List.
From Stdlib Require Import Ascii String Sorted Permutation.
Import ListNotations.

(** ** Numbers *)

Inductive num : Type :=
| NaN
| Inf (neg : bool)
| Fin (q : Q)
| NegZero.

Definition qzero (q : Q) : bool := Qeq_bool q 0.
Definition qneg (q : Q) : bool := negb (Qle_bool 0 q).

(** The zero of sign [neg]. *)
Definition zero (neg : bool) : num := if neg then NegZero else Fin 0.

(** [2^k] *)
Definition pow2 (k : Z) : Q :=
  if (0 <=? k)%Z then inject_Z (2 ^ k) else / inject_Z (2 ^ (- k)).

(** The integer closest to [t], the even one of two. *)
Definition roundEven (t : Q) : Z :=
  let f := Qfloor t in
  match (t - inject_Z f ?= 1 # 2)%Q with
  | Lt => f
  | Gt => (f + 1)%Z
  | Eq => if Z.even f then f else (f + 1)%Z
  end.

(** [floor (log2 a)] for [a > 0]. *)
Definition ilog2 (a : Q) : Z :=
  let k := (Z.log2 (Qnum a) - Z.log2 (Zpos (Qden a)))%Z in
  if Qle_bool (pow2 k) a then k else (k - 1)%Z.

(** The Number value for the real [x]: the binary64 closest to [x], the one
    of even significand of two.  The significand is an integer [m] of at
    most 53 bits at the exponent [ex], which is no less than [-1074]; a
    result of [2^1024] is an infinity, and a result of zero keeps the sign
    of [x]. *)
Definition round64 (x : Q) : num :=
  let q := Qred x in
  if qzero q then Fin 0
  else
    let a := Qabs q in
    let ex := (Z.max (ilog2 a) (- 1022) - 52)%Z in
    let m := roundEven (a * pow2 (- ex)) in
    if (m =? 0)%Z then zero (qneg q)
    else
      let v := inject_Z m * pow2 ex in
      if Qle_bool (pow2 1024) v then Inf (qneg q)
      else Fin (Qred (if qneg q then - v else v)).

(** The number an integer literal denotes. *)
Definition ofZ (z : Z) : num := round64 (inject_Z z).

(** The value of a numeric literal of mathematical value [q]. *)
Definition ofLiteral (q : Q) : num := round64 q.

Arguments round64 : simpl never.
Arguments ofZ : simpl never.
Arguments ofLiteral : simpl never.

Definition isNaN (x : num) : bool :=
  match x with NaN => true | _ => false end.

Definition isFinite (x : num) : bool :=
  match x with Fin _ | NegZero => true | _ => false end.

Definition isZero (x : num) : bool :=
  match x with Fin q => qzero q | NegZero => true | _ => false end.

Definition isPosZero (x : num) : bool :=
  match x with Fin q => qzero q | _ => false end.

Definition isNegZero (x : num) : bool :=
  match x with NegZero => true | _ => false end.

(** The sign bit of a number other than [NaN]. *)
Definition signBit (x : num) : bool :=
  match x with
  | Inf s => s
  | Fin q => qneg q
  | NegZero => true
  | NaN => false
  end.

(** The real a finite number denotes. *)
Definition valueOf (x : num) : Q :=
  match x with Fin q => q | _ => 0 end.

(** [-x] *)
Definition nneg (x : num) : num :=
  match x with
  | NaN => NaN
  | Inf s => Inf (negb s)
  | Fin q => if qzero q then NegZero else Fin (Qred (- q))
  | NegZero => Fin 0
  end.

(** [x + y]: an exact sum of zero is the positive zero, unless both terms
    are the negative zero. *)
Definition nadd (x y : num) : num :=
  match x, y with
  | NaN, _ | _, NaN => NaN
  | Inf s, Inf s' => if Bool.eqb s s' then Inf s else NaN
  | Inf s, _ | _, Inf s => Inf s
  | NegZero, NegZero => NegZero
  | _, _ =>
      let s := valueOf x + valueOf y in
      if qzero s then Fin 0 else round64 s
  end.

(** [x - y] *)
Definition nsub (x y : num) : num := nadd x (nneg y).

(** [x * y]: the sign of a zero or infinite product is the product of the
    signs. *)
Definition nmul (x y : num) : num :=
  match x, y with
  | NaN, _ | _, NaN => NaN
  | Inf s, Inf s' => Inf (xorb s s')
  | Inf s, z | z, Inf s => if isZero z then NaN else Inf (xorb s (signBit z))
  | _, _ =>
      let p := valueOf x * valueOf y in
      if qzero p then zero (xorb (signBit x) (signBit y)) else round64 p
  end.

(** [x / y] *)
Definition ndiv (x y : num) : num :=
  match x, y with
  | NaN, _ | _, NaN => NaN
  | Inf _, Inf _ => NaN
  | Inf s, z => Inf (xorb s (signBit z))
  | z, Inf s => zero (xorb (signBit z) s)
  | _, _ =>
      if isZero y then
        (if isZero x then NaN else Inf (xorb (signBit x) (signBit y)))
      else if isZero x then zero (xorb (signBit x) (signBit y))
      else round64 (valueOf x / valueOf y)
  end.

(** [x === y] on numbers: the two zeros are equal. *)
Definition neqb (x y : num) : bool :=
  match x, y with
  | NaN, _ | _, NaN => false
  | Inf s, Inf s' => Bool.eqb s s'
  | Inf _, _ | _, Inf _ => false
  | _, _ => Qeq_bool (valueOf x) (valueOf y)
  end.

(** [x <= y] *)
Definition nle (x y : num) : bool :=
  match x, y with
  | NaN, _ | _, NaN => false
  | Inf true, _ => true
  | _, Inf false => true
  | Inf false, _ => false
  | _, Inf true => false
  | _, _ => Qle_bool (valueOf x) (valueOf y)
  end.

(** [x < y] *)
Definition nlt (x y : num) : bool :=
  match x, y with
  | NaN, _ | _, NaN => false
  | _, _ => negb (nle y x)
  end.

(** [Math.max(x, y)]: the positive zero is above the negative one. *)
Definition Math_max (x y : num) : num :=
  match x, y with
  | NaN, _ | _, NaN => NaN
  | _, _ =>
      if isPosZero y && isNegZero x then y
      else if nlt x y then y else x
  end.

(** One turn of [Math.min] over its arguments: the negative zero is below
    the positive one. *)
Definition Math_min (x y : num) : num :=
  match x, y with
  | NaN, _ | _, NaN => NaN
  | _, _ =>
      if isNegZero y && isPosZero x then y
      else if nlt y x then y else x
  end.

(** [Math.min(...xs)]: [Infinity] on no argument. *)
Definition Math_min_list (xs : list num) : num :=
  fold_left Math_min xs (Inf false).

(** [Number(text)] for the text [toFixed(2)] prints for [n] hundredths under
    the sign [neg]: "-0.00" reads as the negative zero. *)
Definition ofCents (neg : bool) (n : Z) : num :=
  if (n =? 0)%Z then zero neg
  else round64 (if neg then - (inject_Z n / 100) else inject_Z n / 100).

(** [Number(x.toFixed(2))].  [toFixed] prints a value of magnitude at least
    [10^21] like [String], which [Number] reads back unchanged; below that
    it takes the integer [n] closest to [|x| * 100], the larger one on a
    tie, and prints [n] hundredths with the sign of [x]; the negative zero
    prints without sign. *)
Definition toFixed2 (x : num) : num :=
  match x with
  | NaN => NaN
  | Inf s => Inf s
  | NegZero => Fin 0
  | Fin q =>
      let a := Qabs q in
      if Qle_bool (inject_Z (10 ^ 21)) a then Fin q
      else ofCents (qneg q) (Qfloor (a * 100 + (1 # 2)))
  end.

(** What a call returns, or that it throws. *)
Inductive completion (A : Type) : Type :=
| Returned (a : A)
| Thrown.

Arguments Returned {A} a.
Arguments Thrown {A}.

(** ** Strings *)

Local Open Scope string_scope.
Local Open Scope list_scope.
Local Open Scope Z_scope.

Definition isWhite (c : ascii) : bool :=
  let n := nat_of_ascii c in
  ((9 <=? n)%nat && (n <=? 13)%nat || (n =? 32)%nat || (n =? 160)%nat).

Definition isDigit (c : ascii) : bool :=
  let n := nat_of_ascii c in (48 <=? n)%nat && (n <=? 57)%nat.

Definition digitVal (c : ascii) : Z := Z.of_nat (nat_of_ascii c) - 48.

Fixpoint trimStart (s : string) : string :=
  match s with
  | String c r => if isWhite c then trimStart r else s
  | EmptyString => EmptyString
  end.

Fixpoint trimEnd (s : string) : string :=
  match s with
  | String c r =>
      match trimEnd r with
      | EmptyString => if isWhite c then EmptyString else String c EmptyString
      | r' => String c r'
      end
  | EmptyString => EmptyString
  end.

(** [s.trim()] *)
Definition trim (s : string) : string := trimEnd (trimStart s).

(** [s.replace(/,/g, "")] *)
Fixpoint stripCommas (s : string) : string :=
  match s with
  | String c r => if Ascii.eqb c "," then stripCommas r else String c (stripCommas r)
  | EmptyString => EmptyString
  end.

(** The longest prefix of decimal digits, and what follows it. *)
Fixpoint takeDigits (s : string) : string * string :=
  match s with
  | String c r =>
      if isDigit c then let (d, r') := takeDigits r in (String c d, r')
      else (EmptyString, s)
  | EmptyString => (EmptyString, EmptyString)
  end.

Fixpoint digitsValAcc (acc : Z) (s : string) : Z :=
  match s with
  | String c r => digitsValAcc (acc * 10 + digitVal c) r
  | EmptyString => acc
  end.

Definition digitsVal (s : string) : Z := digitsValAcc 0 s.

Definition isEmpty (s : string) : bool :=
  match s with EmptyString => true | _ => false end.

(** [m * 10^e] *)
Definition scale10 (m e : Z) : Q :=
  if 0 <=? e then inject_Z (m * 10 ^ e)
  else (inject_Z m / inject_Z (10 ^ (- e)))%Q.

(** An [ExponentPart] at the head of [s], if there is a complete one: its
    value and what follows it. *)
Definition takeExponent (s : string) : Z * string :=
  match s with
  | String c r =>
      if Ascii.eqb c "e" || Ascii.eqb c "E" then
        let '(sg, r1) :=
          match r with
          | String "+" r' => (1, r')
          | String "-" r' => ((-1), r')
          | _ => (1, r)
          end in
        let (d, r2) := takeDigits r1 in
        if isEmpty d then (0, s) else ((sg * digitsVal d), r2)
      else (0, s)
  | EmptyString => (0, s)
  end.

(** The longest [StrUnsignedDecimalLiteral] at the head of [s]: its
    mathematical value ([None] stands for [Infinity]) and what follows it. *)
Definition scanUnsigned (s : string) : option (option Q * string) :=
  if prefix "Infinity" s then Some (None, substring 8 (length s - 8)%nat s)
  else
    let (i, r1) := takeDigits s in
    let '(f, r2, dot) :=
      match r1 with
      | String "." r' => let (f, r'') := takeDigits r' in (f, r'', true)
      | _ => (EmptyString, r1, false)
      end in
    if isEmpty i && isEmpty f then None
    else
      let r3 := if isEmpty i || dot then r2 else r1 in
      let (e, r4) := takeExponent r3 in
      Some (Some (scale10 (digitsVal (i ++ f)%string) (e - Z.of_nat (length f))), r4).

(** The longest [StrDecimalLiteral] at the head of [s]. *)
Definition scanDecimal (s : string) : option (num * string) :=
  let '(neg, r) :=
    match s with
    | String "+" r' => (false, r')
    | String "-" r' => (true, r')
    | _ => (false, s)
    end in
  match scanUnsigned r with
  | Some (Some q, rest) =>
      Some (if neg then nneg (ofLiteral q) else ofLiteral q, rest)
  | Some (None, rest) => Some (Inf neg, rest)
  | None => None
  end.

Definition radixDigit (radix : Z) (c : ascii) : option Z :=
  let n := Z.of_nat (nat_of_ascii c) in
  let v :=
    if (48 <=? n) && (n <=? 57) then n - 48
    else if (97 <=? n) && (n <=? 102) then n - 87
    else if (65 <=? n) && (n <=? 70) then n - 55
    else radix in
  if (v <? radix) then Some v else None.

Fixpoint radixVal (radix : Z) (acc : Z) (s : string) : option Z :=
  match s with
  | String c r =>
      match radixDigit radix c with
      | Some v => radixVal radix (acc * radix + v) r
      | None => None
      end
  | EmptyString => Some acc
  end.

(** A [NonDecimalIntegerLiteral]: [0x], [0o] or [0b] and at least one digit. *)
Definition scanRadix (s : string) : option num :=
  match s with
  | String "0" (String c (String d r)) =>
      let radix :=
        if Ascii.eqb c "x" || Ascii.eqb c "X" then Some 16
        else if Ascii.eqb c "o" || Ascii.eqb c "O" then Some 8
        else if Ascii.eqb c "b" || Ascii.eqb c "B" then Some 2
        else None in
      match radix with
      | Some b =>
          match radixVal b 0 (String d r) with
          | Some v => Some (ofLiteral (inject_Z v))
          | None => Some NaN
          end
      | None => None
      end
  | _ => None
  end.

(** [Number(s)] on a string (StringToNumber): white space around the literal
    is dropped, the empty string is [0], and anything that is not exactly one
    numeric literal is [NaN]. *)
Definition Number_of_string (s : string) : num :=
  let t := trim s in
  if isEmpty t then Fin 0
  else
    match scanRadix t with
    | Some v => v
    | None =>
        match scanDecimal t with
        | Some (v, EmptyString) => v
        | _ => NaN
        end
    end.

(** [parseFloat(s)]: the longest decimal literal after leading white space. *)
Definition parseFloat (s : string) : num :=
  match scanDecimal (trimStart s) with
  | Some (v, _) => v
  | None => NaN
  end.

(** [/^-?\d+(\.\d+)?$/.test(s)] *)
Definition looksLikeNumber (s : string) : bool :=
  let s1 := match s with String "-" r => r | _ => s end in
  let (i, r1) := takeDigits s1 in
  if isEmpty i then false
  else
    match r1 with
    | EmptyString => true
    | String "." r2 =>
        let (f, r3) := takeDigits r2 in negb (isEmpty f) && isEmpty r3
    | _ => false
    end.

Definition digitChar (d : Z) : ascii := ascii_of_nat (Z.to_nat (48 + d)).

Fixpoint digitsOf (fuel : nat) (n : Z) (acc : string) : string :=
  match fuel with
  | O => acc
  | S fuel' =>
      let acc' := String (digitChar (n mod 10)) acc in
      if (n <? 10) then acc' else digitsOf fuel' (n / 10) acc'
  end.

(** [String(n)] for a natural number [n]. *)
Definition String_of_nonneg (n : Z) : string :=
  digitsOf (S (Z.to_nat (Z.log2 n))) n EmptyString.

(** [String(z)], also [`${z}`], for an integer [z] of magnitude below
    [10^21]. *)
Definition String_of_int (z : Z) : string :=
  if (z <? 0) then String "-" (String_of_nonneg (- z)) else String_of_nonneg z.

Fixpoint zeros (n : nat) : string :=
  match n with O => EmptyString | S n' => String "0" (zeros n') end.

(** [s.padStart(w, "0")] *)
Definition padStart0 (w : nat) (s : string) : string :=
  (zeros (w - length s)%nat ++ s)%string.

(** [s.split(sep)] for a one-character separator. *)
Fixpoint split (sep : ascii) (s : string) : list string :=
  match s with
  | String c r =>
      if Ascii.eqb c sep then EmptyString :: split sep r
      else
        match split sep r with
        | h :: t => String c h :: t
        | [] => [String c EmptyString]
        end
  | EmptyString => [EmptyString]
  end.

(** [Number(s)] where only an integer can come out: the strings read this
    way are runs of digits cut out of a key, and [Number("")] is [0]. *)
Definition Number_int (s : string) : Z :=
  match Number_of_string s with
  | Fin q => Qfloor q
  | _ => 0
  end.

(** ** Dates *)

Definition jsdate : Type := option Z.

Definition msPerDay : Z := 86400000.

Definition Day (t : Z) : Z := t / msPerDay.
Definition TimeWithinDay (t : Z) : Z := t mod msPerDay.

(** [TimeClip]: a time value beyond [8.64e15] ms is no date. *)
Definition TimeClip (t : Z) : jsdate :=
  if Z.abs t <=? 8640000000000000 then Some t else None.

(** Year, month (1 to 12) and day of the month of day number [z], counted
    from 1970-01-01, in the proleptic Gregorian calendar
    ([YearFromTime], [MonthFromTime] + 1, [DateFromTime]). *)
Definition civil_from_days (z : Z) : Z * Z * Z :=
  let z := z + 719468 in
  let era := z / 146097 in
  let doe := z - era * 146097 in
  let yoe := (doe - doe / 1460 + doe / 36524 - doe / 146096) / 365 in
  let y := yoe + era * 400 in
  let doy := doe - (365 * yoe + yoe / 4 - yoe / 100) in
  let mp := (5 * doy + 2) / 153 in
  let d := doy - (153 * mp + 2) / 5 + 1 in
  let m := if mp <? 10 then mp + 3 else mp - 9 in
  (if m <=? 2 then y + 1 else y, m, d).

(** The day number of day [d] of month [m] (1 to 12) of year [y]; [d] may
    lie outside the month. *)
Definition days_from_civil (y m d : Z) : Z :=
  let y := if m <=? 2 then y - 1 else y in
  let era := y / 400 in
  let yoe := y - era * 400 in
  let doy := (153 * (if 2 <? m then m - 3 else m + 9) + 2) / 5 + d - 1 in
  let doe := yoe * 365 + yoe / 4 - yoe / 100 + doy in
  era * 146097 + doe - 719468.

(** [MakeDay(year, month, date)], [month] counted from 0 and carried into
    the year when it is outside 0 to 11. *)
Definition MakeDay (year month date : Z) : Z :=
  days_from_civil (year + month / 12) (month mod 12 + 1) 1 + date - 1.

Definition MakeTime (h m s ms : Z) : Z :=
  h * 3600000 + m * 60000 + s * 1000 + ms.

(** The result of [XLSX.SSF.parse_date_code]: the fields [coerceDate] reads. *)
Record date_code : Type := {
  dc_y : Z; dc_m : Z; dc_d : Z; dc_H : Z; dc_M : Z; dc_S : Z
}.

(** What the source calls and the host provides. *)
Class Host : Type := {
  (** the offset of local time, in ms, at the UTC time value [t] *)
  LocalTZA_utc : Z -> Z;
  (** the offset of local time, in ms, at the local time value [t] *)
  LocalTZA_local : Z -> Z;
  (** [XLSX.SSF.parse_date_code(v)], [None] for [null] *)
  parse_date_code : num -> option date_code;
  (** the time value of [new Date(s)] for a string [s] *)
  Date_parse : string -> jsdate
}.

Section WithHost.

Context {host : Host}.

Definition LocalTime (t : Z) : Z := t + LocalTZA_utc t.
Definition UTC (t : Z) : Z := t - LocalTZA_local t.

(** [d.getFullYear()], [d.getMonth()] and [d.getDate()] of a valid date. *)
Definition getFullYear (t : Z) : Z :=
  let '(y, _, _) := civil_from_days (Day (LocalTime t)) in y.

Definition getMonth (t : Z) : Z :=
  let '(_, m, _) := civil_from_days (Day (LocalTime t)) in m - 1.

Definition getDate (t : Z) : Z :=
  let '(_, _, d) := civil_from_days (Day (LocalTime t)) in d.

(** [new Date(y, m, d, H, M, S)] on integers: local time, a year from 0 to
    99 meaning 1900 + year. *)
Definition Date_of_fields (y m d H M S : Z) : jsdate :=
  let yr := if (0 <=? y) && (y <=? 99) then 1900 + y else y in
  TimeClip (UTC (MakeDay yr m d * msPerDay + MakeTime H M S 0)).

(** [new Date(ms)] on a number: the integer part of [ms], if in range. *)
Definition Date_of_num (ms : num) : jsdate :=
  match ms with
  | Fin q => TimeClip (Z.quot (Qnum q) (Zpos (Qden q)))
  | NegZero => TimeClip 0
  | _ => None
  end.

(** [t.setDate(t.getDate() - days)], for a valid date [t]: the new time
    value. *)
Definition setDateBack (t : Z) (days : Z) : jsdate :=
  let lt := LocalTime t in
  let '(y, m, d) := civil_from_days (Day lt) in
  TimeClip (UTC (MakeDay y (m - 1) (d - days) * msPerDay + TimeWithinDay lt)).

End WithHost.

(** The year of [toISOString]: four digits from 0 to 9999, otherwise a sign
    and six digits. *)
Definition isoYear (y : Z) : string :=
  if (0 <=? y) && (y <=? 9999) then padStart0 4 (String_of_nonneg y)
  else String (if y <? 0 then "-"%char else "+"%char)
              (padStart0 6 (String_of_nonneg (Z.abs y))).

(** [d.toISOString()] up to the day; the time of day follows, after the
    tenth character in every case. *)
Definition isoDate (t : Z) : string :=
  let '(y, m, d) := civil_from_days (Day t) in
  (isoYear y ++ "-" ++ padStart0 2 (String_of_nonneg m)
     ++ "-" ++ padStart0 2 (String_of_nonneg d))%string.

(** [d.toISOString().slice(0, 10)] *)
Definition isoKey (t : Z) : string := substring 0 10 (isoDate t).

(** [d.getUTCFullYear()] *)
Definition getUTCFullYear (t : Z) : Z :=
  let '(y, _, _) := civil_from_days (Day t) in y.

(** ** Cells and rows *)

(** A raw cell of [sheet_to_json]. *)
Inductive cell : Type :=
| CNull
| CUndefined
| CNum (x : num)
| CStr (s : string)
| CBool (b : bool)
| CDate (d : jsdate).

(** A row object: its own keys in the order of [Object.keys], with their
    values. *)
Definition row : Type := list (string * cell).

(** [r[k]] *)
Fixpoint getCell (r : row) (k : string) : cell :=
  match r with
  | (k', v) :: r' => if String.eqb k' k then v else getCell r' k
  | [] => CUndefined
  end.

(** [String(v)] for the cells that reach it as text; a number or a date is
    decided by its caller before any conversion. *)
Definition String_of_cell (v : cell) : string :=
  match v with
  | CStr s => s
  | CBool true => "true"
  | CBool false => "false"
  | CNull => "null"
  | CUndefined => "undefined"
  | CNum _ | CDate _ => EmptyString
  end.

Definition orElse (x d : Z) : Z := if x =? 0 then d else x.

Section Coercion.

Context {host : Host}.

(** [coerceDate(v)] for [typeof v === "number"]. *)
Definition coerceDateNum (v : num) : jsdate :=
  let dc :=
    match parse_date_code v with
    | Some dc => if dc_y dc =? 0 then None else Some dc
    | None => None
    end in
  match dc with
  | Some dc =>
      Date_of_fields (dc_y dc) (orElse (dc_m dc) 1 - 1) (orElse (dc_d dc) 1)
                     (dc_H dc) (dc_M dc) (dc_S dc)
  | None =>
      if negb (isNaN v) then
        Date_of_num (nmul (nmul (nsub v (ofZ 25569)) (ofZ 86400)) (ofZ 1000))
      else None
  end.

Definition coerceDate (v : cell) : jsdate :=
  match v with
  | CNull | CUndefined => None
  | CDate d => d
  | CNum x => coerceDateNum x
  | _ =>
      let s := trim (String_of_cell v) in
      if isEmpty s then None
      else if looksLikeNumber s then coerceDateNum (Number_of_string s)
      else
        match Date_parse s with
        | Some t => Some t
        | None =>
            let maybeNum := parseFloat s in
            if negb (isNaN maybeNum) then coerceDateNum maybeNum else None
        end
  end.

Definition isDateLike (v : cell) : bool :=
  match coerceDate v with Some _ => true | None => false end.

End Coercion.

Definition isNumericLike (v : cell) : bool :=
  match v with
  | CNull | CUndefined => false
  | CNum x => negb (isNaN x)
  | CStr s =>
      let s' := stripCommas (trim s) in
      negb (isEmpty s') && negb (isNaN (Number_of_string s'))
  | _ => false
  end.

(** [Number(String(v).trim().replace(/,/g, ""))].  For a number [x],
    [String(x)] has neither white space nor comma and reads back as [x];
    the negative zero prints as "0". *)
Definition Number_of_cell (v : cell) : num :=
  match v with
  | CNum NegZero => Fin 0
  | CNum x => x
  | _ => Number_of_string (stripCommas (trim (String_of_cell v)))
  end.

(** ** [Array.prototype.sort] and [Map] *)

(** Insertion after the elements that do not compare greater: the sort is
    stable, as the language requires. *)
Fixpoint insertBy {A : Type} (cmp : A -> A -> Z) (x : A) (l : list A) : list A :=
  match l with
  | [] => [x]
  | y :: l' => if cmp x y <=? 0 then x :: l else y :: insertBy cmp x l'
  end.

(** [l.sort(cmp)] *)
Definition sortBy {A : Type} (cmp : A -> A -> Z) (l : list A) : list A :=
  fold_right (insertBy cmp) [] l.

(** A [Map] with string keys: the entries in insertion order. *)
Definition jsmap (V : Type) : Type := list (string * V).

(** [m.set(k, v)]: a key already present keeps its place. *)
Fixpoint mapSet {V : Type} (k : string) (v : V) (m : jsmap V) : jsmap V :=
  match m with
  | [] => [(k, v)]
  | (k', v') :: m' =>
      if String.eqb k' k then (k, v) :: m' else (k', v') :: mapSet k v m'
  end.

(** [m.has(k) ? m.get(k) : null] *)
Fixpoint mapGet {V : Type} (k : string) (m : jsmap V) : option V :=
  match m with
  | [] => None
  | (k', v) :: m' => if String.eqb k' k then Some v else mapGet k m'
  end.

Definition mapKeys {V : Type} (m : jsmap V) : list string := map fst m.
Definition mapValues {V : Type} (m : jsmap V) : list V := map snd m.

(** [!k] for a key that is [null] or a string. *)
Definition falsy (k : option string) : bool :=
  match k with
  | None => true
  | Some s => isEmpty s
  end.

(** ** Column inference *)

Record score : Type := { key : string; dateCount : Z; numCount : Z }.

Record columns : Type := { dateKey : option string; navKey : option string }.

(** [Math.ceil(sampleSize * 0.6)] *)
Definition threshold (sampleSize : Z) : Z := (3 * sampleSize + 4) / 5.

Definition firstKey (l : list score) : option string :=
  match l with
  | s :: _ => Some (key s)
  | [] => None
  end.

Section Detect.

Context {host : Host}.

(** The body of [keys.map(k => ...)]: one pass over the sampled rows. *)
Definition scoreKey (sample : list row) (k : string) : score :=
  let '(dc, nc) :=
    fold_left
      (fun '(dc, nc) r =>
         let v := getCell r k in
         (if isDateLike v then dc + 1 else dc,
          if isNumericLike v then nc + 1 else nc))
      sample (0, 0) in
  {| key := k; dateCount := dc; numCount := nc |}.

(** The choice of one column, by the count [cnt]. *)
Definition chooseKey (cnt : score -> Z) (thr : Z) (scores : list score)
  : option string :=
  let candidates :=
    sortBy (fun a b => cnt b - cnt a) (filter (fun s => thr <=? cnt s) scores) in
  let k := firstKey candidates in
  if falsy k then
    match sortBy (fun a b => cnt b - cnt a) scores with
    | best :: _ => if 0 <? cnt best then Some (key best) else k
    | [] => k
    end
  else k.

Definition detectColumns (rows : list row) : columns :=
  match rows with
  | [] => {| dateKey := None; navKey := None |}
  | first :: _ =>
      let sampleSize := Z.min (Z.of_nat (List.length rows)) 50 in
      let keys := map fst first in
      let scores := map (scoreKey (firstn (Z.to_nat sampleSize) rows)) keys in
      let thr := threshold sampleSize in
      {| dateKey := chooseKey dateCount thr scores;
         navKey := chooseKey numCount thr scores |}
  end.

End Detect.

(** ** The series builder *)

(** A cleaned record [{ date, nav }]. *)
Record rec : Type := { rc_date : Z; rc_nav : num }.

(** A point of the series. *)
Record point : Type := {
  date : Z;
  dateLabel : string;
  nav : num;
  equity : num;
  drawdown : num
}.

(** The variables of the second loop of [toSeries]. *)
Record walk : Type := {
  w_equity : num;
  w_peak : num;
  w_prevNav : option num;
  w_out : list point
}.

Definition walk0 : walk :=
  {| w_equity := ofZ 100; w_peak := ofZ 100; w_prevNav := None; w_out := [] |}.

(** One turn of the second loop. *)
Definition walkStep (st : walk) (cur : rec) : walk :=
  let ret :=
    match w_prevNav st with
    | Some prevNav =>
        if negb (neqb prevNav (ofZ 0)) then nsub (ndiv (rc_nav cur) prevNav) (ofZ 1)
        else ofZ 0
    | None => ofZ 0
    end in
  let equity := nmul (w_equity st) (nadd (ofZ 1) ret) in
  let peak := Math_max (w_peak st) equity in
  let dd := nsub (ndiv equity peak) (ofZ 1) in
  {| w_equity := equity;
     w_peak := peak;
     w_prevNav := Some (rc_nav cur);
     w_out := w_out st ++
       [{| date := rc_date cur;
           dateLabel := isoKey (rc_date cur);
           nav := rc_nav cur;
           equity := toFixed2 equity;
           drawdown := toFixed2 (nmul dd (ofZ 100)) |}] |}.

(** The point pushed in the turn that leaves the variables as [st']. *)
Definition pushed (st' : walk) (cur : rec) : point :=
  {| date := rc_date cur;
     dateLabel := isoKey (rc_date cur);
     nav := rc_nav cur;
     equity := toFixed2 (w_equity st');
     drawdown :=
       toFixed2 (nmul (nsub (ndiv (w_equity st') (w_peak st')) (ofZ 1)) (ofZ 100)) |}.

(** The points pushed by a run over [l] from [st], one per record. *)
Fixpoint pushedFrom (st : walk) (l : list rec) : list point :=
  match l with
  | [] => []
  | c :: l' => pushed (walkStep st c) c :: pushedFrom (walkStep st c) l'
  end.

(** The cleaned record a point was made of. *)
Definition recOf (p : point) : rec := {| rc_date := date p; rc_nav := nav p |}.

(** The variable [equity], in full precision, when point [i] of the series
    [s] is pushed, and the variable [peak] as the turn of point [i] finds
    it. *)
Definition internalEquity (s : list point) (i : nat) : num :=
  w_equity (fold_left walkStep (map recOf (firstn (S i) s)) walk0).

Definition peakBefore (s : list point) (i : nat) : num :=
  w_peak (fold_left walkStep (map recOf (firstn i s)) walk0).

Section Series.

Context {host : Host}.

(** One turn of the first loop of [toSeries]. *)
Definition cleanStep (dateKey navKey : string) (mapByDate : jsmap rec) (r : row)
  : jsmap rec :=
  match coerceDate (getCell r dateKey) with
  | None => mapByDate
  | Some d =>
      let rawNav := getCell r navKey in
      if negb (isNumericLike rawNav) then mapByDate
      else
        let nav := Number_of_cell rawNav in
        if isNaN nav then mapByDate
        else mapSet (isoKey d) {| rc_date := d; rc_nav := nav |} mapByDate
  end.

(** [Array.from(mapByDate.values()).sort((a,b) => +a.date - +b.date)] *)
Definition cleanRecords (rows : list row) (dateKey navKey : string) : list rec :=
  sortBy (fun a b => rc_date a - rc_date b)
         (mapValues (fold_left (cleanStep dateKey navKey) rows [])).

Definition toSeries (rows : list row) (dateKey navKey : option string)
  : list point :=
  match rows, dateKey, navKey with
  | _ :: _, Some dk, Some nk =>
      if isEmpty dk || isEmpty nk then []
      else w_out (fold_left walkStep (cleanRecords rows dk nk) walk0)
  | _, _, _ => []
  end.

(** Row [r] passes the tests of the first loop. *)
Definition keeps (dateKey navKey : string) (r : row) : bool :=
  isDateLike (getCell r dateKey) && isNumericLike (getCell r navKey).

(** Row [r] is kept by the first loop, with the date [d] and the value [v]. *)
Definition keptAs (dateKey navKey : string) (r : row) (d : Z) (v : num) : Prop :=
  coerceDate (getCell r dateKey) = Some d
  /\ isNumericLike (getCell r navKey) = true
  /\ Number_of_cell (getCell r navKey) = v.

(** ** Trailing returns *)

Definition lookbackPeriods : list (string * Z) :=
  [("1D", 1); ("1W", 7); ("1M", 30); ("3M", 90); ("6M", 180);
   ("1Y", 365); ("3Y", 365 * 3); ("5Y", 365 * 5)].

(** [a <= b] and [a >= b] on dates, [b] possibly invalid. *)
Definition dateLe (a : Z) (b : jsdate) : bool :=
  match b with Some t => a <=? t | None => false end.

Definition dateGe (a : Z) (b : jsdate) : bool :=
  match b with Some t => t <=? a | None => false end.

(** The loop of [findClosest], from the last index down. *)
Definition findClosest (series : list point) (endDate : Z) (days : Z)
  : option point :=
  let target := setDateBack endDate days in
  find (fun p => dateLe (date p) target) (rev series).

(** [series[series.length - 1]] *)
Definition lastPoint (series : list point) : option point :=
  last (map Some series) None.

(** [calculateYTD(series)]: on the empty series [latest] is [undefined]
    and reading [latest.date] throws. *)
Definition calculateYTD (series : list point) : completion (option num) :=
  match lastPoint series with
  | None => Thrown
  | Some latest =>
      let yearStart := Date_of_fields (getFullYear (date latest)) 0 1 0 0 0 in
      match find (fun p => dateGe (date p) yearStart) series with
      | None => Returned None
      | Some start =>
          Returned (Some (nsub (ndiv (nav latest) (nav start)) (ofZ 1)))
      end
  end.

(** The result object: its keys in the order they are set, [None] for
    [null]. *)
Definition calculateTrailingReturns (series : list point)
  : completion (list (string * option num)) :=
  match series, lastPoint series with
  | first :: _, Some latest =>
      let endDate := date latest in
      let endNav := nav latest in
      match calculateYTD series with
      | Thrown => Thrown
      | Returned ytd =>
          Returned
            ([("YTD", ytd)]
             ++ map (fun '(label, days) =>
                       (label,
                        match findClosest series endDate days with
                        | Some past => Some (nsub (ndiv endNav (nav past)) (ofZ 1))
                        | None => None
                        end))
                    lookbackPeriods
             ++ [("SI", Some (nsub (ndiv endNav (nav first)) (ofZ 1)));
                 ("DD", Some (ndiv (drawdown latest) (ofZ 100)));
                 ("Max DD",
                  Some (ndiv (Math_min_list (map drawdown series)) (ofZ 100)))])
      end
  | _, _ => Returned []
  end.

End Series.

(** ** The monthly grid *)

(** A value of [lastByMonth]: [{ year, month, nav }]. *)
Record monthRec : Type := { mr_year : Z; mr_month : Z; mr_nav : num }.

(** An element of [rows]: [{ year, month, nav, ret }]. *)
Record monthRow : Type := { year : Z; month : Z; mnav : num; ret : option num }.

(** A row of the table: [Year], the twelve month cells in the order they are
    set, and [YTD]. *)
Record yearRow : Type := {
  Year : Z;
  cells : list (string * option num);
  YTD : option num
}.

Definition months : list string :=
  ["Jan"; "Feb"; "Mar"; "Apr"; "May"; "Jun";
   "Jul"; "Aug"; "Sep"; "Oct"; "Nov"; "Dec"].

(** [`${y}-${String(m).padStart(2, "0")}`] *)
Definition monthKey (y m : Z) : string :=
  (String_of_int y ++ "-" ++ padStart0 2 (String_of_int m))%string.

(** The key of the month before month [m] of year [y]. *)
Definition prevKey (y m : Z) : string :=
  if 1 <? m then monthKey y (m - 1)
  else (String_of_int (y - 1) ++ "-12")%string.

(** [navLookup(key)] *)
Definition navLookup (lastByMonth : jsmap monthRec) (k : string) : option num :=
  match mapGet k lastByMonth with
  | Some r => Some (mr_nav r)
  | None => None
  end.

(** The body of the loop over the sorted keys. *)
Definition monthRowOf (lastByMonth : jsmap monthRec) (k : string) : monthRow :=
  let parts := split "-" k in
  let y := Number_int (nth 0 parts EmptyString) in
  let m := Number_int (nth 1 parts EmptyString) in
  let val := match navLookup lastByMonth k with Some v => v | None => ofZ 0 end in
  let mom :=
    match navLookup lastByMonth (prevKey y m) with
    | Some prevVal =>
        if negb (neqb prevVal (ofZ 0)) then Some (nsub (ndiv val prevVal) (ofZ 1))
        else None
    | None => None
    end in
  {| year := y; month := m; mnav := val; ret := mom |}.

(** [[...new Set(l)]]: the first occurrence of each value, in order. *)
Definition distinct (l : list Z) : list Z :=
  fold_left (fun seen y => if existsb (Z.eqb y) seen then seen else seen ++ [y])
            l [].

(** The variables of [months.forEach] inside [years.map]. *)
Record yearAcc : Type := {
  ya_cells : list (string * option num);
  ya_ytdAcc : num;
  ya_anyMonth : bool
}.

Definition yearStep (rows : list monthRow) (y : Z) (st : yearAcc)
           (entry : string * Z) : yearAcc :=
  let '(name, idx) := entry in
  let m := idx + 1 in
  let rr := find (fun r => (year r =? y) && (month r =? m)) rows in
  let v := match rr with Some r => ret r | None => None end in
  {| ya_cells := ya_cells st ++ [(name, v)];
     ya_ytdAcc :=
       match v with
       | Some x => nmul (ya_ytdAcc st) (nadd (ofZ 1) x)
       | None => ya_ytdAcc st
       end;
     ya_anyMonth :=
       match v with Some _ => true | None => ya_anyMonth st end |}.

Definition indexed (l : list string) : list (string * Z) :=
  combine l (map Z.of_nat (seq 0 (List.length l))).

Definition yearRowOf (rows : list monthRow) (y : Z) : yearRow :=
  let st :=
    fold_left (yearStep rows y) (indexed months)
              {| ya_cells := []; ya_ytdAcc := ofZ 1; ya_anyMonth := false |} in
  {| Year := y;
     cells := ya_cells st;
     YTD := if ya_anyMonth st then Some (nsub (ya_ytdAcc st) (ofZ 1)) else None |}.

Definition compareString (a b : string) : Z :=
  match String.compare a b with Lt => -1 | Eq => 0 | Gt => 1 end.

Section Monthly.

Context {host : Host}.

(** The loop that fills [lastByMonth]. *)
Definition monthStep (lastByMonth : jsmap monthRec) (p : point) : jsmap monthRec :=
  let y := getFullYear (date p) in
  let m := getMonth (date p) + 1 in
  mapSet (monthKey y m) {| mr_year := y; mr_month := m; mr_nav := nav p |}
         lastByMonth.

Definition monthRows (series : list point) : list monthRow :=
  let lastByMonth := fold_left monthStep series [] in
  let keys := sortBy compareString (mapKeys lastByMonth) in
  map (monthRowOf lastByMonth) keys.

Definition monthlyReturns (series : list point) : list yearRow * list string :=
  match series with
  | [] => ([], [])
  | _ :: _ =>
      let rows := monthRows series in
      let years := sortBy (fun a b => b - a) (distinct (map year rows)) in
      (map (yearRowOf rows) years, months)
  end.

End Monthly.

(** ** A host to run the definitions on

    The clock is UTC; the serial decoder knows no serial and the string
    parser no format, so that dates enter as native dates or through the
    day-count fallback of [coerceDate]. *)
#[local] Instance utcHost : Host := {|
  LocalTZA_utc := fun _ => 0;
  LocalTZA_local := fun _ => 0;
  parse_date_code := fun _ => None;
  Date_parse := fun _ => None
|}.

(** The same host with the clock five and a half hours ahead of UTC. *)
Definition eastHost : Host := {|
  LocalTZA_utc := fun _ => 19800000;
  LocalTZA_local := fun _ => 19800000;
  parse_date_code := fun _ => None;
  Date_parse := fun _ => None
|}.

(** ** The properties, in the words of the specification *)

(** [isNumericLike] as the specification words it, the test [ok] on the
    number left open: a number that passes [ok], or a string that is not
    empty once trimmed and stripped of commas and then reads as a number
    that passes [ok]. *)
Definition numericLikeBy (ok : num -> bool) (v : cell) : Prop :=
  match v with
  | CNum x => ok x = true
  | CStr s =>
      stripCommas (trim s) <> EmptyString
      /\ ok (Number_of_string (stripCommas (trim s))) = true
  | _ => False
  end.

(** [past] is the latest point of [series] dated at or before [target], or
    [None] when no point is. *)
Definition latestAtOrBefore (series : list point) (target : jsdate)
           (past : option point) : Prop :=
  match past with
  | Some p =>
      In p series /\ dateLe (date p) target = true
      /\ forall q, In q series -> dateLe (date q) target = true ->
                   date q <= date p
  | None => forall q, In q series -> dateLe (date q) target = false
  end.

(** The result object reports [label] as unavailable: the key is missing or
    holds [null]; [fmtPct] prints a dash for both. *)
Definition unavailable (result : jsmap (option num)) (label : string) : Prop :=
  match mapGet label result with
  | Some (Some _) => False
  | _ => True
  end.

(** [s] is the first, in the order of [l], of the elements of [l] with the
    highest count. *)
Definition firstOfMax (cnt : score -> Z) (l : list score) (s : score) : Prop :=
  exists l1 l2,
    l = l1 ++ s :: l2
    /\ (forall x, In x l1 -> cnt x < cnt s)
    /\ (forall x, In x l2 -> cnt x <= cnt s).

(** The selection of a column in the words of the specification: the first
    of the highest count among the columns that reach the threshold; when
    none reaches it, the first of the highest count if that count is not
    zero; no column when every count is zero. *)
Definition selects (cnt : score -> Z) (thr : Z) (scores : list score)
           (k : option string) : Prop :=
  let passing := filter (fun s => thr <=? cnt s) scores in
  (exists s, firstOfMax cnt passing s /\ k = Some (key s))
  \/ (passing = []
      /\ exists s, firstOfMax cnt scores s /\ 0 < cnt s /\ k = Some (key s))
  \/ (passing = [] /\ (forall s, In s scores -> cnt s = 0) /\ k = None).

(** The monthly grid in the words of the specification. *)
Definition isSome {A : Type} (o : option A) : bool :=
  match o with Some _ => true | None => false end.

(** The month before month [m] of year [y]. *)
Definition prevMonth (y m : Z) : Z * Z :=
  if 1 <? m then (y, m - 1) else (y - 1, 12).

(** [prod (1 + r) - 1] over the returns that are present, in order; [None]
    when none is. *)
Definition compound (rets : list (option num)) : option num :=
  if existsb isSome rets then
    Some (nsub (fold_left (fun acc r =>
                             match r with
                             | Some x => nmul acc (nadd (ofZ 1) x)
                             | None => acc
                             end) rets (ofZ 1))
               (ofZ 1))
  else None.

Section MonthlySpec.

Context {host : Host}.

(** The key under which [monthlyReturns] files a point. *)
Definition keyOf (p : point) : string :=
  monthKey (getFullYear (date p)) (getMonth (date p) + 1).

Definition inBucket (y m : Z) (p : point) : bool :=
  (getFullYear (date p) =? y) && (getMonth (date p) + 1 =? m).

(** The value of the last point of the series in month [m] of year [y]. *)
Definition representative (series : list point) (y m : Z) : option num :=
  match find (inBucket y m) (rev series) with
  | Some p => Some (nav p)
  | None => None
  end.

(** The return of a month over the month before it. *)
Definition monthReturn (series : list point) (y m : Z) : option num :=
  match representative series y m with
  | None => None
  | Some v =>
      let '(py, pm) := prevMonth y m in
      match representative series py pm with
      | Some pv =>
          if neqb pv (ofZ 0) then None else Some (nsub (ndiv v pv) (ofZ 1))
      | None => None
      end
  end.

Definition gridRow (series : list point) (y : Z) : yearRow :=
  {| Year := y;
     cells := map (fun '(name, idx) => (name, monthReturn series y (idx + 1)))
                  (indexed months);
     YTD := compound (map (fun '(_, idx) => monthReturn series y (idx + 1))
                          (indexed months)) |}.

End MonthlySpec.

(** Sample sheets: three month starts of 2023 as native dates. *)
Definition jan1 : Z := 1672531200000.
Definition feb1 : Z := 1675209600000.
Definition mar1 : Z := 1677628800000.

Definition sheetRow (t : Z) (v : cell) : row :=
  [("Date", CDate (Some t)); ("NAV", v)].

Definition rowsA : list row :=
  [sheetRow jan1 (CNum (ofZ 100)); sheetRow feb1 (CNum (ofZ 110));
   sheetRow mar1 (CStr "99")].

Definition rowsInfinity : list row :=
  [sheetRow jan1 (CNum (ofZ 1)); sheetRow feb1 (CStr "Infinity")].


(** One row, and two rows dated by serial numbers far before the epoch of
    the sheet. *)
Definition rowsOne : list row := [sheetRow jan1 (CNum (ofZ 100))].

Definition rowsAncient : list row :=
  [ [("Date", CNum (ofZ (-700000))); ("NAV", CNum (ofZ 10))];
    [("Date", CNum (ofZ (-699970))); ("NAV", CNum (ofZ 11))] ].

(** Two ordinary values; three values far apart in magnitude, as text; and
    three rows dated by serial numbers of the year 10113. *)
Definition rows160 : list row :=
  [sheetRow jan1 (CNum (ofZ 160)); sheetRow feb1 (CNum (ofZ 1))].

Definition rowsOverflow : list row :=
  [sheetRow jan1 (CStr "1e-300"); sheetRow feb1 (CStr "1e300");
   sheetRow mar1 (CStr "1e-300")].

Definition rowsFarFuture : list row :=
  [ [("Date", CNum (ofZ 3000000)); ("NAV", CNum (ofZ 1))];
    [("Date", CNum (ofZ 3000000)); ("NAV", CNum (ofZ 2))];
    [("Date", CNum (ofZ 3000001)); ("NAV", CNum (ofZ 3))] ].

(** Two native dates, 2024-01-01T20:30Z and 2024-01-02T04:30Z: 02:00 and
    10:00 of 2 January 2024 on a clock five and a half hours ahead. *)
Definition rowsOneLocalDay : list row :=
  [ [("Date", CDate (Some (19723 * msPerDay + 73800000))); ("NAV", CNum (ofZ 1))];
    [("Date", CDate (Some (19724 * msPerDay + 16200000))); ("NAV", CNum (ofZ 2))] ].

Definition seriesA : list point := toSeries rowsA (Some "Date") (Some "NAV").
Definition seriesOne : list point := toSeries rowsOne (Some "Date") (Some "NAV").
Definition seriesAncient : list point :=
  toSeries rowsAncient (Some "Date") (Some "NAV").

(** * The summary cards of the portfolio page *)

(** The figures [equityCards] of [PortfolioPage] computes before it prints
    them: [ret], [maxDD] and [series.length]. *)
Record cards : Type := { card_ret : num; card_maxDD : num; card_points : nat }.

(** [equityCards] is [null] on the empty series. *)
Definition equityCards (series : list point) : option cards :=
  match series, lastPoint series with
  | first :: _, Some last =>
      Some {| card_ret := nsub (ndiv (equity last) (equity first)) (ofZ 1);
              card_maxDD := Math_min_list (map drawdown series);
              card_points := List.length series |}
  | _, _ => None
  end.

(** * The upload handler of the portfolio page *)

(** What [handleFile] of [PortfolioPage] sets: [series], [table] and
    [months]. *)
Record page : Type :=
  { pg_series : list point; pg_table : list yearRow; pg_months : list string }.

Section Upload.

Context {host : Host}.

(** [handleFile] from the rows that [sheet_to_json] returned on: with a
    column missing it alerts and returns, and the page stays as it is. *)
Definition handleFile (rows : list row) (st : page) : page :=
  let c := detectColumns rows in
  if falsy (dateKey c) || falsy (navKey c) then st
  else
    let ser := toSeries rows (dateKey c) (navKey c) in
    let m := monthlyReturns ser in
    {| pg_series := ser; pg_table := fst m; pg_months := snd m |}.

End Upload.

(** * Invariants and derived figures used in the properties *)

(** A series as the second loop makes them: the points pushed over their own
    records. *)
Definition walked (s : list point) : Prop := s = pushedFrom walk0 (map recOf s).

(** The number a rounding returns for a value of sign [s]: a zero, an
    infinity or a finite number, all of that sign. *)
Inductive signed (s : bool) : num -> Prop :=
| signed_zero : signed s (zero s)
| signed_inf : signed s (Inf s)
| signed_fin (v : Q) : (0 < v)%Q -> signed s (Fin (Qred (if s then - v else v)%Q)).


(** A number that is not below zero: [NaN], [Infinity], or a finite value
    from zero on. *)
Definition notNegative (x : num) : Prop :=
  match x with
  | NaN => True
  | Inf s => s = false
  | Fin q => (0 <= q)%Q
  | NegZero => True
  end.

(** A number, not [NaN], that is at least [b]; one that is at most [b]. *)
Definition atLeast (b : Q) (x : num) : Prop :=
  match x with
  | NaN => False
  | Inf s => s = false
  | Fin q => (b <= q)%Q
  | NegZero => (b <= 0)%Q
  end.

Definition atMost (b : Q) (x : num) : Prop :=
  match x with
  | NaN => False
  | Inf s => s = true
  | Fin q => (q <= b)%Q
  | NegZero => (0 <= b)%Q
  end.


(** A number that is not above zero: [NaN], [-Infinity], or a finite value
    up to zero. *)
Definition notPositive (x : num) : Prop :=
  match x with
  | NaN => True
  | Inf s => s = true
  | Fin q => (q <= 0)%Q
  | NegZero => True
  end.


(** The peak is [NaN], or it is a number from 100 on. *)
Definition peakOk (pk : num) : Prop := pk = NaN \/ atLeast 100 pk.

Definition walkPeak (st : walk) : Prop := peakOk (w_peak st).

(** A string of decimal digits. *)
Fixpoint allDigits (s : string) : bool :=
  match s with
  | EmptyString => true
  | String c r => isDigit c && allDigits r
  end.

Section SeriesInvariants.

Context {host : Host}.

Variables dateKey navKey : string.

(** What the map holds after the loop over [rows]. *)
Record cleanInv (rows : list row) (m : jsmap rec) : Prop := {
  ci_nodup : NoDup (mapKeys m);
  ci_key : forall k v, In (k, v) m -> k = isoKey (rc_date v);
  ci_last : forall k v, In (k, v) m ->
      exists l1 r l2,
        rows = l1 ++ r :: l2
        /\ keptAs dateKey navKey r (rc_date v) (rc_nav v)
        /\ forall r' d' v', In r' l2 -> keptAs dateKey navKey r' d' v' ->
                            isoKey d' <> k;
  ci_all : forall r d v, In r rows -> keptAs dateKey navKey r d v ->
      In (isoKey d) (mapKeys m)
}.

(** The kept rows of one day key agree on date and value. *)
Definition oneValuePerDay (rows : list row) : Prop :=
  forall r1 r2 d1 d2 v1 v2,
    In r1 rows -> In r2 rows ->
    keptAs dateKey navKey r1 d1 v1 -> keptAs dateKey navKey r2 d2 v2 ->
    isoKey d1 = isoKey d2 -> d1 = d2 /\ v1 = v2.

End SeriesInvariants.

(** * Properties *)

(** ** Numbers *)

Section NumberFacts.

Local Open Scope Q_scope.



Lemma pow2_pos (k : Z) : 0 < pow2 k.
Proof.
  unfold pow2. destruct (0 <=? k)%Z eqn:E.
  - apply Z.leb_le in E. change 0 with (inject_Z 0). rewrite <- Zlt_Qlt.
    now apply Z.pow_pos_nonneg.
  - apply Z.leb_gt in E. apply Qinv_lt_0_compat.
    change 0 with (inject_Z 0). rewrite <- Zlt_Qlt.
    apply Z.pow_pos_nonneg; lia.
Qed.

Lemma inject_Z_zero (z : Z) : inject_Z z == 0 -> z = 0%Z.
Proof. unfold Qeq, inject_Z. simpl. lia. Qed.

Lemma pow2_neg_inv (k : Z) : pow2 k * pow2 (- k) == 1.
Proof.
  unfold pow2. destruct (Z.compare_spec 0 k) as [<- | H | H].
  - reflexivity.
  - replace (0 <=? k)%Z with true by (symmetry; apply Z.leb_le; lia).
    replace (0 <=? - k)%Z with false by (symmetry; apply Z.leb_gt; lia).
    rewrite Z.opp_involutive. apply Qmult_inv_r.
    intros E. pose proof (Z.pow_pos_nonneg 2 k eq_refl (Z.lt_le_incl _ _ H)) as Hp.
    apply inject_Z_zero in E. lia.
  - replace (0 <=? k)%Z with false by (symmetry; apply Z.leb_gt; lia).
    replace (0 <=? - k)%Z with true by (symmetry; apply Z.leb_le; lia).
    rewrite Qmult_comm. apply Qmult_inv_r.
    intros E. assert (Hp : (0 < 2 ^ (- k))%Z) by (apply Z.pow_pos_nonneg; lia).
    apply inject_Z_zero in E. lia.
Qed.

Lemma roundEven_between (t : Q) :
  (Qfloor t <= roundEven t <= Qfloor t + 1)%Z.
Proof.
  unfold roundEven. cbv zeta.
  destruct (t - inject_Z (Qfloor t) ?= 1 # 2)%Q; [destruct (Z.even (Qfloor t)) | |]; lia.
Qed.

Lemma roundEven_nonneg (t : Q) : 0 <= t -> (0 <= roundEven t)%Z.
Proof.
  intros H. pose proof (roundEven_between t) as [Hl _].
  assert (0 <= Qfloor t)%Z by (change 0%Z with (Qfloor 0); now apply Qfloor_resp_le).
  lia.
Qed.

Lemma roundEven_int (t : Q) (k : Z) : t == inject_Z k -> roundEven t = k.
Proof.
  intros H. unfold roundEven. cbv zeta.
  assert (Hf : Qfloor t = k) by (rewrite H; apply Qfloor_Z).
  rewrite Hf.
  assert (Hc : (t - inject_Z k ?= 1 # 2)%Q = Lt).
  { rewrite <- Qlt_alt. rewrite H. ring_simplify. reflexivity. }
  now rewrite Hc.
Qed.

Lemma roundEven_le (t : Q) (N : Z) : t <= inject_Z N -> (roundEven t <= N)%Z.
Proof.
  intros H. destruct (Qlt_le_dec t (inject_Z N)) as [Hlt | Hge].
  - pose proof (roundEven_between t) as [_ Hu].
    assert (Qfloor t < N)%Z.
    { apply Z.lt_nge. intros Hn. pose proof (Qfloor_le t) as Hfl.
      assert (inject_Z N <= inject_Z (Qfloor t)) by now rewrite <- Zle_Qle.
      lra. }
    lia.
  - rewrite (roundEven_int t N); [lia |]. lra.
Qed.

Lemma qzero_true (b : Q) : qzero b = true -> b == 0.
Proof. unfold qzero. intros H. now apply Qeq_bool_iff. Qed.

Lemma qzero_false (b : Q) : qzero b = false -> ~ b == 0.
Proof. unfold qzero. intros H. now apply Qeq_bool_neq. Qed.

Lemma qzero_iff (b : Q) : qzero b = true <-> b == 0.
Proof. unfold qzero. apply Qeq_bool_iff. Qed.

Lemma qneg_true (q : Q) : qneg q = true <-> q < 0.
Proof.
  unfold qneg. rewrite negb_true_iff. split; intros H.
  - apply Qnot_le_lt. intros Hle. apply Qle_bool_iff in Hle. congruence.
  - destruct (Qle_bool 0 q) eqn:E; [| reflexivity].
    apply Qle_bool_iff in E. lra.
Qed.

Lemma qneg_false (q : Q) : qneg q = false <-> 0 <= q.
Proof.
  unfold qneg. rewrite negb_false_iff. apply Qle_bool_iff.
Qed.

Lemma qneg_compat (a b : Q) : a == b -> qneg a = qneg b.
Proof.
  intros H. destruct (qneg a) eqn:Ea; symmetry.
  - apply qneg_true. apply qneg_true in Ea. lra.
  - apply qneg_false. apply qneg_false in Ea. lra.
Qed.

Lemma qzero_compat (a b : Q) : a == b -> qzero a = qzero b.
Proof.
  intros H. destruct (qzero a) eqn:Ea; symmetry.
  - apply qzero_iff. apply qzero_iff in Ea. lra.
  - destruct (qzero b) eqn:Eb; [| reflexivity].
    apply qzero_iff in Eb. apply qzero_false in Ea. exfalso. apply Ea. lra.
Qed.

Lemma round64_compat (a b : Q) : a == b -> round64 a = round64 b.
Proof. intros H. unfold round64. now rewrite (Qred_complete a b H). Qed.

Lemma round64_zero (x : Q) : x == 0 -> round64 x = Fin 0.
Proof. intros H. now rewrite (round64_compat x 0 H). Qed.

Lemma round64_signed (x : Q) : ~ x == 0 -> signed (qneg x) (round64 x).
Proof.
  intros Hx. unfold round64. cbv zeta.
  rewrite (qzero_compat (Qred x) x (Qred_correct x)).
  rewrite (qneg_compat (Qred x) x (Qred_correct x)).
  destruct (qzero x) eqn:Ez; [apply qzero_true in Ez; contradiction |].
  set (a := Qabs (Qred x)).
  set (ex := (Z.max (ilog2 a) (- 1022) - 52)%Z).
  set (m := roundEven (a * pow2 (- ex))).
  destruct (m =? 0)%Z eqn:Em; [constructor |].
  destruct (Qle_bool (pow2 1024) (inject_Z m * pow2 ex)); [constructor |].
  constructor.
  apply Z.eqb_neq in Em.
  assert (Hm : (0 <= m)%Z).
  { apply roundEven_nonneg. apply Qmult_le_0_compat.
    - apply Qabs_nonneg.
    - apply Qlt_le_weak, pow2_pos. }
  apply Qmult_lt_0_compat; [| apply pow2_pos].
  change 0 with (inject_Z 0). rewrite <- Zlt_Qlt. lia.
Qed.

Lemma Qabs_opp_eq (q : Q) : Qabs (- q) = Qabs q.
Proof. destruct q as [n d]. unfold Qabs, Qopp. simpl. now rewrite Z.abs_opp. Qed.

Lemma nneg_zero (s : bool) : nneg (zero s) = zero (negb s).
Proof. now destruct s. Qed.

Lemma Qred_zero (q : Q) : q == 0 -> Qred q = 0.
Proof. intros H. now rewrite (Qred_complete q 0 H). Qed.

Lemma round64_opp (x : Q) : ~ x == 0 -> round64 (- x) = nneg (round64 x).
Proof.
  intros Hx. unfold round64. cbv zeta. rewrite Qred_opp, Qabs_opp_eq.
  assert (Hq : ~ Qred x == 0) by now rewrite Qred_correct.
  assert (Hz : qzero (- Qred x) = qzero (Qred x)).
  { destruct (qzero (Qred x)) eqn:E.
    - apply qzero_true in E. contradiction.
    - destruct (qzero (- Qred x)) eqn:E'; [| reflexivity].
      apply qzero_true in E'. exfalso. apply Hq. lra. }
  rewrite Hz.
  destruct (qzero (Qred x)) eqn:Ez; [apply qzero_true in Ez; contradiction |].
  assert (Hn : qneg (- Qred x) = negb (qneg (Qred x))).
  { destruct (qneg (Qred x)) eqn:E.
    - apply qneg_true in E. apply qneg_false. lra.
    - apply qneg_false in E. apply qneg_true. lra. }
  rewrite Hn.
  set (a := Qabs (Qred x)).
  set (ex := (Z.max (ilog2 a) (- 1022) - 52)%Z).
  set (m := roundEven (a * pow2 (- ex))).
  destruct (m =? 0)%Z eqn:Em; [now rewrite nneg_zero |].
  destruct (Qle_bool (pow2 1024) (inject_Z m * pow2 ex)); [reflexivity |].
  set (v := inject_Z m * pow2 ex).
  assert (Hv : 0 < v).
  { apply Z.eqb_neq in Em.
    assert (Hm : (0 <= m)%Z).
    { apply roundEven_nonneg. apply Qmult_le_0_compat.
      - apply Qabs_nonneg.
      - apply Qlt_le_weak, pow2_pos. }
    apply Qmult_lt_0_compat; [| apply pow2_pos].
    change 0 with (inject_Z 0). rewrite <- Zlt_Qlt. lia. }
  unfold nneg.
  assert (Hnz : qzero (Qred (if qneg (Qred x) then - v else v)) = false).
  { destruct (qzero (Qred (if qneg (Qred x) then - v else v))) eqn:E;
      [| reflexivity].
    apply qzero_true in E. rewrite Qred_correct in E.
    destruct (qneg (Qred x)); lra. }
  rewrite Hnz. f_equal. apply Qred_complete.
  set (w := if qneg (Qred x) then - v else v).
  rewrite (Qred_correct w). unfold w.
  destruct (qneg (Qred x)); cbn [negb]; ring.
Qed.

Lemma ilog2_le_0 (a : Q) : 0 < a -> a <= 1 -> (ilog2 a <= 0)%Z.
Proof.
  intros Hpos Hle. unfold ilog2.
  assert (Hk : (Z.log2 (Qnum a) - Z.log2 (Zpos (Qden a)) <= 0)%Z).
  { destruct a as [n d]. unfold Qle in Hle. cbn [Qnum Qden] in *.
    assert (H : (n <= Zpos d)%Z) by lia.
    pose proof (Z.log2_le_mono _ _ H). lia. }
  destruct (Qle_bool _ a); lia.
Qed.

(** A value from 0 to 1 rounds to a number from 0 to 1. *)
Lemma round64_unit (x : Q) :
  0 < x -> x <= 1 -> exists r, round64 x = Fin r /\ 0 <= r /\ r <= 1.
Proof.
  intros Hpos Hle. unfold round64. cbv zeta.
  assert (Hq : Qred x == x) by apply Qred_correct.
  assert (Hz : qzero (Qred x) = false).
  { destruct (qzero (Qred x)) eqn:E; [| reflexivity].
    apply qzero_true in E. lra. }
  assert (Hn : qneg (Qred x) = false) by (apply qneg_false; lra).
  rewrite Hz, Hn.
  set (a := Qabs (Qred x)).
  assert (Ha : a == x) by (unfold a; rewrite Qabs_pos; lra).
  assert (He : (ilog2 a <= 0)%Z) by (apply ilog2_le_0; lra).
  set (ex := (Z.max (ilog2 a) (- 1022) - 52)%Z).
  assert (Hex : (ex <= - 52)%Z) by (unfold ex; lia).
  set (m := roundEven (a * pow2 (- ex))).
  assert (Hp : pow2 (- ex) = inject_Z (2 ^ (- ex))).
  { unfold pow2. replace (0 <=? - ex)%Z with true; [reflexivity |].
    symmetry. apply Z.leb_le. lia. }
  assert (Hm0 : (0 <= m)%Z).
  { apply roundEven_nonneg. apply Qmult_le_0_compat; [lra |].
    apply Qlt_le_weak, pow2_pos. }
  assert (Hm : (m <= 2 ^ (- ex))%Z).
  { apply roundEven_le. rewrite Hp.
    assert (0 < inject_Z (2 ^ (- ex))) by (rewrite <- Hp; apply pow2_pos).
    rewrite Ha. nra. }
  assert (Hv : inject_Z m * pow2 ex <= 1).
  { rewrite <- (pow2_neg_inv (- ex)). rewrite Z.opp_involutive.
    apply Qmult_le_compat_r; [| apply Qlt_le_weak, pow2_pos].
    rewrite Hp. now rewrite <- Zle_Qle. }
  assert (Hv0 : 0 <= inject_Z m * pow2 ex).
  { apply Qmult_le_0_compat; [| apply Qlt_le_weak, pow2_pos].
    change 0 with (inject_Z 0). now rewrite <- Zle_Qle. }
  destruct (m =? 0)%Z.
  - exists 0. simpl. repeat split; lra.
  - destruct (Qle_bool (pow2 1024) (inject_Z m * pow2 ex)) eqn:Eo.
    + apply Qle_bool_iff in Eo.
      assert (1 < pow2 1024) by reflexivity. lra.
    + exists (Qred (inject_Z m * pow2 ex)).
      pose proof (Qred_correct (inject_Z m * pow2 ex)) as Hr.
      repeat split; lra.
Qed.

Lemma Qred_int (z : Z) : Qred (inject_Z z) = inject_Z z.
Proof.
  unfold Qred, inject_Z.
  pose proof (Z.ggcd_gcd z 1) as Hg. pose proof (Z.ggcd_correct_divisors z 1) as Hd.
  destruct (Z.ggcd z 1) as [g [a b]]. simpl in *.
  rewrite Z.gcd_1_r in Hg. subst g. destruct Hd as [Ha Hb].
  rewrite Z.mul_1_l in Ha, Hb. subst. reflexivity.
Qed.

Lemma Qred_to_int (q : Q) (z : Z) : q == inject_Z z -> Qred q = inject_Z z.
Proof. intros H. rewrite (Qred_complete _ _ H). apply Qred_int. Qed.

(** A natural number below [2^53] is a binary64 value. *)
Lemma round64_nat (z : Z) :
  (0 < z < 2 ^ 53)%Z -> round64 (inject_Z z) = Fin (inject_Z z).
Proof.
  intros Hz. unfold round64. cbv zeta. rewrite Qred_int.
  assert (Hzero : qzero (inject_Z z) = false).
  { destruct (qzero (inject_Z z)) eqn:E; [| reflexivity].
    apply qzero_true, inject_Z_zero in E. lia. }
  assert (Hneg : qneg (inject_Z z) = false).
  { apply qneg_false. change 0 with (inject_Z 0). rewrite <- Zle_Qle. lia. }
  rewrite Hzero, Hneg.
  assert (Ha : Qabs (inject_Z z) = inject_Z z).
  { unfold Qabs, inject_Z. now rewrite Z.abs_eq by lia. }
  rewrite Ha.
  assert (Hlog : (0 <= Z.log2 z < 53)%Z).
  { split; [apply Z.log2_nonneg |]. apply Z.log2_lt_pow2; lia. }
  assert (He : ilog2 (inject_Z z) = Z.log2 z).
  { unfold ilog2. cbn [Qnum Qden inject_Z]. change (Z.log2 1) with 0%Z.
    rewrite Z.sub_0_r.
    replace (Qle_bool (pow2 (Z.log2 z)) (inject_Z z)) with true; [reflexivity |].
    symmetry. apply Qle_bool_iff. unfold pow2.
    replace (0 <=? Z.log2 z)%Z with true by (symmetry; apply Z.leb_le; lia).
    rewrite <- Zle_Qle.
    apply Z.log2_spec. lia. }
  rewrite He.
  set (e := Z.log2 z) in *.
  replace (Z.max e (- 1022) - 52)%Z with (e - 52)%Z by lia.
  assert (Hp : pow2 (- (e - 52)) = inject_Z (2 ^ (52 - e))).
  { unfold pow2. replace (0 <=? - (e - 52))%Z with true
      by (symmetry; apply Z.leb_le; lia).
    f_equal. f_equal. lia. }
  rewrite Hp.
  assert (Hpos : (0 < 2 ^ (52 - e))%Z) by (apply Z.pow_pos_nonneg; lia).
  assert (Hm : roundEven (inject_Z z * inject_Z (2 ^ (52 - e)))
               = (z * 2 ^ (52 - e))%Z).
  { apply roundEven_int. now rewrite inject_Z_mult. }
  rewrite Hm.
  replace (z * 2 ^ (52 - e) =? 0)%Z with false by (symmetry; apply Z.eqb_neq; nia).
  assert (Hv : inject_Z (z * 2 ^ (52 - e)) * pow2 (e - 52) == inject_Z z).
  { rewrite inject_Z_mult, <- Hp, <- Qmult_assoc.
    rewrite (Qmult_comm (pow2 (- (e - 52)))), pow2_neg_inv. ring. }
  replace (Qle_bool (pow2 1024) (inject_Z (z * 2 ^ (52 - e)) * pow2 (e - 52)))
    with false.
  - f_equal. now apply Qred_to_int.
  - symmetry. destruct (Qle_bool _ _) eqn:E; [| reflexivity].
    apply Qle_bool_iff in E. rewrite Hv in E.
    change (pow2 1024) with (inject_Z (2 ^ 1024)) in E.
    rewrite <- Zle_Qle in E.
    assert (2 ^ 53 < 2 ^ 1024)%Z by reflexivity. lia.
Qed.

(** An integer of magnitude below [2^53] is a binary64 value. *)
Lemma ofZ_exact (z : Z) : (Z.abs z < 2 ^ 53)%Z -> ofZ z = Fin (inject_Z z).
Proof.
  intros Hz. unfold ofZ. destruct (Z.compare_spec z 0) as [-> | H | H].
  - reflexivity.
  - replace (inject_Z z) with (- inject_Z (- z))
      by (unfold Qopp, inject_Z; simpl; now rewrite Z.opp_involutive).
    rewrite round64_opp.
    + rewrite round64_nat by lia. unfold nneg.
      replace (qzero (inject_Z (- z))) with false.
      * now rewrite Qred_opp, Qred_int.
      * symmetry. destruct (qzero (inject_Z (- z))) eqn:E; [| reflexivity].
        apply qzero_true, inject_Z_zero in E. lia.
    + intros E. apply inject_Z_zero in E. lia.
  - apply round64_nat. lia.
Qed.



Lemma ofZ_100 : ofZ 100 = Fin 100.
Proof. vm_compute. reflexivity. Qed.

(** [round64] on some reals: a tenth; two integers halfway between
    neighbouring binary64, each taken to the even one; the real just below
    the halfway point above the largest finite binary64, and that point; the
    smallest binary64 above zero, half of it on either side of zero, and
    three halves of it. *)
Lemma round64_samples :
  round64 (1 # 10) = Fin (3602879701896397 # 36028797018963968)
  /\ round64 (inject_Z (2 ^ 53 + 1)) = Fin (inject_Z (2 ^ 53))
  /\ round64 (inject_Z (2 ^ 53 + 3)) = Fin (inject_Z (2 ^ 53 + 4))
  /\ round64 (inject_Z (2 ^ 1024 - 2 ^ 970 - 1))
     = Fin (inject_Z (2 ^ 1024 - 2 ^ 971))
  /\ round64 (inject_Z (2 ^ 1024 - 2 ^ 970)) = Inf false
  /\ round64 (pow2 (-1074)) = Fin (pow2 (-1074))
  /\ round64 (pow2 (-1075)) = Fin 0
  /\ round64 (- pow2 (-1075)) = NegZero
  /\ round64 (3 * pow2 (-1075)) = Fin (pow2 (-1073)).
Proof. vm_compute. repeat split. Qed.


Lemma atMost_weaken (a b : Q) (x : num) : a <= b -> atMost a x -> atMost b x.
Proof. intros H. destruct x; simpl; auto; lra. Qed.


Lemma atMost_zero (b : Q) (s : bool) : 0 <= b -> atMost b (zero s).
Proof. intros H. destruct s; simpl; lra. Qed.


Lemma round64_nonpos (x : Q) : x <= 0 -> atMost 0 (round64 x).
Proof.
  intros H. destruct (Qeq_dec x 0) as [E | E].
  - rewrite (round64_zero x E). simpl. lra.
  - pose proof (round64_signed x E) as Hs.
    replace (qneg x) with true in Hs by (symmetry; apply qneg_true; lra).
    destruct Hs as [| | v Hv]; cbn [atMost zero]; try reflexivity; try lra.
    pose proof (Qred_correct (- v)). lra.
Qed.

Lemma round64_le_1 (x : Q) : x <= 1 -> atMost 1 (round64 x).
Proof.
  intros H. destruct (Qlt_le_dec 0 x) as [Hpos | Hneg].
  - destruct (round64_unit x Hpos H) as (r & -> & _ & Hr). exact Hr.
  - apply atMost_weaken with 0; [lra |]. now apply round64_nonpos.
Qed.


(** ** Signs through the arithmetic *)






Lemma notNegative_cases (x : num) : notNegative x -> x = NaN \/ atLeast 0 x.
Proof. destruct x; simpl; auto. intros _. right. lra. Qed.




Lemma ofCents_nonpos (n : Z) : (0 <= n)%Z -> atMost 0 (ofCents true n).
Proof.
  intros H. unfold ofCents. destruct (n =? 0)%Z; [simpl; lra |].
  apply round64_nonpos.
  assert (0 <= inject_Z n / 100).
  { apply Qle_shift_div_l; [lra |].
    rewrite Qmult_0_l. change 0 with (inject_Z 0). now rewrite <- Zle_Qle. }
  lra.
Qed.

Lemma cents_nonneg (a : Q) : 0 <= a -> (0 <= Qfloor (a * 100 + (1 # 2)))%Z.
Proof.
  intros Ha. change 0%Z with (Qfloor 0). apply Qfloor_resp_le. lra.
Qed.


Lemma atMost_notPositive (x : num) : atMost 0 x -> notPositive x.
Proof. destruct x; cbn [atMost notPositive]; auto. Qed.

Lemma toFixed2_notPositive (x : num) : notPositive x -> notPositive (toFixed2 x).
Proof.
  destruct x as [| s | q |]; unfold toFixed2; cbv zeta; cbn [notPositive]; auto.
  - intros Hq. destruct (Qle_bool (inject_Z (10 ^ 21)) (Qabs q)); [exact Hq |].
    destruct (qneg q) eqn:En.
    + apply atMost_notPositive, ofCents_nonpos, cents_nonneg, Qabs_nonneg.
    + apply qneg_false in En. assert (Hz : q == 0) by lra.
      replace (Qfloor (Qabs q * 100 + (1 # 2))) with 0%Z;
        [cbn [ofCents Z.eqb zero notPositive]; lra |].
      symmetry. rewrite Hz. reflexivity.
  - intros _. lra.
Qed.

(** [toFixed(2)] takes the hundredths closest to the magnitude, the larger
    number of them on a tie. *)
Lemma toFixed2_cents (q : Q) :
  Qabs q < inject_Z (10 ^ 21) ->
  exists n : Z,
    inject_Z n - (1 # 2) <= Qabs q * 100 /\ Qabs q * 100 < inject_Z n + (1 # 2)
    /\ toFixed2 (Fin q) = ofCents (qneg q) n.
Proof.
  intros Hq. exists (Qfloor (Qabs q * 100 + (1 # 2))).
  pose proof (Qfloor_le (Qabs q * 100 + (1 # 2))) as Hl.
  pose proof (Qlt_floor (Qabs q * 100 + (1 # 2))) as Hu.
  rewrite inject_Z_plus in Hu. change (inject_Z 1) with 1 in Hu.
  repeat split; try lra.
  unfold toFixed2.
  replace (Qle_bool (inject_Z (10 ^ 21)) (Qabs q)) with false; [reflexivity |].
  symmetry. destruct (Qle_bool _ _) eqn:E; [| reflexivity].
  apply Qle_bool_iff in E. lra.
Qed.

End NumberFacts.

Section IntegerFacts.

Local Open Scope Q_scope.

Lemma qneg_int (z : Z) : (0 <= z)%Z -> qneg (inject_Z z) = false.
Proof.
  intros H. apply qneg_false. change 0 with (inject_Z 0). now rewrite <- Zle_Qle.
Qed.

Lemma qzero_int (z : Z) : qzero (inject_Z z) = (z =? 0)%Z.
Proof.
  destruct (z =? 0)%Z eqn:E.
  - apply Z.eqb_eq in E. now subst.
  - apply Z.eqb_neq in E. destruct (qzero (inject_Z z)) eqn:Eq; [| reflexivity].
    apply qzero_true, inject_Z_zero in Eq. contradiction.
Qed.

Lemma nneg_int (a : Z) : a <> 0%Z -> nneg (Fin (inject_Z a)) = Fin (inject_Z (- a)).
Proof.
  intros Ha. unfold nneg. rewrite qzero_int.
  replace (a =? 0)%Z with false by (symmetry; now apply Z.eqb_neq).
  f_equal. apply Qred_to_int. now rewrite inject_Z_opp.
Qed.

Lemma nadd_int (a b : Z) :
  (Z.abs (a + b) < 2 ^ 53)%Z ->
  nadd (Fin (inject_Z a)) (Fin (inject_Z b)) = Fin (inject_Z (a + b)).
Proof.
  intros H. unfold nadd. cbn [valueOf].
  rewrite (qzero_compat _ (inject_Z (a + b))) by (now rewrite inject_Z_plus).
  rewrite qzero_int. destruct (a + b =? 0)%Z eqn:E.
  - apply Z.eqb_eq in E. now rewrite E.
  - rewrite (round64_compat _ (inject_Z (a + b))) by (now rewrite inject_Z_plus).
    now apply ofZ_exact.
Qed.

Lemma nmul_int (a b : Z) :
  (0 < b)%Z -> (Z.abs (a * b) < 2 ^ 53)%Z ->
  nmul (Fin (inject_Z a)) (Fin (inject_Z b)) = Fin (inject_Z (a * b)).
Proof.
  intros Hb H. unfold nmul. cbn [valueOf signBit].
  rewrite (qzero_compat _ (inject_Z (a * b))) by (now rewrite inject_Z_mult).
  rewrite qzero_int. destruct (a * b =? 0)%Z eqn:E.
  - apply Z.eqb_eq in E. rewrite E.
    assert (a = 0%Z) by nia. subst a.
    rewrite !qneg_int by lia. reflexivity.
  - rewrite (round64_compat _ (inject_Z (a * b))) by (now rewrite inject_Z_mult).
    now apply ofZ_exact.
Qed.

End IntegerFacts.

(** ** The second loop of [toSeries] *)

Lemma walkStep_out (st : walk) (c : rec) :
  w_out (walkStep st c) = w_out st ++ [pushed (walkStep st c) c].
Proof. reflexivity. Qed.

Lemma walk_snoc (l : list rec) (c : rec) (st : walk) :
  fold_left walkStep (l ++ [c]) st = walkStep (fold_left walkStep l st) c.
Proof. now rewrite fold_left_app. Qed.

Lemma walk_out (l : list rec) (st : walk) :
  w_out (fold_left walkStep l st) = w_out st ++ pushedFrom st l.
Proof.
  revert st. induction l as [| c l IH]; intros st; simpl.
  - now rewrite app_nil_r.
  - rewrite IH, walkStep_out, <- app_assoc. reflexivity.
Qed.

Lemma walk0_out (l : list rec) :
  w_out (fold_left walkStep l walk0) = pushedFrom walk0 l.
Proof. now rewrite walk_out. Qed.

Lemma recOf_pushed (st : walk) (c : rec) : recOf (pushed st c) = c.
Proof. now destruct c. Qed.

Lemma recOf_pushedFrom (l : list rec) (st : walk) :
  map recOf (pushedFrom st l) = l.
Proof.
  revert st. induction l as [| c l IH]; intros st; simpl.
  - reflexivity.
  - now rewrite recOf_pushed, IH.
Qed.

Lemma firstn_S_nth {A : Type} (l : list A) (i : nat) (c : A) :
  nth_error l i = Some c -> firstn (S i) l = firstn i l ++ [c].
Proof.
  revert i. induction l as [| a l IH]; intros [| i] H; simpl in *; try discriminate.
  - now inversion H.
  - f_equal. now apply IH.
Qed.

Lemma walk_firstn_S (l : list rec) (i : nat) (c : rec) (st : walk) :
  nth_error l i = Some c ->
  fold_left walkStep (firstn (S i) l) st
  = walkStep (fold_left walkStep (firstn i l) st) c.
Proof. intros H. now rewrite (firstn_S_nth _ _ _ H), walk_snoc. Qed.

Lemma pushedFrom_nth (l : list rec) (st : walk) (i : nat) (p : point) :
  nth_error (pushedFrom st l) i = Some p ->
  exists c, nth_error l i = Some c
            /\ p = pushed (fold_left walkStep (firstn (S i) l) st) c.
Proof.
  revert st i. induction l as [| a l IH]; intros st [| i] H; simpl in *;
    try discriminate.
  - inversion H. now exists a.
  - now apply IH.
Qed.

Lemma walk_prevNav (l : list rec) (i : nat) (c : rec) (st : walk) :
  nth_error l i = Some c ->
  w_prevNav (fold_left walkStep (firstn (S i) l) st) = Some (rc_nav c).
Proof. intros H. now rewrite (walk_firstn_S _ _ _ st H). Qed.

Lemma pushedFrom_walked (l : list rec) : walked (pushedFrom walk0 l).
Proof. unfold walked. now rewrite recOf_pushedFrom. Qed.

Lemma walked_nth (s : list point) (i : nat) (p : point) :
  walked s -> nth_error s i = Some p ->
  p = pushed (fold_left walkStep (map recOf (firstn (S i) s)) walk0) (recOf p).
Proof.
  intros Hs Hp. pose proof Hp as Hp'. rewrite Hs in Hp'.
  apply pushedFrom_nth in Hp' as (c & Hc & ->).
  rewrite firstn_map. rewrite recOf_pushed. reflexivity.
Qed.

Section SeriesFacts.

Context {host : Host}.

Lemma toSeries_cases (rows : list row) (dateKey navKey : option string) :
  toSeries rows dateKey navKey = []
  \/ exists dk nk, dateKey = Some dk /\ navKey = Some nk /\ rows <> []
       /\ toSeries rows dateKey navKey = pushedFrom walk0 (cleanRecords rows dk nk).
Proof.
  unfold toSeries. destruct rows as [| r rows]; [now left |].
  destruct dateKey as [dk |]; [| now left].
  destruct navKey as [nk |]; [| now left].
  destruct (isEmpty dk || isEmpty nk); [now left |].
  right. exists dk, nk. repeat split; try discriminate.
  now rewrite walk_out.
Qed.

Lemma toSeries_walked (rows : list row) (dateKey navKey : option string) :
  walked (toSeries rows dateKey navKey).
Proof.
  destruct (toSeries_cases rows dateKey navKey) as [-> | (dk & nk & _ & _ & _ & ->)].
  - reflexivity.
  - apply pushedFrom_walked.
Qed.

End SeriesFacts.

Lemma walked_equity (s : list point) (i : nat) (p : point) :
  walked s -> nth_error s i = Some p -> equity p = toFixed2 (internalEquity s i).
Proof. intros Hs Hp. now rewrite (walked_nth _ _ _ Hs Hp) at 1. Qed.

Lemma internalEquity_S (s : list point) (i : nat) (p q : point) :
  nth_error s i = Some p -> nth_error s (S i) = Some q ->
  internalEquity s (S i)
  = nmul (internalEquity s i)
         (nadd (ofZ 1)
               (if negb (neqb (nav p) (ofZ 0))
                then nsub (ndiv (nav q) (nav p)) (ofZ 1) else ofZ 0)).
Proof.
  intros Hp Hq. unfold internalEquity.
  assert (Hq' : nth_error (map recOf s) (S i) = Some (recOf q))
    by now rewrite nth_error_map, Hq.
  assert (Hp' : nth_error (map recOf s) i = Some (recOf p))
    by now rewrite nth_error_map, Hp.
  rewrite <- !firstn_map.
  rewrite (walk_firstn_S _ _ _ walk0 Hq').
  unfold walkStep at 1. cbn [w_equity].
  rewrite (walk_prevNav _ _ _ walk0 Hp'). reflexivity.
Qed.

Lemma internalEquity_0 (s : list point) (p : point) :
  nth_error s 0 = Some p -> internalEquity s 0 = ofZ 100.
Proof. destruct s; [discriminate |]. reflexivity. Qed.

(** ** Values that are not negative: an invariant of the second loop *)







(** An invariant of the turns holds after every prefix of the records. *)
Lemma walk_invariant (I : walk -> Prop) (P : rec -> Prop) :
  (forall st c, I st -> P c -> I (walkStep st c)) ->
  forall (l : list rec) (st : walk),
    I st -> Forall P l -> forall n, I (fold_left walkStep (firstn n l) st).
Proof.
  intros Hstep l. induction l as [| c l IH]; intros st Hst Hl n.
  - now rewrite firstn_nil.
  - destruct n as [| n]; [exact Hst |]. simpl. inversion Hl; subst.
    apply IH; [now apply Hstep | assumption].
Qed.



Lemma first_turn : nmul (ofZ 100) (nadd (ofZ 1) (ofZ 0)) = ofZ 100.
Proof. vm_compute. reflexivity. Qed.

Lemma toFixed2_100 : toFixed2 (ofZ 100) = ofZ 100.
Proof. vm_compute. reflexivity. Qed.

(** ** The peak: an invariant of the second loop *)

Section DrawdownFacts.

Local Open Scope Q_scope.

Lemma ofZ_literals :
  ofZ 1 = Fin 1 /\ ofZ 100 = Fin 100 /\ ofZ 0 = Fin 0 /\ nneg (Fin 1) = Fin (- 1).
Proof. vm_compute. repeat split. Qed.

Lemma nsub_1_atMost (d : num) : atMost 1 d -> atMost 0 (nsub d (ofZ 1)).
Proof.
  destruct ofZ_literals as (-> & _ & _ & Hn). unfold nsub. rewrite Hn.
  intros H. destruct d as [| s | q |]; cbn [atMost] in H; try contradiction.
  - subst s. reflexivity.
  - unfold nadd. cbn [valueOf].
    destruct (qzero (q + - 1)); [cbn [atMost]; lra |]. apply round64_nonpos. lra.
  - unfold nadd. cbn [valueOf].
    destruct (qzero (0 + - 1)); [cbn [atMost]; lra |]. apply round64_nonpos. lra.
Qed.

Lemma nmul_100_atMost (x : num) : atMost 0 x -> atMost 0 (nmul x (ofZ 100)).
Proof.
  destruct ofZ_literals as (_ & -> & _ & _).
  intros H. destruct x as [| s | q |]; cbn [atMost] in H; try contradiction.
  - subst s. reflexivity.
  - unfold nmul. cbn [valueOf isZero signBit].
    destruct (qzero (q * 100)); [apply atMost_zero; lra |].
    apply round64_nonpos. lra.
  - unfold nmul. cbn [valueOf isZero signBit].
    destruct (qzero (0 * 100)); [apply atMost_zero; lra |].
    apply round64_nonpos. lra.
Qed.

Lemma drawdown_of_ratio (d : num) :
  d = NaN \/ atMost 1 d ->
  notPositive (toFixed2 (nmul (nsub d (ofZ 1)) (ofZ 100))).
Proof.
  intros [-> | H].
  - exact I.
  - now apply toFixed2_notPositive, atMost_notPositive, nmul_100_atMost,
      nsub_1_atMost.
Qed.

Lemma notPositive_nle (x : num) :
  notPositive x -> x = NaN \/ nle x (ofZ 0) = true.
Proof.
  destruct ofZ_literals as (_ & _ & -> & _).
  destruct x as [| s | q |]; cbn [notPositive]; intros H.
  - now left.
  - subst s. now right.
  - right. now apply Qle_bool_iff.
  - now right.
Qed.

Lemma nlt_false_fin (a b : Q) : nlt (Fin a) (Fin b) = false -> b <= a.
Proof.
  unfold nlt, nle. cbn [valueOf]. intros H. apply negb_false_iff in H.
  now apply Qle_bool_iff.
Qed.

Lemma nlt_true_fin (a b : Q) : nlt (Fin a) (Fin b) = true -> a < b.
Proof.
  unfold nlt, nle. cbn [valueOf]. intros H. apply negb_true_iff in H.
  destruct (Qlt_le_dec a b) as [Hl | Hl]; [exact Hl |].
  apply Qle_bool_iff in Hl. congruence.
Qed.

Lemma round64_one (x : Q) : x == 1 -> round64 x = Fin 1.
Proof.
  intros H. rewrite (round64_compat x 1 H). vm_compute. reflexivity.
Qed.

(** One turn on the peak: the peak stays [NaN] or at least 100, and the
    equity over the peak is [NaN] or at most 1. *)
Lemma peak_turn (pk e : num) :
  peakOk pk ->
  peakOk (Math_max pk e)
  /\ (ndiv e (Math_max pk e) = NaN \/ atMost 1 (ndiv e (Math_max pk e))).
Proof.
  intros [-> | Hpk]; [split; left; now destruct e |].
  destruct pk as [| sp | p |]; cbn [atLeast] in Hpk; try contradiction;
    try lra; [subst sp |].
  - destruct e as [| [|] | q |]; unfold Math_max, ndiv;
      cbn [isPosZero isNegZero andb nlt nle negb signBit];
      rewrite ?andb_false_r; unfold peakOk; cbn [atLeast];
      (split; [first [now left | now right] |]);
      first [now left | right; apply atMost_zero; lra].
  - assert (Hz : qzero p = false).
    { destruct (qzero p) eqn:E; [| reflexivity]. apply qzero_true in E. lra. }
    assert (Hn : qneg p = false) by (apply qneg_false; lra).
    destruct e as [| [|] | q |].
    + split; now left.
    + cbn. rewrite Hn. split; right; cbn; auto.
    + cbn. split; [right; reflexivity | now left].
    + unfold Math_max. cbn [isPosZero isNegZero]. rewrite andb_false_r.
      destruct (nlt (Fin p) (Fin q)) eqn:El.
      * apply nlt_true_fin in El. split; [right; cbn [atLeast]; lra |].
        right. unfold ndiv. cbn [isZero valueOf].
        replace (qzero q) with false
          by (symmetry; destruct (qzero q) eqn:E; [| reflexivity];
              apply qzero_true in E; lra).
        rewrite (round64_one (q / q)); [cbn [atMost]; lra |]. field. lra.
      * apply nlt_false_fin in El. split; [right; exact Hpk |].
        right. unfold ndiv. cbn [isZero valueOf]. rewrite Hz.
        destruct (qzero q); [apply atMost_zero; lra |].
        apply round64_le_1. apply Qle_shift_div_r; lra.
    + unfold Math_max. cbn [isPosZero isNegZero andb].
      replace (nlt (Fin p) NegZero) with false
        by (unfold nlt, nle; cbn [valueOf]; symmetry;
            apply negb_false_iff, Qle_bool_iff; lra).
      split; [right; exact Hpk |]. right.
      unfold ndiv. cbn [isZero]. rewrite Hz. apply atMost_zero. lra.
Qed.

Lemma walkStep_peak (st : walk) (c : rec) :
  walkPeak st -> True -> walkPeak (walkStep st c).
Proof. intros H _. unfold walkPeak, walkStep. cbn [w_peak]. now apply peak_turn. Qed.

Lemma walk0_peak : walkPeak walk0.
Proof.
  right. cbn [walk0 w_peak]. destruct ofZ_literals as (_ & -> & _ & _).
  cbn [atLeast]. lra.
Qed.

Lemma walk_peak (l : list rec) (n : nat) :
  walkPeak (fold_left walkStep (firstn n l) walk0).
Proof.
  apply (walk_invariant walkPeak (fun _ => True));
    [exact walkStep_peak | exact walk0_peak |].
  apply Forall_forall. auto.
Qed.

Lemma pushed_drawdown (st : walk) (c : rec) :
  drawdown (pushed (walkStep st c) c)
  = toFixed2 (nmul (nsub (ndiv (w_equity (walkStep st c))
                               (Math_max (w_peak st) (w_equity (walkStep st c))))
                         (ofZ 1)) (ofZ 100)).
Proof. reflexivity. Qed.

Lemma zero_drawdown : toFixed2 (nmul (nsub (Fin 1) (ofZ 1)) (ofZ 100)) = ofZ 0.
Proof. vm_compute. reflexivity. Qed.

(** At a finite equity at or above the peak, the equity over the new peak
    is 1. *)
Lemma peak_turn_high (pk e : num) :
  peakOk pk -> isFinite e = true -> nle pk e = true ->
  ndiv e (Math_max pk e) = Fin 1.
Proof.
  intros [-> | Hpk] Hf Hle; [discriminate |].
  destruct pk as [| sp | p |]; cbn [atLeast] in Hpk; try contradiction;
    try lra; [subst sp |].
  - destruct e; discriminate.
  - destruct e as [| s | q |]; try discriminate.
    + unfold nle in Hle. cbn [valueOf] in Hle. apply Qle_bool_iff in Hle.
      assert (Hzq : qzero q = false).
      { destruct (qzero q) eqn:E; [| reflexivity]. apply qzero_true in E. lra. }
      assert (Hz : qzero p = false).
      { destruct (qzero p) eqn:E; [| reflexivity]. apply qzero_true in E. lra. }
      unfold Math_max. cbn [isPosZero isNegZero]. rewrite andb_false_r.
      destruct (nlt (Fin p) (Fin q)) eqn:El; unfold ndiv; cbn [isZero valueOf];
        rewrite ?Hzq, ?Hz; apply round64_one.
      * field. lra.
      * apply nlt_false_fin in El. assert (q == p) by lra.
        rewrite H. field. lra.
    + unfold nle in Hle. cbn [valueOf] in Hle. apply Qle_bool_iff in Hle. lra.
Qed.

End DrawdownFacts.

(** ** The equity index and the drawdown of a built series *)

Lemma walked_drawdown (s : list point) (i : nat) (p : point) :
  walked s -> nth_error s i = Some p ->
  drawdown p
  = toFixed2 (nmul (nsub (ndiv (internalEquity s i)
                               (Math_max (peakBefore s i) (internalEquity s i)))
                         (ofZ 1)) (ofZ 100)).
Proof.
  intros Hw Hp.
  assert (Hc : nth_error (map recOf s) i = Some (recOf p))
    by now rewrite nth_error_map, Hp.
  unfold internalEquity, peakBefore. rewrite <- !firstn_map.
  rewrite (walk_firstn_S _ _ _ walk0 Hc).
  rewrite (walked_nth s i p Hw Hp) at 1. rewrite <- firstn_map.
  rewrite (walk_firstn_S _ _ _ walk0 Hc). apply pushed_drawdown.
Qed.

Lemma peakBefore_ok (s : list point) (i : nat) : peakOk (peakBefore s i).
Proof. unfold peakBefore. rewrite <- firstn_map. apply walk_peak. Qed.

Lemma walked_drawdown_notPositive (s : list point) (p : point) :
  walked s -> In p s -> notPositive (drawdown p).
Proof.
  intros Hw Hp. apply In_nth_error in Hp as (i & Hp).
  rewrite (walked_drawdown s i p Hw Hp).
  apply drawdown_of_ratio, peak_turn, peakBefore_ok.
Qed.

Section EquityClaims.

Context {host : Host}.

(** C4, as amended. In every built series the equity index of the first
    point is 100; every stored index is the internal one (the variable
    [equity], in full precision) put through [toFixed(2)], which takes the
    hundredths closest to the magnitude, the larger on a tie; and from a
    point whose value is not zero to the next the internal index is
    multiplied by [1 + (value / previous value - 1)], each operation rounded
    to a binary64. *)
Theorem equity_index_compounds (rows : list row) (dateKey navKey : option string) :
  let s := toSeries rows dateKey navKey in
  (forall p, nth_error s 0 = Some p ->
             internalEquity s 0 = ofZ 100 /\ equity p = ofZ 100)
  /\ (forall i p, nth_error s i = Some p ->
                  equity p = toFixed2 (internalEquity s i))
  /\ (forall i p q,
         nth_error s i = Some p -> nth_error s (S i) = Some q ->
         neqb (nav p) (ofZ 0) = false ->
         internalEquity s (S i)
         = nmul (internalEquity s i)
                (nadd (ofZ 1) (nsub (ndiv (nav q) (nav p)) (ofZ 1))))
  /\ (forall x : Q,
         (Qabs x < inject_Z (10 ^ 21))%Q ->
         exists n : Z,
           (inject_Z n - (1 # 2) <= Qabs x * 100)%Q
           /\ (Qabs x * 100 < inject_Z n + (1 # 2))%Q
           /\ toFixed2 (Fin x) = ofCents (qneg x) n).
Proof.
  intros s. pose proof (toSeries_walked rows dateKey navKey) as Hw.
  fold s in Hw. split; [| split; [| split]].
  - intros p Hp. split; [now apply internalEquity_0 with p |].
    rewrite (walked_equity s 0 p Hw Hp), (internalEquity_0 s p Hp).
    exact toFixed2_100.
  - intros i p Hp. now apply walked_equity.
  - intros i p q Hp Hq Hnz.
    rewrite (internalEquity_S s i p q Hp Hq), Hnz. reflexivity.
  - exact toFixed2_cents.
Qed.


(** X19. In every built series each drawdown is [NaN] or at most 0, and it is 0
    at every point whose internal equity index is finite and at or above
    the peak the turn finds, the first point among them. *)
Theorem drawdown_never_positive
        (rows : list row) (dateKey navKey : option string) :
  let s := toSeries rows dateKey navKey in
  (forall p, In p s -> drawdown p = NaN \/ nle (drawdown p) (ofZ 0) = true)
  /\ (forall i p, nth_error s i = Some p ->
                  isFinite (internalEquity s i) = true ->
                  nle (peakBefore s i) (internalEquity s i) = true ->
                  drawdown p = ofZ 0)
  /\ (forall p, nth_error s 0 = Some p -> drawdown p = ofZ 0).
Proof.
  intros s. pose proof (toSeries_walked rows dateKey navKey) as Hw.
  fold s in Hw.
  assert (Hhigh : forall i p, nth_error s i = Some p ->
                  isFinite (internalEquity s i) = true ->
                  nle (peakBefore s i) (internalEquity s i) = true ->
                  drawdown p = ofZ 0).
  { intros i p Hp Hf Hle. rewrite (walked_drawdown s i p Hw Hp).
    rewrite (peak_turn_high _ _ (peakBefore_ok s i) Hf Hle). exact zero_drawdown. }
  repeat split.
  - intros p Hp. now apply notPositive_nle, (walked_drawdown_notPositive s).
  - exact Hhigh.
  - intros p Hp. apply (Hhigh 0%nat p Hp).
    + rewrite (internalEquity_0 s p Hp). vm_compute. reflexivity.
    + rewrite (internalEquity_0 s p Hp). vm_compute. reflexivity.
Qed.

End EquityClaims.

(** The values 160 and 1: the internal index of the second point is just
    below 0.625 and the code stores 0.62; the index of the first point times
    the ratio of the values is 0.625, in binary64 as in the reals, and would
    be stored as 0.63. *)
Lemma equity_differs_from_value_ratio :
  map nav (toSeries rows160 (Some "Date") (Some "NAV")) = [ofZ 160; ofZ 1]
  /\ map equity (toSeries rows160 (Some "Date") (Some "NAV"))
     = [ofZ 100; ofLiteral (62 # 100)]
  /\ internalEquity (toSeries rows160 (Some "Date") (Some "NAV")) 1
     = Fin (1407374883553275 # 2251799813685248)
  /\ nmul (ofZ 100) (ndiv (ofZ 1) (ofZ 160)) = Fin (5 # 8)
  /\ ndiv (nmul (ofZ 100) (ofZ 1)) (ofZ 160) = Fin (5 # 8)
  /\ internalEquity (toSeries rows160 (Some "Date") (Some "NAV")) 1
     <> nmul (ofZ 100) (ndiv (ofZ 1) (ofZ 160))
  /\ toFixed2 (nmul (ofZ 100) (ndiv (ofZ 1) (ofZ 160))) = ofLiteral (63 # 100)
  /\ toFixed2 (ndiv (nmul (ofZ 100) (ofZ 1)) (ofZ 160)) = ofLiteral (63 # 100)
  /\ ofLiteral (62 # 100) <> ofLiteral (63 # 100).
Proof.
  vm_compute. repeat split; try discriminate.
Qed.

(** C5, at the failing input. The finite values 1e-300, 1e300 and 1e-300:
    the ratio of the second to the first is beyond the binary64 range, the
    equity index and the peak become [Infinity], and the drawdown of the
    second point is [NaN], which is not at most 0.  A text cell reading
    "Infinity" has the same effect. *)
Lemma drawdown_nan_on_overflow :
  map (fun p => isFinite (nav p))
      (toSeries rowsOverflow (Some "Date") (Some "NAV")) = [true; true; true]
  /\ map equity (toSeries rowsOverflow (Some "Date") (Some "NAV"))
     = [ofZ 100; Inf false; NaN]
  /\ map drawdown (toSeries rowsOverflow (Some "Date") (Some "NAV"))
     = [ofZ 0; NaN; NaN]
  /\ nle NaN (ofZ 0) = false
  /\ map drawdown (toSeries rowsInfinity (Some "Date") (Some "NAV"))
     = [ofZ 0; NaN].
Proof. vm_compute. repeat split. Qed.



(** ** The numeric classifier *)

Lemma isEmpty_false (s : string) : isEmpty s = false <-> s <> EmptyString.
Proof. destruct s; simpl; split; congruence. Qed.

(** C8, as amended. [isNumericLike(v)] is true exactly when [v] is a number
    other than [NaN], or a string that is not empty after trimming and
    stripping commas and whose reading as a number is not [NaN]; it accepts
    "1,234.5" and rejects "abc", [null] and "". *)
Theorem isNumericLike_iff_not_NaN :
  (forall v, isNumericLike v = true <-> numericLikeBy (fun x => negb (isNaN x)) v)
  /\ isNumericLike (CStr "1,234.5") = true
  /\ isNumericLike (CStr "abc") = false
  /\ isNumericLike CNull = false
  /\ isNumericLike (CStr "") = false.
Proof.
  split; [| repeat split].
  intros v. destruct v as [| | x | s | b | d]; simpl; try (split; [discriminate | tauto]).
  - tauto.
  - rewrite andb_true_iff, negb_true_iff, isEmpty_false. tauto.
Qed.

(** The text "Infinity" and the number [Infinity] are numeric-like, and
    neither is a finite number in the words of the specification. *)
Lemma isNumericLike_accepts_infinity :
  isNumericLike (CStr "Infinity") = true
  /\ ~ numericLikeBy isFinite (CStr "Infinity")
  /\ isNumericLike (CNum (Inf false)) = true
  /\ ~ numericLikeBy isFinite (CNum (Inf false)).
Proof.
  repeat split; try reflexivity.
  - intros [_ H]. discriminate H.
  - intros H. discriminate H.
Qed.

(** ** Sorting *)

Section SortBy.

Context {A : Type} (cmp : A -> A -> Z).

Lemma insertBy_perm (x : A) (l : list A) :
  Permutation (insertBy cmp x l) (x :: l).
Proof.
  induction l as [| y l IH]; simpl.
  - apply Permutation_refl.
  - destruct (cmp x y <=? 0).
    + apply Permutation_refl.
    + apply Permutation_trans with (y :: x :: l).
      * now apply perm_skip.
      * apply perm_swap.
Qed.

Lemma sortBy_perm (l : list A) : Permutation (sortBy cmp l) l.
Proof.
  induction l as [| x l IH]; simpl.
  - apply perm_nil.
  - apply Permutation_trans with (x :: sortBy cmp l).
    + apply insertBy_perm.
    + now apply perm_skip.
Qed.

Lemma sortBy_In (l : list A) (x : A) : In x (sortBy cmp l) <-> In x l.
Proof.
  split; apply Permutation_in; [| apply Permutation_sym]; apply sortBy_perm.
Qed.

(** When [cmp a b <= 0] is a total preorder [R], the result is sorted. *)
Variable R : A -> A -> Prop.
Hypothesis R_cmp : forall a b, cmp a b <= 0 <-> R a b.
Hypothesis R_trans : forall a b c, R a b -> R b c -> R a c.
Hypothesis R_total : forall a b, R a b \/ R b a.

Lemma insertBy_sorted (x : A) (l : list A) :
  StronglySorted R l -> StronglySorted R (insertBy cmp x l).
Proof.
  induction l as [| y l IH]; intros Hl; simpl.
  - constructor; constructor.
  - inversion Hl as [| ? ? Hl' Hy]; subst.
    destruct (cmp x y <=? 0) eqn:E.
    + apply Z.leb_le, R_cmp in E. constructor; [exact Hl |].
      constructor; [exact E |].
      rewrite Forall_forall in *. intros z Hz. apply R_trans with y; auto.
    + apply Z.leb_gt in E.
      assert (Hyx : R y x).
      { destruct (R_total x y) as [H | H]; [| exact H].
        apply R_cmp in H. lia. }
      constructor; [now apply IH |].
      rewrite Forall_forall in *. intros z Hz.
      apply (Permutation_in _ (insertBy_perm x l)) in Hz.
      destruct Hz as [<- | Hz]; auto.
Qed.

Lemma sortBy_sorted (l : list A) : StronglySorted R (sortBy cmp l).
Proof.
  induction l as [| x l IH]; simpl.
  - constructor.
  - now apply insertBy_sorted.
Qed.

End SortBy.

Lemma StronglySorted_map {A B : Type} (f : A -> B) (R : B -> B -> Prop)
      (l : list A) :
  StronglySorted (fun a b => R (f a) (f b)) l -> StronglySorted R (map f l).
Proof.
  induction 1 as [| a l Hl IH Ha]; simpl; constructor; auto.
  rewrite Forall_forall in *. intros b Hb.
  apply in_map_iff in Hb as (x & <- & Hx). auto.
Qed.

Lemma StronglySorted_unmap {A B : Type} (f : A -> B) (R : B -> B -> Prop)
      (l : list A) :
  StronglySorted R (map f l) -> StronglySorted (fun a b => R (f a) (f b)) l.
Proof.
  induction l as [| a l IH]; simpl; intros H; constructor;
    inversion H as [| ? ? Hl Ha]; subst; auto.
  rewrite Forall_forall in *. intros b Hb. apply Ha. now apply in_map.
Qed.

(** A list sorted by [<=] without repeated elements is sorted by [<]. *)
Lemma sorted_le_NoDup_lt (l : list Z) :
  StronglySorted Z.le l -> NoDup l -> StronglySorted Z.lt l.
Proof.
  induction 1 as [| a l Hl IH Ha]; intros Hnd; constructor;
    inversion Hnd as [| ? ? Hnot Hnd']; subst; auto.
  rewrite Forall_forall in *. intros b Hb.
  assert (a <> b) by (intros ->; contradiction).
  specialize (Ha b Hb). lia.
Qed.

(** ** Maps *)

Section MapFacts.

Context {V : Type}.

Lemma mapGet_mapSet (k k' : string) (v : V) (m : jsmap V) :
  mapGet k (mapSet k' v m) = if String.eqb k' k then Some v else mapGet k m.
Proof.
  induction m as [| [k0 v0] m IH]; simpl.
  - reflexivity.
  - destruct (String.eqb k0 k') eqn:E0; simpl.
    + apply String.eqb_eq in E0. subst k0.
      destruct (String.eqb k' k); reflexivity.
    + destruct (String.eqb k0 k) eqn:E1.
      * apply String.eqb_eq in E1. subst k0.
        rewrite String.eqb_sym in E0. now rewrite E0.
      * exact IH.
Qed.

Lemma mapKeys_mapSet (k k' : string) (v : V) (m : jsmap V) :
  In k (mapKeys (mapSet k' v m)) <-> k = k' \/ In k (mapKeys m).
Proof.
  unfold mapKeys. induction m as [| [k0 v0] m IH]; simpl.
  - intuition congruence.
  - destruct (String.eqb k0 k') eqn:E0; simpl.
    + apply String.eqb_eq in E0. subst k0. intuition congruence.
    + rewrite IH. intuition congruence.
Qed.

Lemma mapSet_NoDup (k : string) (v : V) (m : jsmap V) :
  NoDup (mapKeys m) -> NoDup (mapKeys (mapSet k v m)).
Proof.
  unfold mapKeys. induction m as [| [k0 v0] m IH]; simpl; intros Hnd.
  - constructor; [intros [] | constructor].
  - inversion Hnd as [| ? ? Hnot Hnd']; subst.
    destruct (String.eqb k0 k) eqn:E0; simpl.
    + apply String.eqb_eq in E0. subst k0. now constructor.
    + constructor; [| now apply IH].
      intros Hin. apply (mapKeys_mapSet k0 k v m) in Hin as [-> | Hin].
      * now rewrite String.eqb_refl in E0.
      * contradiction.
Qed.

Lemma mapGet_In (k : string) (v : V) (m : jsmap V) :
  mapGet k m = Some v -> In (k, v) m.
Proof.
  induction m as [| [k0 v0] m IH]; simpl; [discriminate |].
  destruct (String.eqb k0 k) eqn:E0.
  - apply String.eqb_eq in E0. subst k0. intros [= ->]. now left.
  - intros H. right. now apply IH.
Qed.

Lemma In_mapGet (k : string) (v : V) (m : jsmap V) :
  NoDup (mapKeys m) -> In (k, v) m -> mapGet k m = Some v.
Proof.
  unfold mapKeys. induction m as [| [k0 v0] m IH]; simpl; intros Hnd Hin;
    [contradiction |].
  inversion Hnd as [| ? ? Hnot Hnd']; subst.
  destruct Hin as [[= -> ->] | Hin].
  - now rewrite String.eqb_refl.
  - destruct (String.eqb k0 k) eqn:E0; [| now apply IH].
    apply String.eqb_eq in E0. subst k0. exfalso. apply Hnot.
    change k with (fst (k, v)). now apply in_map.
Qed.

Lemma mapGet_None (k : string) (m : jsmap V) :
  mapGet k m = None <-> ~ In k (mapKeys m).
Proof.
  unfold mapKeys. induction m as [| [k0 v0] m IH]; simpl.
  - tauto.
  - destruct (String.eqb k0 k) eqn:E0.
    + apply String.eqb_eq in E0. subst k0. split; [discriminate | tauto].
    + apply String.eqb_neq in E0. rewrite IH. tauto.
Qed.

End MapFacts.

(** ** The first loop of [toSeries] *)

Lemma isNumericLike_not_NaN (v : cell) :
  isNumericLike v = true -> isNaN (Number_of_cell v) = false.
Proof.
  destruct v as [| | x | s | b | d]; simpl; try discriminate.
  - destruct x; simpl; congruence.
  - rewrite andb_true_iff, !negb_true_iff. tauto.
Qed.

Lemma isoKey_Day (a b : Z) : Day a = Day b -> isoKey a = isoKey b.
Proof. intros H. unfold isoKey, isoDate. now rewrite H. Qed.

Lemma mapSet_In_inv {V : Type} (k k' : string) (v v' : V) (m : jsmap V) :
  In (k, v) (mapSet k' v' m) -> (k, v) = (k', v') \/ In (k, v) m.
Proof.
  induction m as [| [k0 v0] m IH]; simpl.
  - intuition.
  - destruct (String.eqb k0 k'); simpl; intuition.
Qed.

Lemma NoDup_values {V K : Type} (f : K -> string) (g : V -> K) (m : jsmap V) :
  NoDup (mapKeys m) -> (forall k v, In (k, v) m -> k = f (g v)) ->
  NoDup (map g (mapValues m)).
Proof.
  unfold mapKeys, mapValues.
  induction m as [| [k0 v0] m IH]; simpl; intros Hnd Hkey; constructor;
    inversion Hnd as [| ? ? Hnot Hnd']; subst.
  - intros Hin. apply in_map_iff in Hin as (v & Hg & Hin).
    apply in_map_iff in Hin as ([k v1] & Hv & Hin). simpl in Hv. subst v1.
    apply Hnot. apply in_map_iff. exists (k, v). split; [| exact Hin]. simpl.
    rewrite (Hkey k v (or_intror Hin)), Hg.
    symmetry. apply Hkey. now left.
  - apply IH; [exact Hnd' |]. intros k v Hin. apply Hkey. now right.
Qed.

Section FirstLoop.

Context {host : Host}.

Variables dateKey navKey : string.

Lemma cleanStep_cases (m : jsmap rec) (r : row) :
  (keeps dateKey navKey r = false /\ cleanStep dateKey navKey m r = m)
  \/ exists d v,
       keptAs dateKey navKey r d v
       /\ cleanStep dateKey navKey m r
          = mapSet (isoKey d) {| rc_date := d; rc_nav := v |} m.
Proof.
  unfold keeps, keptAs, cleanStep, isDateLike.
  destruct (coerceDate (getCell r dateKey)) as [d |]; [| now left].
  destruct (isNumericLike (getCell r navKey)) eqn:Hn; [| now left].
  rewrite (isNumericLike_not_NaN _ Hn). right.
  exists d, (Number_of_cell (getCell r navKey)). simpl. auto.
Qed.

Lemma keptAs_keeps (r : row) (d : Z) (v : num) :
  keptAs dateKey navKey r d v -> keeps dateKey navKey r = true.
Proof.
  intros (Hd & Hn & _). unfold keeps, isDateLike. now rewrite Hd, Hn.
Qed.

Lemma keptAs_fun (r : row) (d d' : Z) (v v' : num) :
  keptAs dateKey navKey r d v -> keptAs dateKey navKey r d' v' ->
  d = d' /\ v = v'.
Proof. intros (Hd & _ & Hv) (Hd' & _ & Hv'). split; congruence. Qed.

Lemma clean_filter (rows : list row) (m : jsmap rec) :
  fold_left (cleanStep dateKey navKey) rows m
  = fold_left (cleanStep dateKey navKey) (filter (keeps dateKey navKey) rows) m.
Proof.
  revert m. induction rows as [| r rows IH]; intros m; simpl; [reflexivity |].
  destruct (cleanStep_cases m r) as [[Hk ->] | (d & v & Hkept & _)].
  - rewrite Hk. apply IH.
  - rewrite (keptAs_keeps r d v Hkept). simpl. apply IH.
Qed.

Lemma clean_inv (rows : list row) :
  cleanInv dateKey navKey rows (fold_left (cleanStep dateKey navKey) rows []).
Proof.
  induction rows as [| r rows IH] using rev_ind.
  - split; simpl; try contradiction. constructor.
  - rewrite fold_left_app. simpl.
    set (m := fold_left (cleanStep dateKey navKey) rows []) in *.
    destruct IH as [Hnd Hkey Hlast Hall].
    destruct (cleanStep_cases m r) as [[Hk ->] | (d & v & Hkept & ->)].
    + split; auto.
      * intros k v Hin. destruct (Hlast k v Hin) as (l1 & r0 & l2 & -> & Hr0 & Hl2).
        exists l1, r0, (l2 ++ [r]). split; [now rewrite <- app_assoc |].
        split; [exact Hr0 |]. intros r' d' v' Hin' Hk'.
        apply in_app_or in Hin' as [Hin' | [<- | []]]; [eauto |].
        apply keptAs_keeps in Hk'. congruence.
      * intros r' d' v' Hin' Hk'.
        apply in_app_or in Hin' as [Hin' | [<- | []]]; [eauto |].
        apply keptAs_keeps in Hk'. congruence.
    + split.
      * now apply mapSet_NoDup.
      * intros k0 v0 Hin. apply mapSet_In_inv in Hin as [[= -> ->] | Hin]; auto.
      * intros k0 v0 Hin.
        assert (Hget : mapGet k0 (mapSet (isoKey d) {| rc_date := d; rc_nav := v |} m)
                       = Some v0).
        { apply In_mapGet; [now apply mapSet_NoDup | exact Hin]. }
        rewrite mapGet_mapSet in Hget.
        destruct (String.eqb (isoKey d) k0) eqn:E.
        -- apply String.eqb_eq in E. injection Hget as <-.
           exists rows, r, []. repeat split; try apply Hkept.
           intros r' d' v' [].
        -- apply String.eqb_neq in E. apply mapGet_In in Hget.
           destruct (Hlast k0 v0 Hget) as (l1 & r0 & l2 & -> & Hr0 & Hl2).
           exists l1, r0, (l2 ++ [r]). split; [now rewrite <- app_assoc |].
           split; [exact Hr0 |]. intros r' d' v' Hin' Hk'.
           apply in_app_or in Hin' as [Hin' | [<- | []]]; [eauto |].
           destruct (keptAs_fun r d d' v v' Hkept Hk') as [<- _]. exact E.
      * intros r' d' v' Hin' Hk'. apply mapKeys_mapSet.
        apply in_app_or in Hin' as [Hin' | [<- | []]]; [right; eauto |].
        left. destruct (keptAs_fun r d d' v v' Hkept Hk') as [<- _].
        reflexivity.
Qed.

End FirstLoop.

(** ** The built series: order, days and skipped rows *)

Section SeriesClaims.

Context {host : Host}.

Variables dateKey navKey : string.

Lemma cleanRecords_values (rows : list row) (c : rec) :
  In c (cleanRecords rows dateKey navKey)
  <-> In c (mapValues (fold_left (cleanStep dateKey navKey) rows [])).
Proof. unfold cleanRecords. apply sortBy_In. Qed.

Lemma cleanRecords_days (rows : list row) :
  NoDup (map (fun c => Day (rc_date c)) (cleanRecords rows dateKey navKey)).
Proof.
  destruct (clean_inv dateKey navKey rows) as [Hnd Hkey _ _].
  apply Permutation_NoDup
    with (map (fun c => Day (rc_date c))
              (mapValues (fold_left (cleanStep dateKey navKey) rows []))).
  - apply Permutation_map, Permutation_sym, sortBy_perm.
  - apply NoDup_values
      with (f := fun d => substring 0 10
                   (let '(y, m, d) := civil_from_days d in
                    (isoYear y ++ "-" ++ padStart0 2 (String_of_nonneg m)
                       ++ "-" ++ padStart0 2 (String_of_nonneg d))%string));
      [exact Hnd | exact Hkey].
Qed.

Lemma cleanRecords_sorted (rows : list row) :
  StronglySorted (fun a b => rc_date a < rc_date b)
                 (cleanRecords rows dateKey navKey).
Proof.
  apply StronglySorted_unmap with (f := rc_date) (R := Z.lt).
  apply sorted_le_NoDup_lt.
  - apply StronglySorted_map with (f := rc_date) (R := Z.le).
    unfold cleanRecords.
    apply sortBy_sorted; intros; lia.
  - apply NoDup_map_inv with (f := Day). rewrite map_map.
    apply cleanRecords_days.
Qed.

Lemma cleanRecords_source (rows : list row) (c : rec) :
  In c (cleanRecords rows dateKey navKey) ->
  exists l1 r l2,
    rows = l1 ++ r :: l2
    /\ keptAs dateKey navKey r (rc_date c) (rc_nav c)
    /\ forall r' d' v', In r' l2 -> keptAs dateKey navKey r' d' v' ->
                        Day d' <> Day (rc_date c).
Proof.
  intros Hc. apply cleanRecords_values in Hc.
  unfold mapValues in Hc. apply in_map_iff in Hc as ([k v] & Hv & Hin).
  simpl in Hv. subst v.
  destruct (clean_inv dateKey navKey rows) as [_ Hkey Hlast _].
  destruct (Hlast k c Hin) as (l1 & r & l2 & Hrows & Hr & Hl2).
  exists l1, r, l2. repeat split; try apply Hr; [exact Hrows |].
  intros r' d' v' Hin' Hk' Hday. apply (Hl2 r' d' v' Hin' Hk').
  rewrite (Hkey k c Hin). now apply isoKey_Day.
Qed.

Lemma cleanRecords_present (rows : list row) (r : row) (d : Z) (v : num) :
  In r rows -> keptAs dateKey navKey r d v ->
  exists c, In c (cleanRecords rows dateKey navKey)
            /\ isoKey (rc_date c) = isoKey d.
Proof.
  intros Hr Hk.
  destruct (clean_inv dateKey navKey rows) as [_ Hkey _ Hall].
  specialize (Hall r d v Hr Hk). unfold mapKeys in Hall.
  apply in_map_iff in Hall as ([k c] & Hk0 & Hin). simpl in Hk0. subst k.
  exists c. split.
  - apply cleanRecords_values. unfold mapValues.
    change c with (snd (isoKey d, c)). now apply in_map.
  - symmetry. now apply Hkey.
Qed.

Lemma toSeries_records (rows : list row) :
  toSeries rows (Some dateKey) (Some navKey) = []
  \/ (rows <> [] /\ isEmpty dateKey = false /\ isEmpty navKey = false
      /\ map recOf (toSeries rows (Some dateKey) (Some navKey))
         = cleanRecords rows dateKey navKey).
Proof.
  unfold toSeries. destruct rows as [| r rows]; [now left |].
  destruct (isEmpty dateKey); [now left |].
  destruct (isEmpty navKey); [now left |].
  right. cbn [orb]. repeat split; try discriminate.
  now rewrite walk0_out, recOf_pushedFrom.
Qed.

(** C9, as amended. A row whose date cell fails coercion or whose value cell
    is not numeric-like is skipped: the series is the one built from the
    other rows alone, and each point carries the date and the value of a row
    that passes both tests.  (A value cell that reads as an infinity is
    numeric-like; its row is kept.) *)
Theorem toSeries_skips_rejected_rows (rows : list row) :
  toSeries rows (Some dateKey) (Some navKey)
  = toSeries (filter (keeps dateKey navKey) rows) (Some dateKey) (Some navKey)
  /\ (forall p, In p (toSeries rows (Some dateKey) (Some navKey)) ->
        exists r, In r rows /\ keeps dateKey navKey r = true
                  /\ keptAs dateKey navKey r (date p) (nav p)).
Proof.
  split.
  - assert (Hc : cleanRecords rows dateKey navKey
                 = cleanRecords (filter (keeps dateKey navKey) rows) dateKey navKey).
    { unfold cleanRecords. now rewrite clean_filter. }
    unfold toSeries. destruct rows as [| r rows]; [reflexivity |].
    destruct (isEmpty dateKey || isEmpty navKey) eqn:Hg.
    + now destruct (filter (keeps dateKey navKey) (r :: rows)).
    + rewrite Hc.
      destruct (filter (keeps dateKey navKey) (r :: rows)) eqn:Hf; reflexivity.
  - intros p Hp.
    destruct (toSeries_records rows) as [He | (_ & _ & _ & Hrec)].
    + rewrite He in Hp. contradiction.
    + destruct (cleanRecords_source rows (recOf p)) as (l1 & r & l2 & -> & Hr & _).
      * rewrite <- Hrec. now apply in_map.
      * exists r. split; [apply in_elt |]. split; [| exact Hr].
        now apply keptAs_keeps with (date p) (nav p).
Qed.

End SeriesClaims.

(** The row whose value cell reads "Infinity", not a finite number, gives the
    second point of the series. *)
Lemma infinite_value_row_is_kept :
  map nav (toSeries rowsInfinity (Some "Date") (Some "NAV")) = [ofZ 1; Inf false]
  /\ Number_of_cell (getCell (sheetRow feb1 (CStr "Infinity")) "NAV") = Inf false
  /\ isFinite (Inf false) = false.
Proof. repeat split. Qed.

(** ** The calendar *)

Lemma yoe_bounds (doe : Z) :
  0 <= doe <= 146096 ->
  let yoe := (doe - doe / 1460 + doe / 36524 - doe / 146096) / 365 in
  0 <= yoe <= 399 /\ 0 <= doe - (365 * yoe + yoe / 4 - yoe / 100) <= 365.
Proof. intros H. cbv zeta. Z.div_mod_to_equations. lia. Qed.

(** The month of a day is one of the twelve, and the day number of its
    year, month and day is the day itself. *)
Lemma civil_from_days_spec (z : Z) :
  let '(y, m, d) := civil_from_days z in
  1 <= m <= 12 /\ days_from_civil y m d = z.
Proof.
  unfold civil_from_days. cbv zeta.
  set (z0 := z + 719468).
  set (era := z0 / 146097).
  set (doe := z0 - era * 146097).
  assert (Hdoe : 0 <= doe <= 146096)
    by (unfold doe, era; Z.div_mod_to_equations; lia).
  pose proof (yoe_bounds doe Hdoe) as Hy. cbv zeta in Hy.
  set (yoe := (doe - doe / 1460 + doe / 36524 - doe / 146096) / 365) in *.
  set (doy := doe - (365 * yoe + yoe / 4 - yoe / 100)) in *.
  set (mp := (5 * doy + 2) / 153).
  assert (Hmp : 0 <= mp <= 11) by (unfold mp; Z.div_mod_to_equations; lia).
  unfold days_from_civil.
  destruct (mp <? 10) eqn:E.
  - apply Z.ltb_lt in E. split; [lia |].
    destruct (mp + 3 <=? 2) eqn:E2; [apply Z.leb_le in E2; lia |].
    destruct (2 <? mp + 3) eqn:E3; [| apply Z.ltb_ge in E3; lia].
    replace ((yoe + era * 400) / 400) with era by (Z.div_mod_to_equations; lia).
    replace (mp + 3 - 3) with mp by lia.
    replace (yoe + era * 400 - era * 400) with yoe by lia.
    unfold doy, doe, z0. lia.
  - apply Z.ltb_ge in E. split; [lia |].
    destruct (mp - 9 <=? 2) eqn:E2; [| apply Z.leb_gt in E2; lia].
    destruct (2 <? mp - 9) eqn:E3; [apply Z.ltb_lt in E3; lia |].
    replace ((yoe + era * 400 + 1 - 1) / 400) with era
      by (Z.div_mod_to_equations; lia).
    replace (mp - 9 + 9) with mp by lia.
    replace (yoe + era * 400 + 1 - 1 - era * 400) with yoe by lia.
    unfold doy, doe, z0. lia.
Qed.

Lemma days_from_civil_day (y m d d' : Z) :
  days_from_civil y m d' = days_from_civil y m d + (d' - d).
Proof. unfold days_from_civil. lia. Qed.

Lemma MakeDay_civil (z delta : Z) :
  let '(y, m, d) := civil_from_days z in MakeDay y (m - 1) (d - delta) = z - delta.
Proof.
  pose proof (civil_from_days_spec z) as H.
  destruct (civil_from_days z) as [[y m] d]. destruct H as [Hm Hz].
  unfold MakeDay.
  replace ((m - 1) / 12) with 0 by (Z.div_mod_to_equations; lia).
  replace ((m - 1) mod 12 + 1) with m by (Z.div_mod_to_equations; lia).
  rewrite Z.add_0_r, (days_from_civil_day y m d 1), Hz. lia.
Qed.

Section DateFacts.

Context {host : Host}.

(** [setDate(getDate() - days)] moves the local time back by [days] whole
    days. *)
Lemma setDateBack_spec (t days : Z) :
  setDateBack t days = TimeClip (UTC (LocalTime t - days * msPerDay)).
Proof.
  unfold setDateBack.
  pose proof (MakeDay_civil (Day (LocalTime t)) days) as H.
  destruct (civil_from_days (Day (LocalTime t))) as [[y m] d]. rewrite H.
  f_equal. f_equal. unfold Day, TimeWithinDay, msPerDay.
  Z.div_mod_to_equations. lia.
Qed.

End DateFacts.

(** ** Trailing returns *)

Lemma find_rev {A : Type} (f : A -> bool) (l : list A) :
  match find f (rev l) with
  | Some p => exists l1 l2, l = l1 ++ p :: l2 /\ f p = true
                            /\ forall q, In q l2 -> f q = false
  | None => forall q, In q l -> f q = false
  end.
Proof.
  induction l as [| a l IH] using rev_ind; simpl.
  - intros q [].
  - rewrite rev_app_distr. simpl. destruct (f a) eqn:Ea.
    + exists l, []. repeat split; [exact Ea | intros q []].
    + destruct (find f (rev l)) as [p |].
      * destruct IH as (l1 & l2 & -> & Hp & Hl2).
        exists l1, (l2 ++ [a]). rewrite <- app_assoc. repeat split; auto.
        intros q Hq. apply in_app_or in Hq as [Hq | [<- | []]]; auto.
      * intros q Hq. apply in_app_or in Hq as [Hq | [<- | []]]; auto.
Qed.

Lemma sorted_before (l1 l2 : list point) (p : point) :
  StronglySorted (fun a b => date a < date b) (l1 ++ p :: l2) ->
  forall q, In q l1 -> date q < date p.
Proof.
  induction l1 as [| a l1 IH]; simpl; intros Hs q Hq; [contradiction |].
  inversion Hs as [| ? ? Hs' Ha]; subst. destruct Hq as [<- | Hq].
  - rewrite Forall_forall in Ha. apply Ha, in_elt.
  - now apply IH.
Qed.

Lemma mapGet_app {V : Type} (k : string) (a b : jsmap V) :
  mapGet k (a ++ b)
  = match mapGet k a with Some v => Some v | None => mapGet k b end.
Proof.
  induction a as [| [k0 v0] a IH]; simpl; [reflexivity |].
  now destruct (String.eqb k0 k).
Qed.

Lemma mapGet_map {V W : Type} (g : string -> V -> W) (k : string) (m : jsmap V) :
  mapGet k (map (fun '(l, v) => (l, g l v)) m)
  = match mapGet k m with Some v => Some (g k v) | None => None end.
Proof.
  induction m as [| [k0 v0] m IH]; simpl; [reflexivity |].
  destruct (String.eqb k0 k) eqn:E; [| exact IH].
  apply String.eqb_eq in E. now subst.
Qed.

Lemma lookback_label (label : string) (w : Z) :
  In (label, w) lookbackPeriods ->
  mapGet label lookbackPeriods = Some w /\ String.eqb "YTD" label = false.
Proof.
  intros H. unfold lookbackPeriods in H. simpl in H.
  repeat (destruct H as [H | H]; [injection H as <- <-; now split |]).
  contradiction.
Qed.

Lemma lastPoint_nonempty (series : list point) (latest : point) :
  lastPoint series = Some latest -> exists first rest, series = first :: rest.
Proof. destruct series as [| a l]; [discriminate | eauto]. Qed.

Lemma Math_min_single (d : num) : Math_min_list [d] = d.
Proof. destruct d as [| [|] | q |]; reflexivity. Qed.

Section TrailingClaims.

Context {host : Host}.

Lemma Returned_inj {A : Type} (a b : A) : Returned a = Returned b -> a = b.
Proof. now intros [= ->]. Qed.

Lemma calculateYTD_returns (series : list point) (latest : point) :
  lastPoint series = Some latest -> exists ytd, calculateYTD series = Returned ytd.
Proof.
  intros Hlast. unfold calculateYTD. rewrite Hlast. cbv zeta.
  destruct (find _ series); eauto.
Qed.

(** On a series that is not empty [calculateTrailingReturns] returns. *)
Lemma trailing_returns (series : list point) (latest : point) :
  lastPoint series = Some latest ->
  exists r, calculateTrailingReturns series = Returned r.
Proof.
  intros Hlast. unfold calculateTrailingReturns.
  destruct series as [| first rest]; [discriminate |]. rewrite Hlast.
  destruct (calculateYTD_returns (first :: rest) latest Hlast) as (ytd & ->).
  eauto.
Qed.

Lemma trailing_lookup (series : list point) (latest : point) (label : string)
      (w : Z) (r : jsmap (option num)) :
  lastPoint series = Some latest -> In (label, w) lookbackPeriods ->
  calculateTrailingReturns series = Returned r ->
  mapGet label r
  = Some match findClosest series (date latest) w with
         | Some past => Some (nsub (ndiv (nav latest) (nav past)) (ofZ 1))
         | None => None
         end.
Proof.
  intros Hlast Hin. destruct (lookback_label label w Hin) as [Hget Hytd].
  destruct (lastPoint_nonempty series latest Hlast) as (first & rest & ->).
  unfold calculateTrailingReturns. rewrite Hlast.
  destruct (calculateYTD (first :: rest)) as [ytd |]; [| discriminate].
  intros Hr. apply Returned_inj in Hr. subst r.
  rewrite mapGet_app. cbn [mapGet]. rewrite Hytd.
  rewrite mapGet_app.
  rewrite (mapGet_map
             (fun _ days =>
                match findClosest (first :: rest) (date latest) days with
                | Some past => Some (nsub (ndiv (nav latest) (nav past)) (ofZ 1))
                | None => None
                end)).
  now rewrite Hget.
Qed.

(** The four entries of the result that are no lookback window. *)
Lemma trailing_fixed (series : list point) (first latest : point)
      (r : jsmap (option num)) :
  hd_error series = Some first -> lastPoint series = Some latest ->
  calculateTrailingReturns series = Returned r ->
  mapGet "SI" r = Some (Some (nsub (ndiv (nav latest) (nav first)) (ofZ 1)))
  /\ mapGet "DD" r = Some (Some (ndiv (drawdown latest) (ofZ 100)))
  /\ mapGet "Max DD" r
     = Some (Some (ndiv (Math_min_list (map drawdown series)) (ofZ 100)))
  /\ exists ytd, calculateYTD series = Returned ytd /\ mapGet "YTD" r = Some ytd.
Proof.
  intros Hfirst Hlast. unfold calculateTrailingReturns.
  destruct series as [| a rest]; [discriminate |].
  injection Hfirst as ->. rewrite Hlast.
  destruct (calculateYTD (first :: rest)) as [ytd |]; [| discriminate].
  intros Hr. apply Returned_inj in Hr. subst r. repeat split. now exists ytd.
Qed.

(** C2. On a built series (ascending by date) that is not empty, for each
    of the eight lookback labels with its window of [w] days, the target is
    the date of the last point moved back by [w] days of local time; the
    scan from the end of the series finds the latest point dated at or
    before the target; [calculateTrailingReturns] returns, and the label
    reports the value of the last point over the value of that point, minus
    1, or [null] when no point is dated at or before the target. *)
Theorem trailing_return_of_window (series : list point) (latest : point)
        (label : string) (w : Z) :
  StronglySorted (fun p q => date p < date q) series ->
  lastPoint series = Some latest ->
  In (label, w)
     [("1D", 1); ("1W", 7); ("1M", 30); ("3M", 90); ("6M", 180); ("1Y", 365);
      ("3Y", 1095); ("5Y", 1825)] ->
  let target := TimeClip (UTC (LocalTime (date latest) - w * msPerDay)) in
  let past := findClosest series (date latest) w in
  latestAtOrBefore series target past
  /\ (forall p, past = Some p ->
        exists l1 l2, series = l1 ++ p :: l2
                      /\ forall q, In q l2 -> dateLe (date q) target = false)
  /\ exists r,
       calculateTrailingReturns series = Returned r
       /\ mapGet label r
          = Some match past with
                 | Some p => Some (nsub (ndiv (nav latest) (nav p)) (ofZ 1))
                 | None => None
                 end.
Proof.
  intros Hsorted Hlast Hin target past.
  change (In (label, w) lookbackPeriods) in Hin.
  split; [| split].
  - unfold past, findClosest. rewrite setDateBack_spec. fold target.
    pose proof (find_rev (fun p => dateLe (date p) target) series) as H.
    destruct (find (fun p => dateLe (date p) target) (rev series)) as [p |];
      [| exact H].
    destruct H as (l1 & l2 & -> & Hp & Hl2). repeat split.
    + apply in_elt.
    + exact Hp.
    + intros q Hq Hle. apply in_app_or in Hq as [Hq | [<- | Hq]].
      * pose proof (sorted_before l1 l2 p Hsorted q Hq). lia.
      * lia.
      * rewrite (Hl2 q Hq) in Hle. discriminate.
  - intros p Hp. unfold past, findClosest in Hp.
    rewrite setDateBack_spec in Hp. fold target in Hp.
    pose proof (find_rev (fun p => dateLe (date p) target) series) as H.
    rewrite Hp in H. destruct H as (l1 & l2 & -> & _ & Hl2). eauto.
  - destruct (trailing_returns series latest Hlast) as (r & Hr).
    exists r. split; [exact Hr |].
    exact (trailing_lookup series latest label w r Hlast Hin Hr).
Qed.

Lemma calculateYTD_one (p : point) :
  calculateYTD [p]
  = Returned (if dateGe (date p) (Date_of_fields (getFullYear (date p)) 0 1 0 0 0)
              then Some (nsub (ndiv (nav p) (nav p)) (ofZ 1))
              else None).
Proof.
  unfold calculateYTD, lastPoint. cbn [map last find].
  destruct (dateGe (date p) (Date_of_fields (getFullYear (date p)) 0 1 0 0 0));
    reflexivity.
Qed.

(** C3, as amended. On the empty series [calculateTrailingReturns] returns
    without throwing and reports every analytic as unavailable.  On a series
    of one point it returns too: it reports each trailing window as
    unavailable, given that moving its date back by the window lands before
    it; it reports SI as value/value - 1, DD and Max DD as the drawdown of
    the point over 100, and YTD as value/value - 1 when the point is not
    before the start of its year. *)
Theorem analytics_of_degenerate_series :
  (calculateTrailingReturns [] = Returned []
   /\ forall label, unavailable [] label)
  /\ forall p,
       (forall label w, In (label, w) lookbackPeriods ->
                        UTC (LocalTime (date p) - w * msPerDay) < date p) ->
       exists r,
         calculateTrailingReturns [p] = Returned r
         /\ (forall label w, In (label, w) lookbackPeriods ->
                             mapGet label r = Some None /\ unavailable r label)
         /\ mapGet "SI" r = Some (Some (nsub (ndiv (nav p) (nav p)) (ofZ 1)))
         /\ mapGet "DD" r = Some (Some (ndiv (drawdown p) (ofZ 100)))
         /\ mapGet "Max DD" r = Some (Some (ndiv (drawdown p) (ofZ 100)))
         /\ mapGet "YTD" r
            = Some (if dateGe (date p)
                              (Date_of_fields (getFullYear (date p)) 0 1 0 0 0)
                    then Some (nsub (ndiv (nav p) (nav p)) (ofZ 1))
                    else None).
Proof.
  split; [split; [reflexivity | intros label; exact I] |].
  intros p Hback.
  destruct (trailing_returns [p] p eq_refl) as (r & Hr).
  exists r. split; [exact Hr |].
  destruct (trailing_fixed [p] p p r eq_refl eq_refl Hr)
    as (Hsi & Hdd & Hmdd & ytd & Hytd & Hget).
  split; [| repeat split].
  - intros label w Hin.
    assert (Hl : mapGet label r = Some None).
    { rewrite (trailing_lookup [p] p label w r eq_refl Hin Hr).
      unfold findClosest. rewrite setDateBack_spec. simpl.
      specialize (Hback label w Hin). unfold TimeClip.
      destruct (Z.abs (UTC (LocalTime (date p) - w * msPerDay))
                <=? 8640000000000000); simpl; [| reflexivity].
      destruct (date p <=? UTC (LocalTime (date p) - w * msPerDay)) eqn:E;
        [| reflexivity].
      apply Z.leb_le in E. lia. }
    split; [exact Hl |]. unfold unavailable. now rewrite Hl.
  - exact Hsi.
  - exact Hdd.
  - rewrite Hmdd. cbn [map]. now rewrite Math_min_single.
  - rewrite Hget. rewrite calculateYTD_one in Hytd.
    apply Returned_inj in Hytd. now rewrite Hytd.
Qed.

End TrailingClaims.

(** ** Column inference *)

Lemma sortBy_nil {A : Type} (cmp : A -> A -> Z) (l : list A) :
  sortBy cmp l = [] -> l = [].
Proof.
  intros H. pose proof (sortBy_perm cmp l) as Hp. rewrite H in Hp.
  now apply Permutation_nil.
Qed.

(** Sorting by descending count puts the first of the highest count in
    front: the sort is stable. *)
Lemma sortBy_desc_head (cnt : score -> Z) (l : list score) (h : score)
      (t : list score) :
  sortBy (fun a b => cnt b - cnt a) l = h :: t -> firstOfMax cnt l h.
Proof.
  revert h t. induction l as [| x l IH]; intros h t H; simpl in H;
    [discriminate |].
  destruct (sortBy (fun a b => cnt b - cnt a) l) as [| h0 t0] eqn:Hs.
  - apply sortBy_nil in Hs. subst l. simpl in H. injection H as <- <-.
    exists [], []. repeat split; intros y [].
  - specialize (IH h0 t0 eq_refl) as (l1 & l2 & -> & Hl1 & Hl2).
    simpl in H. destruct (cnt h0 - cnt x <=? 0) eqn:E.
    + apply Z.leb_le in E. injection H as <- <-.
      exists [], (l1 ++ h0 :: l2). repeat split; [intros y [] |].
      intros y Hy. apply in_app_or in Hy as [Hy | [<- | Hy]].
      * specialize (Hl1 y Hy). lia.
      * lia.
      * specialize (Hl2 y Hy). lia.
    + apply Z.leb_gt in E. injection H as <- <-.
      exists (x :: l1), l2. repeat split; [| exact Hl2].
      intros y [<- | Hy]; [lia | now apply Hl1].
Qed.

Lemma firstOfMax_unique (cnt : score -> Z) (l : list score) (a b : score) :
  firstOfMax cnt l a -> firstOfMax cnt l b -> a = b.
Proof.
  intros (l1 & l2 & -> & Ha1 & Ha2) (l1' & l2' & Heq & Hb1 & Hb2).
  assert (Hcmp : a = b \/ (cnt b < cnt a /\ cnt a <= cnt b)
                 \/ (cnt a < cnt b /\ cnt b <= cnt a)).
  { apply app_eq_app in Heq as (l & [[-> Hl] | [-> Hl]]);
      (destruct l as [| c l]; simpl in Hl; [left; congruence | right]).
    - injection Hl as Hc Hl. subst c l2'. left. split.
      + apply Ha1, in_elt.
      + apply Hb2, in_elt.
    - injection Hl as Hc Hl. subst c l2. right. split.
      + apply Hb1, in_elt.
      + apply Ha2, in_elt. }
  destruct Hcmp as [H | [H | H]]; [exact H | lia | lia].
Qed.

Lemma filter_split {A : Type} (f : A -> bool) (l p1 p2 : list A) (h : A) :
  filter f l = p1 ++ h :: p2 ->
  exists l1 l2, l = l1 ++ h :: l2 /\ filter f l1 = p1 /\ filter f l2 = p2.
Proof.
  revert p1. induction l as [| x l IH]; intros p1 H; simpl in H.
  - now destruct p1.
  - destruct (f x) eqn:Ex.
    + destruct p1 as [| y p1]; simpl in H; injection H as -> H.
      * exists [], l. auto.
      * destruct (IH p1 H) as (l1 & l2 & -> & H1 & H2).
        exists (y :: l1), l2. simpl. rewrite Ex, H1. auto.
    + destruct (IH p1 H) as (l1 & l2 & -> & H1 & H2).
      exists (x :: l1), l2. simpl. rewrite Ex. auto.
Qed.

(** The first of the highest count among the columns that reach the
    threshold is the first of the highest count of all. *)
Lemma firstOfMax_passing (cnt : score -> Z) (thr : Z) (l : list score)
      (h : score) :
  firstOfMax cnt (filter (fun s => thr <=? cnt s) l) h -> firstOfMax cnt l h.
Proof.
  intros (p1 & p2 & Hf & H1 & H2).
  assert (Hh : thr <= cnt h).
  { assert (Hin : In h (filter (fun s => thr <=? cnt s) l))
      by (rewrite Hf; apply in_elt).
    apply filter_In in Hin as [_ Hin]. now apply Z.leb_le. }
  destruct (filter_split _ l p1 p2 h Hf) as (l1 & l2 & -> & <- & <-).
  exists l1, l2. repeat split.
  - intros x Hx. destruct (thr <=? cnt x) eqn:E.
    + apply H1, filter_In. auto.
    + apply Z.leb_gt in E. lia.
  - intros x Hx. destruct (thr <=? cnt x) eqn:E.
    + apply H2, filter_In. auto.
    + apply Z.leb_gt in E. lia.
Qed.

Lemma chooseKey_selects (cnt : score -> Z) (thr : Z) (scores : list score) :
  1 <= thr -> (forall s, In s scores -> 0 <= cnt s) ->
  selects cnt thr scores (chooseKey cnt thr scores).
Proof.
  intros Hthr Hnn. unfold selects, chooseKey. cbv zeta.
  set (passing := filter (fun s => thr <=? cnt s) scores).
  destruct (sortBy (fun a b => cnt b - cnt a) passing) as [| h t] eqn:Hc.
  - apply sortBy_nil in Hc. right. simpl.
    destruct (sortBy (fun a b => cnt b - cnt a) scores) as [| best t] eqn:Hb.
    + apply sortBy_nil in Hb. right. rewrite Hb. repeat split; auto.
      intros s [].
    + apply sortBy_desc_head in Hb. destruct (0 <? cnt best) eqn:E.
      * apply Z.ltb_lt in E. left. split; [exact Hc |]. exists best. auto.
      * apply Z.ltb_ge in E. right. repeat split; auto.
        intros s Hs. specialize (Hnn s Hs).
        destruct Hb as (l1 & l2 & Hl & H1 & H2). rewrite Hl in Hs.
        apply in_app_or in Hs as [Hs | [<- | Hs]].
        -- specialize (H1 s Hs). lia.
        -- lia.
        -- specialize (H2 s Hs). lia.
  - apply sortBy_desc_head in Hc. left. exists h. split; [exact Hc |].
    simpl firstKey. destruct (falsy (Some (key h))); [| reflexivity].
    pose proof (firstOfMax_passing cnt thr scores h Hc) as Hall.
    destruct (sortBy (fun a b => cnt b - cnt a) scores) as [| best t'] eqn:Hb;
      [reflexivity |].
    apply sortBy_desc_head in Hb.
    rewrite (firstOfMax_unique cnt scores best h Hb Hall).
    destruct (0 <? cnt h); reflexivity.
Qed.

Section DetectClaims.

Context {host : Host}.

(** The counts of a column: the sampled cells that are date-like, and those
    that are numeric-like. *)
Lemma scoreKey_counts (sample : list row) (k : string) :
  key (scoreKey sample k) = k
  /\ dateCount (scoreKey sample k)
     = Z.of_nat (List.length (filter (fun r => isDateLike (getCell r k)) sample))
  /\ numCount (scoreKey sample k)
     = Z.of_nat (List.length (filter (fun r => isNumericLike (getCell r k)) sample)).
Proof.
  unfold scoreKey.
  assert (H : forall dc nc,
    fold_left
      (fun '(dc, nc) r =>
         let v := getCell r k in
         (if isDateLike v then dc + 1 else dc,
          if isNumericLike v then nc + 1 else nc)) sample (dc, nc)
    = (dc + Z.of_nat (List.length (filter (fun r => isDateLike (getCell r k)) sample)),
       nc + Z.of_nat (List.length (filter (fun r => isNumericLike (getCell r k)) sample)))).
  { induction sample as [| r sample IH]; intros dc nc; simpl.
    - now rewrite !Z.add_0_r.
    - rewrite IH.
      destruct (isDateLike (getCell r k)), (isNumericLike (getCell r k));
        simpl List.length; f_equal; lia. }
  rewrite H. simpl. auto.
Qed.

(** C7. On no row both selections are absent.  Otherwise the first
    [min(50, rowCount)] rows are sampled over the keys of the first row,
    the score of each column carries the column's own key with the counts
    of its date-like and of its numeric-like sampled cells, the threshold is
    the ceiling of 0.6 times the sample size, and the date column and the
    value column are each selected, by their own count, as the specification
    says: the key of the first score of the highest count among those at the
    threshold, else the key of the first score of the highest count when
    that is above zero, else none. *)
Theorem detectColumns_selection (rows : list row) :
  match rows with
  | [] => detectColumns rows = {| dateKey := None; navKey := None |}
  | first :: _ =>
      let n := Z.min (Z.of_nat (List.length rows)) 50 in
      let sample := firstn (Z.to_nat n) rows in
      let scores := map (scoreKey sample) (map fst first) in
      (forall k,
          key (scoreKey sample k) = k
          /\ dateCount (scoreKey sample k)
             = Z.of_nat (List.length
                           (filter (fun r => isDateLike (getCell r k)) sample))
          /\ numCount (scoreKey sample k)
             = Z.of_nat (List.length
                           (filter (fun r => isNumericLike (getCell r k)) sample)))
      /\ 5 * (threshold n - 1) < 3 * n <= 5 * threshold n
      /\ selects dateCount (threshold n) scores (dateKey (detectColumns rows))
      /\ selects numCount (threshold n) scores (navKey (detectColumns rows))
  end.
Proof.
  destruct rows as [| first rest]; [reflexivity |].
  cbv zeta.
  set (n := Z.min (Z.of_nat (List.length (first :: rest))) 50).
  set (sample := firstn (Z.to_nat n) (first :: rest)).
  assert (Hn : 1 <= n) by (unfold n; simpl List.length; lia).
  assert (Hthr : 5 * (threshold n - 1) < 3 * n <= 5 * threshold n)
    by (unfold threshold; Z.div_mod_to_equations; lia).
  assert (Hnn : forall cnt,
             (forall k, 0 <= cnt (scoreKey sample k)) ->
             forall s, In s (map (scoreKey sample) (map fst first)) -> 0 <= cnt s).
  { intros cnt Hc s Hs. apply in_map_iff in Hs as (k & <- & _). apply Hc. }
  split; [| split; [exact Hthr | split]].
  - intros k. apply scoreKey_counts.
  - apply chooseKey_selects; [lia |]. apply Hnn. intros k.
    rewrite (proj1 (proj2 (scoreKey_counts sample k))). lia.
  - apply chooseKey_selects; [lia |]. apply Hnn. intros k.
    rewrite (proj2 (proj2 (scoreKey_counts sample k))). lia.
Qed.

End DetectClaims.

Lemma trailing_return_of_window_witness :
  exists r,
    calculateTrailingReturns seriesA = Returned r
    /\ mapGet "1M" r = Some (Some (nsub (ndiv (ofZ 99) (ofZ 100)) (ofZ 1))).
Proof.
  assert (Hs : StronglySorted (fun p q => date p < date q) seriesA).
  { vm_compute. repeat constructor. }
  assert (Hl : lastPoint seriesA
               = Some {| date := mar1; dateLabel := "2023-03-01"; nav := ofZ 99;
                         equity := ofZ 99; drawdown := ofZ (-10) |})
    by (vm_compute; reflexivity).
  assert (Hin : In ("1M", 30)
                   [("1D", 1); ("1W", 7); ("1M", 30); ("3M", 90); ("6M", 180);
                    ("1Y", 365); ("3Y", 1095); ("5Y", 1825)])
    by (simpl; tauto).
  destruct (trailing_return_of_window seriesA _ "1M" 30 Hs Hl Hin)
    as (_ & _ & r & Hr & H).
  exists r. split; [exact Hr |]. rewrite H. vm_compute. reflexivity.
Defined.

(** A series of one point reports SI, YTD, DD and Max DD as the number 0,
    not as unavailable. *)
Lemma one_point_series_reports_numbers :
  List.length seriesOne = 1%nat
  /\ calculateTrailingReturns seriesOne
     = Returned [("YTD", Some (ofZ 0)); ("1D", None); ("1W", None);
                 ("1M", None); ("3M", None); ("6M", None); ("1Y", None);
                 ("3Y", None); ("5Y", None); ("SI", Some (ofZ 0));
                 ("DD", Some (ofZ 0)); ("Max DD", Some (ofZ 0))]
  /\ ~ unavailable [("YTD", Some (ofZ 0)); ("1D", None); ("1W", None);
                    ("1M", None); ("3M", None); ("6M", None); ("1Y", None);
                    ("3Y", None); ("5Y", None); ("SI", Some (ofZ 0));
                    ("DD", Some (ofZ 0)); ("Max DD", Some (ofZ 0))] "SI".
Proof.
  split; [vm_compute; reflexivity |]. split; [vm_compute; reflexivity |].
  intros H. vm_compute in H. exact H.
Qed.

Lemma analytics_of_degenerate_series_witness :
  forallb (fun '(label, _) =>
             match calculateTrailingReturns seriesOne with
             | Returned r =>
                 match mapGet label r with
                 | Some None => true
                 | _ => false
                 end
             | Thrown => false
             end) lookbackPeriods = true.
Proof.
  apply forallb_forall. intros [label w] Hin.
  destruct (proj2 analytics_of_degenerate_series
                  {| date := jan1; dateLabel := "2023-01-01"; nav := ofZ 100;
                     equity := ofZ 100; drawdown := ofZ 0 |}) as (r & Hr & H & _).
  - intros l d Hd. simpl in Hd.
    repeat (destruct Hd as [Hd | Hd]; [injection Hd as <- <-; reflexivity |]).
    contradiction.
  - destruct (H label w Hin) as [Hget _].
    assert (Hs : seriesOne
                 = [{| date := jan1; dateLabel := "2023-01-01"; nav := ofZ 100;
                       equity := ofZ 100; drawdown := ofZ 0 |}])
      by (vm_compute; reflexivity).
    rewrite Hs, Hr. now rewrite Hget.
Defined.

(** ** The monthly grid before year 0 *)

(** C6, at the failing input. Two kept rows of June and July of the year
    -17: the keys "-17-06" and "-17-07" split at their leading minus sign,
    both rows are read as month 17 of year 0, and the table has one row, of
    year 0, without any return. *)
Lemma monthlyReturns_before_year_zero :
  map (fun p => (getFullYear (date p), getMonth (date p) + 1, nav p))
      seriesAncient
  = [(-17, 6, ofZ 10); (-17, 7, ofZ 11)]
  /\ monthRows seriesAncient
     = [{| year := 0; month := 17; mnav := ofZ 10; ret := None |};
        {| year := 0; month := 17; mnav := ofZ 11; ret := None |}]
  /\ fst (monthlyReturns seriesAncient)
     = [{| Year := 0; cells := map (fun name => (name, None)) months;
           YTD := None |}].
Proof. vm_compute. repeat split. Qed.

(** ** Integers as text *)

Lemma digitVal_digitChar (d : Z) : 0 <= d <= 9 -> digitVal (digitChar d) = d.
Proof.
  intros H. assert (Hd : d = 0 \/ d = 1 \/ d = 2 \/ d = 3 \/ d = 4 \/ d = 5
                         \/ d = 6 \/ d = 7 \/ d = 8 \/ d = 9) by lia.
  repeat (destruct Hd as [-> | Hd]; [reflexivity |]). now subst.
Qed.

Lemma isDigit_digitChar (d : Z) : 0 <= d <= 9 -> isDigit (digitChar d) = true.
Proof.
  intros H. assert (Hd : d = 0 \/ d = 1 \/ d = 2 \/ d = 3 \/ d = 4 \/ d = 5
                         \/ d = 6 \/ d = 7 \/ d = 8 \/ d = 9) by lia.
  repeat (destruct Hd as [-> | Hd]; [reflexivity |]). now subst.
Qed.

Lemma allDigits_app (a b : string) :
  allDigits (a ++ b) = allDigits a && allDigits b.
Proof.
  induction a as [| c a IH]; simpl; [reflexivity |].
  now rewrite IH, andb_assoc.
Qed.

Lemma digitsValAcc_app (a b : string) (acc : Z) :
  digitsValAcc acc (a ++ b) = digitsValAcc (digitsValAcc acc a) b.
Proof. revert acc. induction a as [| c a IH]; intros acc; simpl; auto. Qed.

Lemma string_app_assoc (a b c : string) :
  ((a ++ b) ++ c = a ++ (b ++ c))%string.
Proof. induction a as [| x a IH]; simpl; [reflexivity | now rewrite IH]. Qed.

Lemma string_length_app (a b : string) :
  String.length (a ++ b) = (String.length a + String.length b)%nat.
Proof. induction a as [| x a IH]; simpl; [reflexivity | now rewrite IH]. Qed.

(** [digitsOf] writes the decimal digits of [n] in front of [acc]. *)
Lemma digitsOf_spec (fuel : nat) :
  forall n acc, 0 <= n < 2 ^ Z.of_nat (S fuel) ->
    exists ds, digitsOf (S fuel) n acc = (ds ++ acc)%string
               /\ ds <> EmptyString /\ allDigits ds = true
               /\ forall a, digitsValAcc a ds
                            = a * 10 ^ Z.of_nat (String.length ds) + n.
Proof.
  assert (Hone : forall n acc, 0 <= n < 10 ->
            exists ds, String (digitChar (n mod 10)) acc = (ds ++ acc)%string
               /\ ds <> EmptyString /\ allDigits ds = true
               /\ forall a, digitsValAcc a ds
                            = a * 10 ^ Z.of_nat (String.length ds) + n).
  { intros n acc Hn. exists (String (digitChar (n mod 10)) EmptyString).
    rewrite Z.mod_small by lia. repeat split.
    - discriminate.
    - simpl. rewrite isDigit_digitChar by lia. reflexivity.
    - intros a. simpl. rewrite digitVal_digitChar by lia. lia. }
  induction fuel as [| fuel IH]; intros n acc Hn.
  - cbn [digitsOf]. change (2 ^ Z.of_nat 1) with 2 in Hn.
    replace (n <? 10) with true by (symmetry; apply Z.ltb_lt; lia).
    apply Hone. lia.
  - remember (S fuel) as f eqn:Hf. cbn [digitsOf].
    assert (Hd : 0 <= n mod 10 <= 9) by (Z.div_mod_to_equations; lia).
    destruct (n <? 10) eqn:E.
    + apply Z.ltb_lt in E. apply Hone. lia.
    + apply Z.ltb_ge in E.
      assert (Hq : 0 <= n / 10 < 2 ^ Z.of_nat f).
      { rewrite Nat2Z.inj_succ, Z.pow_succ_r in Hn by lia.
        assert (0 < 2 ^ Z.of_nat f) by (apply Z.pow_pos_nonneg; lia).
        Z.div_mod_to_equations. lia. }
      subst f.
      destruct (IH (n / 10) (String (digitChar (n mod 10)) acc) Hq)
        as (ds & Heq & Hne & Hall & Hval).
      exists (ds ++ String (digitChar (n mod 10)) EmptyString)%string.
      repeat split.
      * rewrite Heq. now rewrite string_app_assoc.
      * destruct ds; [congruence | discriminate].
      * rewrite allDigits_app, Hall. simpl. now rewrite isDigit_digitChar.
      * intros a. rewrite digitsValAcc_app, Hval. simpl.
        rewrite digitVal_digitChar by exact Hd.
        rewrite string_length_app. simpl String.length.
        rewrite Nat2Z.inj_add. change (Z.of_nat 1) with 1.
        rewrite Z.pow_add_r by lia. Z.div_mod_to_equations. lia.
Qed.

Lemma string_app_nil (a : string) : (a ++ "")%string = a.
Proof. induction a as [| c a IH]; simpl; [reflexivity | now rewrite IH]. Qed.

Lemma String_of_nonneg_spec (n : Z) :
  0 <= n ->
  String_of_nonneg n <> EmptyString
  /\ allDigits (String_of_nonneg n) = true
  /\ digitsVal (String_of_nonneg n) = n.
Proof.
  intros Hn. unfold String_of_nonneg.
  assert (Hf : 0 <= n < 2 ^ Z.of_nat (S (Z.to_nat (Z.log2 n)))).
  { split; [exact Hn |]. rewrite Nat2Z.inj_succ, Z2Nat.id by apply Z.log2_nonneg.
    destruct (Z.eq_dec n 0) as [-> | Hz]; [reflexivity |].
    apply Z.log2_spec. lia. }
  destruct (digitsOf_spec _ n EmptyString Hf) as (ds & Heq & Hne & Hall & Hval).
  rewrite Heq.
  rewrite string_app_nil. repeat split; auto.
  unfold digitsVal. rewrite Hval. lia.
Qed.

Ltac digit_cases c H :=
  destruct c as [[] [] [] [] [] [] [] []]; try discriminate H.

Lemma takeDigits_all (ds : string) :
  allDigits ds = true -> takeDigits ds = (ds, EmptyString).
Proof.
  induction ds as [| c ds IH]; simpl; [reflexivity |].
  intros H. apply andb_true_iff in H as [Hc Hds].
  now rewrite Hc, (IH Hds).
Qed.

Lemma trim_digits (ds : string) : allDigits ds = true -> trim ds = ds.
Proof.
  intros H. unfold trim.
  assert (Hs : trimStart ds = ds).
  { destruct ds as [| c ds]; [reflexivity |]. simpl in *.
    apply andb_true_iff in H as [Hc _]. digit_cases c Hc; reflexivity. }
  rewrite Hs. clear Hs.
  induction ds as [| c ds IH]; [reflexivity |]. simpl in *.
  apply andb_true_iff in H as [Hc Hds]. rewrite (IH Hds).
  destruct ds; [| reflexivity].
  digit_cases c Hc; reflexivity.
Qed.

Lemma scanRadix_digits (ds : string) : allDigits ds = true -> scanRadix ds = None.
Proof.
  destruct ds as [| c0 [| c1 [| c2 r]]]; simpl; intros H.
  - reflexivity.
  - apply andb_true_iff in H as [H0 _]. digit_cases c0 H0; reflexivity.
  - apply andb_true_iff in H as [H0 _]. digit_cases c0 H0; reflexivity.
  - apply andb_true_iff in H as [H0 H]. apply andb_true_iff in H as [H1 _].
    digit_cases c0 H0; try reflexivity.
    digit_cases c1 H1; reflexivity.
Qed.

Lemma scanDecimal_digits (ds : string) :
  ds <> EmptyString -> allDigits ds = true ->
  scanDecimal ds
  = Some (ofLiteral (inject_Z (digitsVal ds * 10 ^ 0)), EmptyString).
Proof.
  intros Hne H.
  assert (Hu : scanUnsigned ds
               = Some (Some (inject_Z (digitsVal ds * 10 ^ 0)), EmptyString)).
  { unfold scanUnsigned.
    assert (Hp : prefix "Infinity" ds = false).
    { destruct ds as [| c ds]; [congruence |]. simpl in H.
      apply andb_true_iff in H as [Hc _]. digit_cases c Hc; reflexivity. }
    rewrite Hp, (takeDigits_all ds H).
    destruct ds as [| c ds]; [congruence |]. cbn [isEmpty andb orb takeExponent].
    now rewrite string_app_nil. }
  unfold scanDecimal.
  destruct ds as [| c ds]; [congruence |].
  assert (Hc : isDigit c = true) by (simpl in H; now apply andb_true_iff in H).
  digit_cases c Hc; now rewrite Hu.
Qed.

(** A natural number below [2^53] is read as itself. *)
Lemma ofLiteral_int (v : Z) :
  0 <= v < 2 ^ 53 -> exists q, ofLiteral (inject_Z v) = Fin q /\ Qfloor q = v.
Proof.
  intros Hv. exists (inject_Z v). split; [| apply Qfloor_Z].
  apply ofZ_exact. lia.
Qed.

Lemma Number_int_digits (ds : string) :
  ds <> EmptyString -> allDigits ds = true -> 0 <= digitsVal ds < 2 ^ 53 ->
  Number_int ds = digitsVal ds.
Proof.
  intros Hne Hall Hv. unfold Number_int, Number_of_string.
  rewrite (trim_digits ds Hall).
  replace (isEmpty ds) with false by (destruct ds; [congruence | reflexivity]).
  rewrite (scanRadix_digits ds Hall), (scanDecimal_digits ds Hne Hall).
  change (10 ^ 0) with 1. rewrite Z.mul_1_r.
  destruct (ofLiteral_int (digitsVal ds) Hv) as (q & -> & Hq). exact Hq.
Qed.

Lemma Number_int_String (n : Z) :
  0 <= n < 2 ^ 53 -> Number_int (String_of_nonneg n) = n.
Proof.
  intros Hn. destruct (String_of_nonneg_spec n (proj1 Hn)) as (Hne & Hall & Hval).
  rewrite Number_int_digits; auto. now rewrite Hval.
Qed.

(** ** Day keys *)

Lemma civil_from_days_day (z : Z) :
  let '(y, m, d) := civil_from_days z in 1 <= d <= 31.
Proof.
  unfold civil_from_days. cbv zeta.
  set (z0 := z + 719468).
  set (era := z0 / 146097).
  set (doe := z0 - era * 146097).
  assert (Hdoe : 0 <= doe <= 146096)
    by (unfold doe, era; Z.div_mod_to_equations; lia).
  pose proof (yoe_bounds doe Hdoe) as Hy. cbv zeta in Hy.
  set (yoe := (doe - doe / 1460 + doe / 36524 - doe / 146096) / 365) in *.
  set (doy := doe - (365 * yoe + yoe / 4 - yoe / 100)) in *.
  destruct Hy as [_ Hdoy]. clearbody doy.
  Z.div_mod_to_equations. lia.
Qed.

Lemma digitsOf_length (k : nat) :
  forall fuel n acc,
    0 <= n < 10 ^ Z.of_nat (S k) ->
    (String.length (digitsOf fuel n acc) <= S k + String.length acc)%nat.
Proof.
  induction k as [| k IH]; intros fuel n acc Hn.
  - destruct fuel as [| fuel]; simpl; [lia |].
    replace (n <? 10) with true by (symmetry; apply Z.ltb_lt; simpl in Hn; lia).
    simpl. lia.
  - destruct fuel as [| fuel]; [simpl; lia |].
    cbn [digitsOf]. destruct (n <? 10) eqn:E; [simpl; lia |].
    apply Z.ltb_ge in E.
    assert (Hq : 0 <= n / 10 < 10 ^ Z.of_nat (S k)).
    { rewrite Nat2Z.inj_succ, Z.pow_succ_r in Hn by lia.
      split; [apply Z.div_pos; lia |].
      apply Z.div_lt_upper_bound; lia. }
    specialize (IH fuel (n / 10) (String (digitChar (n mod 10)) acc) Hq).
    cbn [String.length] in IH. lia.
Qed.

Lemma String_of_nonneg_length (w : nat) (n : Z) :
  0 <= n < 10 ^ Z.of_nat (S w) -> (String.length (String_of_nonneg n) <= S w)%nat.
Proof.
  intros Hn. unfold String_of_nonneg.
  pose proof (digitsOf_length w (S (Z.to_nat (Z.log2 n))) n EmptyString Hn) as H.
  cbn [String.length] in H. lia.
Qed.

Lemma zeros_length (k : nat) : String.length (zeros k) = k.
Proof. induction k; simpl; congruence. Qed.

Lemma zeros_digits (k : nat) (ds : string) :
  allDigits ds = true -> allDigits (zeros k ++ ds) = true.
Proof. intros H. induction k; simpl; auto. Qed.

Lemma zeros_value (k : nat) (ds : string) :
  digitsVal (zeros k ++ ds) = digitsVal ds.
Proof. unfold digitsVal. induction k; simpl; auto. Qed.

(** The text of a number padded to [S w] digits. *)
Lemma padded_digits (w : nat) (n : Z) :
  0 <= n < 10 ^ Z.of_nat (S w) ->
  String.length (padStart0 (S w) (String_of_nonneg n)) = S w
  /\ allDigits (padStart0 (S w) (String_of_nonneg n)) = true
  /\ digitsVal (padStart0 (S w) (String_of_nonneg n)) = n.
Proof.
  intros Hn. pose proof (String_of_nonneg_length w n Hn) as Hl.
  destruct (String_of_nonneg_spec n (proj1 Hn)) as (_ & Hall & Hval).
  unfold padStart0. repeat split.
  - rewrite string_length_app, zeros_length. lia.
  - now apply zeros_digits.
  - now rewrite zeros_value.
Qed.

Lemma append_inj_length (a a' b b' : string) :
  String.length a = String.length a' ->
  (a ++ b)%string = (a' ++ b')%string -> a = a' /\ b = b'.
Proof.
  revert a'. induction a as [| c a IH]; intros [| c' a'] Hl H;
    simpl in *; try discriminate; auto.
  injection H as -> H. injection Hl as Hl.
  destruct (IH a' Hl H) as [-> ->]. auto.
Qed.

Lemma substring_full (s : string) : substring 0 (String.length s) s = s.
Proof. induction s as [| c s IH]; simpl; congruence. Qed.

(** The day key of a date in the years 0 to 9999: ten characters, the
    digits of year, month and day. *)
Lemma isoKey_in_range (t : Z) :
  0 <= getUTCFullYear t <= 9999 ->
  exists Y M D,
    isoKey t = (Y ++ String "-" (M ++ String "-" D))%string
    /\ String.length Y = 4%nat /\ String.length M = 2%nat
    /\ String.length D = 2%nat
    /\ allDigits Y = true
    /\ (digitsVal Y, digitsVal M, digitsVal D) = civil_from_days (Day t).
Proof.
  unfold getUTCFullYear, isoKey, isoDate.
  pose proof (civil_from_days_spec (Day t)) as Hm.
  pose proof (civil_from_days_day (Day t)) as Hd.
  destruct (civil_from_days (Day t)) as [[y m] d]. destruct Hm as [Hm _].
  intros Hy. unfold isoYear.
  replace ((0 <=? y) && (y <=? 9999)) with true
    by (symmetry; apply andb_true_iff; split; apply Z.leb_le; lia).
  destruct (padded_digits 3 y) as (Hly & Hay & Hvy);
    [change (10 ^ Z.of_nat 4) with 10000; lia |].
  destruct (padded_digits 1 m) as (Hlm & Ham & Hvm);
    [change (10 ^ Z.of_nat 2) with 100; lia |].
  destruct (padded_digits 1 d) as (Hld & Had & Hvd);
    [change (10 ^ Z.of_nat 2) with 100; lia |].
  exists (padStart0 4 (String_of_nonneg y)), (padStart0 2 (String_of_nonneg m)),
         (padStart0 2 (String_of_nonneg d)).
  repeat split; auto; [| congruence].
  set (Y := padStart0 4 (String_of_nonneg y)) in *.
  set (M := padStart0 2 (String_of_nonneg m)) in *.
  set (D := padStart0 2 (String_of_nonneg d)) in *.
  change (Y ++ "-" ++ M ++ "-" ++ D)%string
    with (Y ++ String "-" (M ++ String "-" D))%string.
  replace 10%nat
    with (String.length (Y ++ String "-" (M ++ String "-" D))%string).
  - apply substring_full.
  - rewrite string_length_app. simpl String.length.
    rewrite string_length_app. simpl String.length. lia.
Qed.

(** A date of a year outside 0 to 9999 has a key that starts with a sign. *)
Lemma isoKey_out_of_range (t : Z) :
  ~ 0 <= getUTCFullYear t <= 9999 ->
  exists c rest, isoKey t = String c rest /\ isDigit c = false.
Proof.
  unfold getUTCFullYear, isoKey, isoDate.
  destruct (civil_from_days (Day t)) as [[y m] d]. intros Hy. unfold isoYear.
  replace ((0 <=? y) && (y <=? 9999)) with false.
  - destruct (y <? 0); simpl; eauto.
  - symmetry. apply andb_false_iff.
    destruct (Z.le_gt_cases 0 y); [right | left];
      [apply Z.leb_gt | apply Z.leb_gt]; lia.
Qed.

(** In the years 0 to 9999 the key of [toISOString().slice(0, 10)] is the
    day. *)
Lemma isoKey_day (a b : Z) :
  0 <= getUTCFullYear a <= 9999 -> isoKey a = isoKey b -> Day a = Day b.
Proof.
  intros Ha Heq.
  destruct (isoKey_in_range a Ha) as (Y & M & D & Hk & HlY & HlM & HlD & HaY & Hv).
  assert (Hb : 0 <= getUTCFullYear b <= 9999).
  { destruct (Z_le_dec 0 (getUTCFullYear b)) as [H0 |];
      [destruct (Z_le_dec (getUTCFullYear b) 9999) as [H1 |] |]; [lia | |];
      (exfalso;
       destruct (isoKey_out_of_range b) as (c & rest & Hkb & Hc); [lia |];
       rewrite Hk, Hkb in Heq;
       destruct Y as [| c0 Y]; [discriminate |];
       simpl in Heq, HaY; injection Heq as -> _;
       apply andb_true_iff in HaY as [HaY _]; congruence). }
  destruct (isoKey_in_range b Hb)
    as (Y' & M' & D' & Hk' & HlY' & HlM' & HlD' & _ & Hv').
  rewrite Hk, Hk' in Heq.
  apply append_inj_length in Heq as [-> Heq]; [| congruence].
  injection Heq as Heq.
  apply append_inj_length in Heq as [-> Heq]; [| congruence].
  injection Heq as ->.
  rewrite Hv in Hv'.
  pose proof (civil_from_days_spec (Day a)) as Sa.
  pose proof (civil_from_days_spec (Day b)) as Sb.
  rewrite <- Hv' in Sb.
  destruct (civil_from_days (Day a)) as [[y m] d].
  destruct Sa as [_ Sa], Sb as [_ Sb]. congruence.
Qed.

(** ** The built series: one point per day *)

Section DayClaims.

Context {host : Host}.

Variables dateKey navKey : string.

(** X18. The series [toSeries] returns is strictly ascending by date and holds
    no two points of one UTC day.  Every point carries the date and the
    value of a kept row after which no kept row of the same UTC day follows.
    A kept row is represented by the point under its key, and when the date
    of the row lies in the UTC years 0 to 9999 that point is of the row's
    own UTC day: among the kept rows of one such day the last in row order
    gives the point of the day. *)
Theorem toSeries_one_point_per_day (rows : list row) :
  let s := toSeries rows (Some dateKey) (Some navKey) in
  StronglySorted (fun p q => date p < date q) s
  /\ NoDup (map (fun p => Day (date p)) s)
  /\ (forall p, In p s ->
        exists l1 r l2,
          rows = l1 ++ r :: l2
          /\ keptAs dateKey navKey r (date p) (nav p)
          /\ forall r' d' v', In r' l2 -> keptAs dateKey navKey r' d' v' ->
                              Day d' <> Day (date p))
  /\ (forall r d v,
        isEmpty dateKey = false -> isEmpty navKey = false ->
        In r rows -> keptAs dateKey navKey r d v ->
        exists p, In p s /\ isoKey (date p) = isoKey d
                  /\ (0 <= getUTCFullYear d <= 9999 -> Day (date p) = Day d)).
Proof.
  intros s. destruct (toSeries_records dateKey navKey rows) as [He | (Hne & Hdk & Hnk & Hrec)];
    fold s in He || fold s in Hrec.
  - rewrite He. repeat split; try constructor; try contradiction.
    intros r d v Hdk Hnk Hr Hk. exfalso.
    unfold s, toSeries in He. destruct rows as [| r0 rows0]; [contradiction |].
    rewrite Hdk, Hnk in He. cbn [orb] in He. rewrite walk0_out in He.
    destruct (cleanRecords_present dateKey navKey (r0 :: rows0) r d v Hr Hk)
      as (c & Hc & _).
    assert (Hlen : List.length (pushedFrom walk0 (cleanRecords (r0 :: rows0) dateKey navKey))
                   = List.length (cleanRecords (r0 :: rows0) dateKey navKey)).
    { rewrite <- (recOf_pushedFrom (cleanRecords (r0 :: rows0) dateKey navKey) walk0)
        at 2. now rewrite length_map. }
    rewrite He in Hlen. destruct (cleanRecords (r0 :: rows0) dateKey navKey);
      [contradiction | discriminate].
  - repeat split.
    + apply StronglySorted_unmap with (f := recOf)
                                      (R := fun a b => rc_date a < rc_date b).
      rewrite Hrec. apply cleanRecords_sorted.
    + replace (map (fun p => Day (date p)) s)
        with (map (fun c => Day (rc_date c)) (map recOf s))
        by now rewrite map_map.
      rewrite Hrec. apply cleanRecords_days.
    + intros p Hp.
      apply (cleanRecords_source dateKey navKey rows (recOf p)).
      rewrite <- Hrec. now apply in_map.
    + intros r d v _ _ Hr Hk.
      destruct (cleanRecords_present dateKey navKey rows r d v Hr Hk)
        as (c & Hc & Hkey).
      rewrite <- Hrec in Hc. apply in_map_iff in Hc as (p & <- & Hp).
      exists p. split; [exact Hp |]. split; [exact Hkey |].
      intros Hy. symmetry. apply isoKey_day; [exact Hy |]. symmetry. exact Hkey.
Qed.

End DayClaims.

(** C1, at the failing input.  Three kept rows dated by the serial numbers
    3000000, 3000000 and 3000001, which the day-count fallback of
    [coerceDate] takes to 19, 19 and 20 September 10113: the key
    [toISOString().slice(0, 10)] of all three is "+010113-09", the month, so
    the series is the single point of 20 September with the value of the
    third row, and 19 September has no point.  And on a clock five and a
    half hours ahead of UTC, two rows of 2 January 2024, at 02:00 and at
    10:00, give two points, keyed "2024-01-01" and "2024-01-02". *)
Theorem toSeries_days_beyond_year_9999_share_a_key :
  map (fun r => option_map (fun t => civil_from_days (Day t))
                           (coerceDate (getCell r "Date"))) rowsFarFuture
  = [Some (10113, 9, 19); Some (10113, 9, 19); Some (10113, 9, 20)]
  /\ map (keeps "Date" "NAV") rowsFarFuture = [true; true; true]
  /\ map (fun p => (civil_from_days (Day (date p)), dateLabel p, nav p))
         (toSeries rowsFarFuture (Some "Date") (Some "NAV"))
     = [((10113, 9, 20), "+010113-09", ofZ 3)]
  /\ map (fun p => (@getFullYear eastHost (date p), @getMonth eastHost (date p),
                    @getDate eastHost (date p), dateLabel p, nav p))
         (@toSeries eastHost rowsOneLocalDay (Some "Date") (Some "NAV"))
     = [(2024, 0, 2, "2024-01-01", ofZ 1); (2024, 0, 2, "2024-01-02", ofZ 2)].
Proof. vm_compute. repeat split. Qed.

(** ** Month keys *)

Lemma split_digits (ds rest : string) :
  allDigits ds = true ->
  split "-" (ds ++ String "-" rest) = ds :: split "-" rest.
Proof.
  induction ds as [| c ds IH]; simpl; intros H; [reflexivity |].
  apply andb_true_iff in H as [Hc Hds]. rewrite (IH Hds).
  digit_cases c Hc; reflexivity.
Qed.

Lemma month_cases (m : Z) :
  1 <= m <= 12 ->
  m = 1 \/ m = 2 \/ m = 3 \/ m = 4 \/ m = 5 \/ m = 6 \/ m = 7 \/ m = 8
  \/ m = 9 \/ m = 10 \/ m = 11 \/ m = 12.
Proof. lia. Qed.

(** The two digits of a month hold no minus sign and read as the month. *)
Lemma month_text (m : Z) :
  1 <= m <= 12 ->
  split "-" (padStart0 2 (String_of_int m)) = [padStart0 2 (String_of_int m)]
  /\ Number_int (padStart0 2 (String_of_int m)) = m.
Proof.
  intros H. apply month_cases in H.
  repeat (destruct H as [-> | H]; [split; reflexivity |]). subst. split; reflexivity.
Qed.

Lemma String_of_int_nonneg (y : Z) : 0 <= y -> String_of_int y = String_of_nonneg y.
Proof.
  intros H. unfold String_of_int.
  now replace (y <? 0) with false by (symmetry; apply Z.ltb_ge; lia).
Qed.

(** From year 0 on, the key of a month splits back into its year and its
    month. *)
Lemma monthKey_parse (y m : Z) :
  0 <= y < 2 ^ 53 -> 1 <= m <= 12 ->
  Number_int (nth 0 (split "-" (monthKey y m)) EmptyString) = y
  /\ Number_int (nth 1 (split "-" (monthKey y m)) EmptyString) = m.
Proof.
  intros Hy Hm. unfold monthKey.
  rewrite String_of_int_nonneg by lia.
  destruct (String_of_nonneg_spec y (proj1 Hy)) as (Hne & Hall & Hval).
  change (String_of_nonneg y ++ "-" ++ padStart0 2 (String_of_int m))%string
    with (String_of_nonneg y ++ String "-" (padStart0 2 (String_of_int m)))%string.
  rewrite (split_digits _ _ Hall).
  destruct (month_text m Hm) as [-> Hnum]. cbn [nth].
  split; [now apply Number_int_String | exact Hnum].
Qed.

Lemma monthKey_inj (y m y' m' : Z) :
  0 <= y < 2 ^ 53 -> 1 <= m <= 12 -> 0 <= y' < 2 ^ 53 -> 1 <= m' <= 12 ->
  monthKey y m = monthKey y' m' -> y = y' /\ m = m'.
Proof.
  intros Hy Hm Hy' Hm' Heq.
  destruct (monthKey_parse y m Hy Hm) as [H1 H2].
  destruct (monthKey_parse y' m' Hy' Hm') as [H1' H2'].
  rewrite Heq in H1, H2. split; congruence.
Qed.

(** No key of a year from 0 on starts with a minus sign. *)
Lemma monthKey_not_minus (y m : Z) (rest : string) :
  0 <= y -> monthKey y m <> String "-" rest.
Proof.
  intros Hy. unfold monthKey. rewrite String_of_int_nonneg by lia.
  destruct (String_of_nonneg_spec y Hy) as (Hne & Hall & _).
  destruct (String_of_nonneg y) as [| c ds]; [congruence |].
  simpl in Hall. apply andb_true_iff in Hall as [Hc _]. simpl.
  digit_cases c Hc; discriminate.
Qed.

Lemma prevKey_month (y m : Z) :
  1 <= m <= 12 ->
  prevKey y m = let '(py, pm) := prevMonth y m in
                (String_of_int py ++ "-" ++ padStart0 2 (String_of_int pm))%string.
Proof.
  intros Hm. unfold prevKey, prevMonth. destruct (1 <? m); reflexivity.
Qed.

(** ** The monthly grid from year 0 on *)

Lemma find_ext_in {A : Type} (f g : A -> bool) (l : list A) :
  (forall x, In x l -> f x = g x) -> find f l = find g l.
Proof.
  induction l as [| a l IH]; simpl; intros H; [reflexivity |].
  rewrite (H a (or_introl eq_refl)). destruct (g a); [reflexivity |].
  apply IH. intros x Hx. apply H. now right.
Qed.

Lemma distinct_spec (l : list Z) :
  NoDup (distinct l) /\ forall x, In x (distinct l) <-> In x l.
Proof.
  unfold distinct.
  assert (H : forall seen,
             NoDup seen ->
             NoDup (fold_left (fun seen y =>
                                 if existsb (Z.eqb y) seen then seen
                                 else seen ++ [y]) l seen)
             /\ forall x, In x (fold_left (fun seen y =>
                                 if existsb (Z.eqb y) seen then seen
                                 else seen ++ [y]) l seen)
                          <-> In x seen \/ In x l).
  { induction l as [| y l IH]; intros seen Hnd; simpl.
    - split; [exact Hnd | intros x; tauto].
    - destruct (existsb (Z.eqb y) seen) eqn:E.
      + destruct (IH seen Hnd) as [H1 H2]. split; [exact H1 |].
        intros x. rewrite H2.
        apply existsb_exists in E as (z & Hz & Hzy). apply Z.eqb_eq in Hzy.
        subst z. intuition (subst; auto).
      + assert (Hnot : ~ In y seen).
        { intros Hin. assert (existsb (Z.eqb y) seen = true); [| congruence].
          apply existsb_exists. exists y. split; [exact Hin | apply Z.eqb_refl]. }
        assert (Hnd' : NoDup (seen ++ [y])).
        { apply NoDup_app; [exact Hnd | constructor; [intros [] | constructor] |].
          intros x Hx [<- | []]. contradiction. }
        destruct (IH (seen ++ [y]) Hnd') as [H1 H2]. split; [exact H1 |].
        intros x. rewrite H2, in_app_iff. simpl. tauto. }
  destruct (H [] (NoDup_nil _)) as [H1 H2]. split; [exact H1 |].
  intros x. rewrite H2. simpl. tauto.
Qed.

Lemma sorted_ge_NoDup_gt (l : list Z) :
  StronglySorted (fun a b => b <= a) l -> NoDup l -> StronglySorted Z.gt l.
Proof.
  induction 1 as [| a l Hl IH Ha]; intros Hnd; constructor;
    inversion Hnd as [| ? ? Hnot Hnd']; subst; auto.
  rewrite Forall_forall in *. intros b Hb.
  assert (a <> b) by (intros ->; contradiction).
  specialize (Ha b Hb). lia.
Qed.

Section MonthlyFacts.

Context {host : Host}.

Lemma getMonth_range (t : Z) : 1 <= getMonth t + 1 <= 12.
Proof.
  unfold getMonth. pose proof (civil_from_days_spec (Day (LocalTime t))) as H.
  destruct (civil_from_days (Day (LocalTime t))) as [[y m] d]. lia.
Qed.

(** What [lastByMonth] holds under a key: the last point filed under it. *)
Lemma lastByMonth_get (l : list point) (k : string) :
  mapGet k (fold_left monthStep l [])
  = match find (fun p => String.eqb (keyOf p) k) (rev l) with
    | Some p => Some {| mr_year := getFullYear (date p);
                        mr_month := getMonth (date p) + 1;
                        mr_nav := nav p |}
    | None => None
    end.
Proof.
  induction l as [| p l IH] using rev_ind; [reflexivity |].
  rewrite fold_left_app, rev_app_distr. simpl.
  unfold monthStep at 1. rewrite mapGet_mapSet. fold (keyOf p).
  destruct (String.eqb (keyOf p) k); [reflexivity | exact IH].
Qed.

Lemma navLookup_find (l : list point) (k : string) :
  navLookup (fold_left monthStep l []) k
  = match find (fun p => String.eqb (keyOf p) k) (rev l) with
    | Some p => Some (nav p)
    | None => None
    end.
Proof.
  unfold navLookup. rewrite lastByMonth_get.
  now destruct (find (fun p => String.eqb (keyOf p) k) (rev l)).
Qed.

Variable series : list point.

Hypothesis years_in_range :
  forall p, In p series -> 0 <= getFullYear (date p) <= 275760.

Lemma year_bound (y : Z) : 0 <= y <= 275760 -> 0 <= y < 2 ^ 53.
Proof. intros H. assert (275760 < 2 ^ 53) by reflexivity. lia. Qed.

Lemma keyOf_bucket (p : point) (y m : Z) :
  In p series -> 0 <= y <= 275760 -> 1 <= m <= 12 ->
  String.eqb (keyOf p) (monthKey y m) = inBucket y m p.
Proof.
  intros Hp Hy Hm. unfold inBucket, keyOf.
  destruct (String.eqb_spec (monthKey (getFullYear (date p)) (getMonth (date p) + 1))
                            (monthKey y m)) as [E | E].
  - apply monthKey_inj in E as [-> ->];
      auto using year_bound, getMonth_range.
    now rewrite !Z.eqb_refl.
  - destruct (getFullYear (date p) =? y) eqn:Ey; [| reflexivity].
    destruct (getMonth (date p) + 1 =? m) eqn:Em; [| reflexivity].
    apply Z.eqb_eq in Ey, Em. exfalso. apply E. now rewrite Ey, Em.
Qed.

Lemma navLookup_bucket (y m : Z) :
  0 <= y <= 275760 -> 1 <= m <= 12 ->
  navLookup (fold_left monthStep series []) (monthKey y m)
  = representative series y m.
Proof.
  intros Hy Hm. rewrite navLookup_find. unfold representative.
  rewrite (find_ext_in (fun p => String.eqb (keyOf p) (monthKey y m))
                       (inBucket y m)); [reflexivity |].
  intros p Hp. apply keyOf_bucket; auto. now apply in_rev.
Qed.

Lemma representative_none (y m : Z) :
  (forall p, In p series -> inBucket y m p = false) ->
  representative series y m = None.
Proof.
  intros H. unfold representative.
  destruct (find (inBucket y m) (rev series)) as [p |] eqn:E; [| reflexivity].
  apply find_some in E as [Hp Hb]. rewrite H in Hb; [discriminate |].
  now apply in_rev.
Qed.

Lemma navLookup_prev (y m : Z) :
  0 <= y <= 275760 -> 1 <= m <= 12 ->
  navLookup (fold_left monthStep series []) (prevKey y m)
  = let '(py, pm) := prevMonth y m in representative series py pm.
Proof.
  intros Hy Hm. rewrite (prevKey_month y m Hm). unfold prevMonth.
  destruct (1 <? m) eqn:E.
  - apply Z.ltb_lt in E. apply navLookup_bucket; lia.
  - destruct (Z.eq_dec y 0) as [-> | Hnz].
    + rewrite navLookup_find.
      rewrite representative_none.
      * destruct (find _ (rev series)) as [p |] eqn:Ef; [| reflexivity].
        apply find_some in Ef as [Hp Hk]. apply String.eqb_eq in Hk.
        exfalso. apply in_rev in Hp.
        apply (monthKey_not_minus (getFullYear (date p)) (getMonth (date p) + 1)
                                  "1-12").
        -- apply years_in_range, Hp.
        -- exact Hk.
      * intros p Hp. unfold inBucket.
        destruct (getFullYear (date p) =? 0 - 1) eqn:Ey; [| reflexivity].
        apply Z.eqb_eq in Ey. specialize (years_in_range p Hp). lia.
    + apply (navLookup_bucket (y - 1) 12); lia.
Qed.

(** The row made of the key of a month that has a point. *)
Lemma monthRowOf_bucket (y m : Z) (v : num) :
  0 <= y <= 275760 -> 1 <= m <= 12 ->
  representative series y m = Some v ->
  monthRowOf (fold_left monthStep series []) (monthKey y m)
  = {| year := y; month := m; mnav := v; ret := monthReturn series y m |}.
Proof.
  intros Hy Hm Hv. unfold monthRowOf. cbv zeta.
  destruct (monthKey_parse y m (year_bound y Hy) Hm) as [-> ->].
  rewrite (navLookup_bucket y m Hy Hm), Hv, (navLookup_prev y m Hy Hm).
  unfold monthReturn. rewrite Hv.
  destruct (prevMonth y m) as [py pm].
  destruct (representative series py pm) as [pv |]; [| reflexivity].
  now destruct (neqb pv (ofZ 0)).
Qed.

Lemma representative_some (y m : Z) (v : num) :
  representative series y m = Some v ->
  exists p, In p series /\ getFullYear (date p) = y
            /\ getMonth (date p) + 1 = m /\ nav p = v.
Proof.
  unfold representative. intros H.
  destruct (find (inBucket y m) (rev series)) as [p |] eqn:E; [| discriminate].
  injection H as <-. apply find_some in E as [Hp Hb]. unfold inBucket in Hb.
  apply andb_true_iff in Hb as [Hy Hm]. apply Z.eqb_eq in Hy, Hm.
  exists p. repeat split; auto. now apply in_rev.
Qed.

Lemma representative_of_point (p : point) :
  In p series ->
  exists v, representative series (getFullYear (date p)) (getMonth (date p) + 1)
            = Some v.
Proof.
  intros Hp. unfold representative.
  destruct (find (inBucket (getFullYear (date p)) (getMonth (date p) + 1))
                 (rev series)) as [q |] eqn:E; [eauto |].
  exfalso. apply in_rev in Hp. pose proof (find_none _ _ E p Hp) as Hn.
  unfold inBucket in Hn. rewrite !Z.eqb_refl in Hn. discriminate.
Qed.

(** The keys of [lastByMonth] are the keys of the points. *)
Lemma lastByMonth_keys (k : string) :
  In k (mapKeys (fold_left monthStep series []))
  <-> exists p, In p series /\ keyOf p = k.
Proof.
  split.
  - intros Hk.
    destruct (mapGet k (fold_left monthStep series [])) as [r |] eqn:E.
    + rewrite lastByMonth_get in E.
      destruct (find (fun p => String.eqb (keyOf p) k) (rev series)) as [p |] eqn:Ef;
        [| discriminate].
      apply find_some in Ef as [Hp Hk']. apply String.eqb_eq in Hk'.
      exists p. split; [now apply in_rev | exact Hk'].
    + apply mapGet_None in E. contradiction.
  - intros (p & Hp & <-).
    destruct (mapGet (keyOf p) (fold_left monthStep series [])) as [r |] eqn:E.
    + apply mapGet_In in E. unfold mapKeys.
      change (keyOf p) with (fst (keyOf p, r)). now apply in_map.
    + rewrite lastByMonth_get in E.
      destruct (find (fun q => String.eqb (keyOf q) (keyOf p)) (rev series))
        as [q |] eqn:Ef; [discriminate |].
      exfalso. apply in_rev in Hp.
      pose proof (find_none _ _ Ef p Hp) as Hn. simpl in Hn.
      now rewrite String.eqb_refl in Hn.
Qed.

(** Every element of [rows] is the row of the month of a point. *)
Lemma monthRows_elements (r : monthRow) :
  In r (monthRows series)
  <-> exists p v, In p series
        /\ representative series (getFullYear (date p)) (getMonth (date p) + 1)
           = Some v
        /\ r = {| year := getFullYear (date p); month := getMonth (date p) + 1;
                  mnav := v;
                  ret := monthReturn series (getFullYear (date p))
                                     (getMonth (date p) + 1) |}.
Proof.
  unfold monthRows. cbv zeta. rewrite in_map_iff. split.
  - intros (k & <- & Hk). apply sortBy_In, lastByMonth_keys in Hk as (p & Hp & <-).
    destruct (representative_of_point p Hp) as (v & Hv).
    exists p, v. repeat split; auto. unfold keyOf.
    apply monthRowOf_bucket; auto using getMonth_range.
  - intros (p & v & Hp & Hv & ->). exists (keyOf p). split.
    + unfold keyOf. apply monthRowOf_bucket; auto using getMonth_range.
    + apply sortBy_In, lastByMonth_keys. eauto.
Qed.

(** The cell of month [m] of year [y]. *)
Lemma monthRows_find (y m : Z) :
  match find (fun r => (year r =? y) && (month r =? m)) (monthRows series) with
  | Some r => ret r
  | None => None
  end = monthReturn series y m.
Proof.
  destruct (find (fun r => (year r =? y) && (month r =? m)) (monthRows series))
    as [r |] eqn:E.
  - apply find_some in E as [Hr Hym].
    apply monthRows_elements in Hr as (p & v & Hp & Hv & ->). simpl in Hym.
    apply andb_true_iff in Hym as [Hy Hm]. apply Z.eqb_eq in Hy, Hm.
    simpl. now rewrite Hy, Hm.
  - unfold monthReturn.
    destruct (representative series y m) as [v |] eqn:Hv; [| reflexivity].
    exfalso. apply representative_some in Hv as (p & Hp & Hy & Hm & _).
    destruct (representative_of_point p Hp) as (v' & Hv').
    assert (Hr : In {| year := getFullYear (date p);
                       month := getMonth (date p) + 1; mnav := v';
                       ret := monthReturn series (getFullYear (date p))
                                          (getMonth (date p) + 1) |}
                    (monthRows series))
      by (apply monthRows_elements; eauto).
    pose proof (find_none _ _ E _ Hr) as Hn. simpl in Hn.
    rewrite Hy, Hm, !Z.eqb_refl in Hn. discriminate.
Qed.

End MonthlyFacts.

Lemma yearStep_fold (rows : list monthRow) (y : Z) (l : list (string * Z))
      (st : yearAcc) :
  let cell m :=
    match find (fun r => (year r =? y) && (month r =? m)) rows with
    | Some r => ret r
    | None => None
    end in
  fold_left (yearStep rows y) l st
  = {| ya_cells := ya_cells st
                   ++ map (fun '(name, idx) => (name, cell (idx + 1))) l;
       ya_ytdAcc :=
         fold_left (fun acc r =>
                      match r with
                      | Some x => nmul acc (nadd (ofZ 1) x)
                      | None => acc
                      end)
                   (map (fun '(_, idx) => cell (idx + 1)) l) (ya_ytdAcc st);
       ya_anyMonth :=
         ya_anyMonth st || existsb isSome (map (fun '(_, idx) => cell (idx + 1)) l) |}.
Proof.
  intros cell. revert st. induction l as [| [name idx] l IH]; intros st.
  - simpl. rewrite app_nil_r, orb_false_r. now destruct st.
  - cbn [fold_left]. rewrite IH. unfold yearStep at 1 2 3. fold (cell (idx + 1)).
    cbn [ya_cells ya_ytdAcc ya_anyMonth map fold_left existsb].
    rewrite <- app_assoc.
    destruct (cell (idx + 1)) as [x |]; cbn [isSome orb app];
      [rewrite orb_true_r |]; reflexivity.
Qed.

Section MonthlyGrid.

Context {host : Host}.

Lemma yearRowOf_grid (series : list point) (y : Z) :
  (forall p, In p series -> 0 <= getFullYear (date p) <= 275760) ->
  yearRowOf (monthRows series) y = gridRow series y.
Proof.
  intros Hyears. unfold yearRowOf, gridRow. rewrite yearStep_fold.
  cbn [ya_cells ya_ytdAcc ya_anyMonth app orb]. unfold compound.
  assert (Hc : map (fun '(name, idx) =>
                      (name,
                       match find (fun r => (year r =? y) && (month r =? idx + 1))
                                  (monthRows series) with
                       | Some r => ret r
                       | None => None
                       end)) (indexed months)
               = map (fun '(name, idx) => (name, monthReturn series y (idx + 1)))
                     (indexed months)).
  { apply map_ext. intros [name idx]. now rewrite monthRows_find. }
  assert (Hr : map (fun '(_, idx) =>
                      match find (fun r => (year r =? y) && (month r =? idx + 1))
                                 (monthRows series) with
                      | Some r => ret r
                      | None => None
                      end) (indexed months)
               = map (fun '(_, idx) => monthReturn series y (idx + 1))
                     (indexed months)).
  { apply map_ext. intros [name idx]. now rewrite monthRows_find. }
  now rewrite Hc, Hr.
Qed.

(** X1. For a series whose dates lie in the years 0 to 275760 (the last year a
    date can have), [monthlyReturns] returns the twelve month names and one
    row per year that has a point, the years strictly descending; the row of
    a year holds for each month the return of the month's representative
    (the value of the last point of the series in the month) over the
    representative of the month before, absent when either month has no
    point or the earlier value is zero, and as YTD the compounding of the
    returns that are present. *)
Theorem monthlyReturns_grid (series : list point) :
  series <> [] ->
  (forall p, In p series -> 0 <= getFullYear (date p) <= 275760) ->
  snd (monthlyReturns series) = months
  /\ StronglySorted Z.gt (map Year (fst (monthlyReturns series)))
  /\ (forall y, In y (map Year (fst (monthlyReturns series)))
                <-> exists p, In p series /\ getFullYear (date p) = y)
  /\ (forall row, In row (fst (monthlyReturns series)) ->
                  row = gridRow series (Year row)).
Proof.
  intros Hne Hyears. unfold monthlyReturns.
  destruct series as [| p0 rest] eqn:Hs; [congruence |]. rewrite <- Hs in *.
  clear Hne. cbv zeta. cbn [fst snd].
  set (years := sortBy (fun a b => b - a) (distinct (map year (monthRows series)))).
  assert (Hmap : map Year (map (yearRowOf (monthRows series)) years) = years).
  { rewrite map_map. cbn [Year yearRowOf]. apply map_id. }
  destruct (distinct_spec (map year (monthRows series))) as [Hnd Hin].
  split; [reflexivity |]. rewrite Hmap. split; [| split].
  - apply sorted_ge_NoDup_gt.
    + unfold years.
      apply (sortBy_sorted (fun a b => b - a) (fun a b => b <= a)); intros; lia.
    + apply Permutation_NoDup with (distinct (map year (monthRows series)));
        [apply Permutation_sym, sortBy_perm | exact Hnd].
  - intros y. unfold years. rewrite sortBy_In, Hin, in_map_iff. split.
    + intros (r & <- & Hr).
      apply (monthRows_elements series Hyears) in Hr as (p & v & Hp & _ & ->).
      exists p. auto.
    + intros (p & Hp & <-).
      destruct (representative_of_point series p Hp) as (v & Hv).
      eexists. split; [| apply (monthRows_elements series Hyears); eauto].
      reflexivity.
  - intros row Hrow. apply in_map_iff in Hrow as (y & <- & _).
    now rewrite yearRowOf_grid.
Qed.

End MonthlyGrid.

Lemma monthlyReturns_grid_witness :
  fst (monthlyReturns seriesA)
  = [gridRow seriesA 2023]
  /\ monthReturn seriesA 2023 2 = Some (nsub (ndiv (ofZ 110) (ofZ 100)) (ofZ 1))
  /\ monthReturn seriesA 2023 3 = Some (nsub (ndiv (ofZ 99) (ofZ 110)) (ofZ 1)).
Proof.
  assert (Hne : seriesA <> []) by (intros H; vm_compute in H; discriminate H).
  assert (Hy : forall p, In p seriesA -> 0 <= getFullYear (date p) <= 275760).
  { intros p Hp. vm_compute in Hp.
    repeat (destruct Hp as [<- | Hp]; [vm_compute; split; discriminate |]).
    contradiction. }
  destruct (monthlyReturns_grid seriesA Hne Hy) as (_ & _ & _ & H).
  split; [| split; vm_compute; reflexivity].
  assert (Hlen : map Year (fst (monthlyReturns seriesA)) = [2023])
    by (vm_compute; reflexivity).
  destruct (fst (monthlyReturns seriesA)) as [| r [| r' t]]; try discriminate Hlen.
  injection Hlen as Hr. rewrite (H r (or_introl eq_refl)), Hr. reflexivity.
Defined.

(** * Further properties of the code *)

(** ** Column inference *)

Section DetectFacts.

Context {host : Host}.

(** X2. Only the first 50 rows decide the columns: [detectColumns] returns on a
    sheet what it returns on the first 50 rows of the sheet. *)
Theorem detectColumns_first_50 (rows : list row) :
  detectColumns rows = detectColumns (firstn 50 rows).
Proof.
  destruct rows as [| first rest]; [reflexivity |].
  change (firstn 50 (first :: rest)) with (first :: firstn 49 rest).
  unfold detectColumns.
  assert (Hn : Z.min (Z.of_nat (List.length (first :: firstn 49 rest))) 50
               = Z.min (Z.of_nat (List.length (first :: rest))) 50).
  { change (List.length (first :: firstn 49 rest))
      with (S (List.length (firstn 49 rest))).
    change (List.length (first :: rest)) with (S (List.length rest)).
    rewrite length_firstn. lia. }
  rewrite Hn.
  set (n := Z.min (Z.of_nat (List.length (first :: rest))) 50).
  assert (Hs : firstn (Z.to_nat n) (first :: firstn 49 rest)
               = firstn (Z.to_nat n) (first :: rest)).
  { change (first :: firstn 49 rest) with (firstn 50 (first :: rest)).
    rewrite firstn_firstn. f_equal. unfold n. lia. }
  now rewrite Hs.
Qed.

Lemma firstOfMax_In (cnt : score -> Z) (l : list score) (s : score) :
  firstOfMax cnt l s -> In s l.
Proof. intros (l1 & l2 & -> & _). apply in_elt. Qed.

Lemma selects_key (cnt : score -> Z) (thr : Z) (scores : list score)
      (k : string) :
  0 < thr -> selects cnt thr scores (Some k) ->
  exists s, In s scores /\ key s = k /\ 0 < cnt s.
Proof.
  intros Hthr [(s & Hs & Hk) | [(_ & s & Hs & Hpos & Hk) | (_ & _ & Hk)]].
  - apply firstOfMax_In, filter_In in Hs as [Hs Hc]. apply Z.leb_le in Hc.
    exists s. injection Hk as ->. repeat split; auto. lia.
  - apply firstOfMax_In in Hs. exists s. injection Hk as ->. auto.
  - discriminate.
Qed.

Lemma count_positive (f : row -> bool) (sample : list row) :
  0 < Z.of_nat (List.length (filter f sample)) ->
  exists r, In r sample /\ f r = true.
Proof.
  destruct (filter f sample) as [| r l] eqn:E; simpl; [lia |]. intros _.
  assert (Hr : In r (filter f sample)) by (rewrite E; now left).
  apply filter_In in Hr. eauto.
Qed.

(** X3. A selected column is a key of the first row, and at least one of the
    sampled rows holds under it a cell of the selected kind: a date-like
    cell for the date column, a numeric-like cell for the value column. *)
Theorem detectColumns_selected_column (rows : list row) (k : string) :
  let sample := firstn 50 rows in
  (dateKey (detectColumns rows) = Some k ->
   In k (map fst (hd [] rows))
   /\ exists r, In r sample /\ isDateLike (getCell r k) = true)
  /\ (navKey (detectColumns rows) = Some k ->
      In k (map fst (hd [] rows))
      /\ exists r, In r sample /\ isNumericLike (getCell r k) = true).
Proof.
  intros sample. destruct rows as [| first rest]; [split; discriminate |].
  set (n := Z.min (Z.of_nat (List.length (first :: rest))) 50).
  assert (Hsample : firstn (Z.to_nat n) (first :: rest) = sample).
  { unfold sample.
    destruct (Z.le_ge_cases (Z.of_nat (List.length (first :: rest))) 50) as [H | H].
    - rewrite !firstn_all2; [reflexivity | lia | unfold n; lia].
    - f_equal. unfold n. lia. }
  assert (Hthr : 0 < threshold n).
  { unfold threshold, n.
    change (List.length (first :: rest)) with (S (List.length rest)).
    Z.div_mod_to_equations. lia. }
  assert (Hsel : forall cnt,
             (forall k0, 0 <= cnt (scoreKey sample k0)) ->
             chooseKey cnt (threshold n) (map (scoreKey sample) (map fst first))
             = Some k ->
             exists k0, In k0 (map fst first) /\ k0 = k
                        /\ 0 < cnt (scoreKey sample k0)).
  { intros cnt Hnn Hk.
    assert (Hs : selects cnt (threshold n)
                         (map (scoreKey sample) (map fst first)) (Some k)).
    { rewrite <- Hk. apply chooseKey_selects; [lia |].
      intros s Hs. apply in_map_iff in Hs as (k0 & <- & _). apply Hnn. }
    apply (selects_key _ _ _ _ Hthr) in Hs as (s & Hs & Hkey & Hpos).
    apply in_map_iff in Hs as (k0 & <- & Hk0).
    rewrite (proj1 (scoreKey_counts sample k0)) in Hkey. eauto. }
  unfold detectColumns. fold n. rewrite Hsample. cbn [dateKey navKey hd].
  split; intros Hk.
  - destruct (Hsel dateCount) as (k0 & Hin & -> & Hpos); [| exact Hk |].
    + intros k0. rewrite (proj1 (proj2 (scoreKey_counts sample k0))). lia.
    + split; [exact Hin |].
      rewrite (proj1 (proj2 (scoreKey_counts sample k))) in Hpos.
      now apply count_positive in Hpos.
  - destruct (Hsel numCount) as (k0 & Hin & -> & Hpos); [| exact Hk |].
    + intros k0. rewrite (proj2 (proj2 (scoreKey_counts sample k0))). lia.
    + split; [exact Hin |].
      rewrite (proj2 (proj2 (scoreKey_counts sample k))) in Hpos.
      now apply count_positive in Hpos.
Qed.

End DetectFacts.

(** ** The series builder *)

(** Two lists strictly ascending by the same key with the same elements are
    the same list. *)
Lemma sorted_same_elements {A : Type} (f : A -> Z) (l1 l2 : list A) :
  StronglySorted (fun a b => f a < f b) l1 ->
  StronglySorted (fun a b => f a < f b) l2 ->
  (forall x, In x l1 <-> In x l2) -> l1 = l2.
Proof.
  intros H1. revert l2. induction H1 as [| a l1 Hl1 IH Ha]; intros l2 H2 Hin.
  - destruct l2 as [| b l2]; [reflexivity |].
    exfalso. apply (proj2 (Hin b)). now left.
  - destruct H2 as [| b l2 Hl2 Hb].
    + exfalso. apply (proj1 (Hin a)). now left.
    + rewrite Forall_forall in Ha, Hb.
      assert (Hab : a = b).
      { destruct (proj1 (Hin a) (or_introl eq_refl)) as [E | Ea]; [auto |].
        destruct (proj2 (Hin b) (or_introl eq_refl)) as [E | Eb]; [auto |].
        specialize (Ha b Eb). specialize (Hb a Ea). lia. }
      subst b. f_equal. apply IH; [exact Hl2 |].
      intros x. split; intros Hx.
      * destruct (proj1 (Hin x) (or_intror Hx)) as [E | E]; [| exact E].
        subst x. specialize (Ha a Hx). lia.
      * destruct (proj2 (Hin x) (or_intror Hx)) as [E | E]; [| exact E].
        subst x. specialize (Hb a Hx). lia.
Qed.

Section SeriesFacts2.

Context {host : Host}.

Variables dateKey navKey : string.

Lemma cleanRecords_elements (rows : list row) (c : rec) :
  oneValuePerDay dateKey navKey rows ->
  In c (cleanRecords rows dateKey navKey)
  <-> exists r, In r rows /\ keptAs dateKey navKey r (rc_date c) (rc_nav c).
Proof.
  intros Hone. split.
  - intros Hc. destruct (cleanRecords_source dateKey navKey rows c Hc)
      as (l1 & r & l2 & -> & Hr & _).
    exists r. split; [apply in_elt | exact Hr].
  - intros (r & Hr & Hk).
    destruct (cleanRecords_present dateKey navKey rows r _ _ Hr Hk)
      as (c' & Hc' & Hkey).
    destruct (cleanRecords_source dateKey navKey rows c' Hc')
      as (l1 & r0 & l2 & Hrows & Hr0 & _).
    assert (Hin0 : In r0 rows) by (rewrite Hrows; apply in_elt).
    destruct (Hone r0 r _ _ _ _ Hin0 Hr Hr0 Hk Hkey) as [Hd Hv].
    replace c with c'; [exact Hc' |].
    destruct c, c'. simpl in *. congruence.
Qed.

(** X4. The order of the rows does not matter when the rows kept for one day
    agree on date and value: a sheet and any rearrangement of its rows give
    the same series. *)
Theorem toSeries_any_row_order (rows rows' : list row) :
  Permutation rows rows' -> oneValuePerDay dateKey navKey rows ->
  toSeries rows (Some dateKey) (Some navKey)
  = toSeries rows' (Some dateKey) (Some navKey).
Proof.
  intros Hperm Hone.
  assert (Hone' : oneValuePerDay dateKey navKey rows').
  { intros r1 r2 d1 d2 v1 v2 H1 H2. apply Hone;
      now apply (Permutation_in _ (Permutation_sym Hperm)). }
  assert (Hc : cleanRecords rows dateKey navKey = cleanRecords rows' dateKey navKey).
  { apply sorted_same_elements with (f := rc_date);
      try apply cleanRecords_sorted.
    intros c. rewrite (cleanRecords_elements rows c Hone),
                      (cleanRecords_elements rows' c Hone').
    split; intros (r & Hr & Hk); exists r; split; auto.
    - now apply (Permutation_in _ Hperm).
    - now apply (Permutation_in _ (Permutation_sym Hperm)). }
  unfold toSeries. rewrite Hc.
  destruct rows as [| r rows], rows' as [| r' rows'']; try reflexivity.
  - apply Permutation_nil in Hperm. discriminate.
  - apply Permutation_sym, Permutation_nil in Hperm. discriminate.
Qed.

Lemma pushedFrom_labels (l : list rec) (st : walk) :
  map dateLabel (pushedFrom st l) = map (fun c => isoKey (rc_date c)) l
  /\ map date (pushedFrom st l) = map rc_date l.
Proof.
  revert st. induction l as [| c l IH]; intros st; simpl; [auto |].
  destruct (IH (walkStep st c)) as [-> ->]. auto.
Qed.

Lemma cleanRecords_keys (rows : list row) :
  NoDup (map (fun c => isoKey (rc_date c)) (cleanRecords rows dateKey navKey)).
Proof.
  destruct (clean_inv dateKey navKey rows) as [Hnd Hkey _ _].
  apply Permutation_NoDup
    with (map (fun c => isoKey (rc_date c))
              (mapValues (fold_left (cleanStep dateKey navKey) rows []))).
  - apply Permutation_map, Permutation_sym, sortBy_perm.
  - unfold mapValues, mapKeys in *. rewrite map_map.
    replace (map (fun x => isoKey (rc_date (snd x)))
                 (fold_left (cleanStep dateKey navKey) rows []))
      with (map fst (fold_left (cleanStep dateKey navKey) rows [])); [exact Hnd |].
    apply map_ext_in. intros [k v] Hin. simpl. now apply Hkey.
Qed.

(** X5. The labels of the points are their days in ISO form, and no two points
    of a series carry the same label. *)
Theorem toSeries_labels_distinct (rows : list row) :
  let s := toSeries rows (Some dateKey) (Some navKey) in
  map dateLabel s = map (fun p => isoKey (date p)) s
  /\ NoDup (map dateLabel s).
Proof.
  intros s.
  destruct (toSeries_cases rows (Some dateKey) (Some navKey))
    as [He | (dk & nk & [= <-] & [= <-] & _ & He)]; fold s in He; rewrite He.
  - split; [reflexivity | constructor].
  - destruct (pushedFrom_labels (cleanRecords rows dateKey navKey) walk0)
      as [Hl Hd].
    split.
    + rewrite Hl, <- (map_map date isoKey), Hd, map_map. reflexivity.
    + rewrite Hl. apply cleanRecords_keys.
Qed.

End SeriesFacts2.

(** X6. The test [Number.isNaN(nav)] of the first loop never skips a row: the
    value of a numeric-like cell is not [NaN]. *)
Theorem numeric_like_value_is_not_NaN (v : cell) :
  isNumericLike v = true -> isNaN (Number_of_cell v) = false.
Proof.
  destruct v as [| | x | s | b | d]; simpl; try discriminate.
  - destruct x; simpl; congruence.
  - rewrite andb_true_iff, !negb_true_iff. tauto.
Qed.

Lemma toSeries_any_row_order_witness :
  toSeries rowsA (Some "Date") (Some "NAV")
  = toSeries (rev rowsA) (Some "Date") (Some "NAV").
Proof.
  apply toSeries_any_row_order.
  - apply Permutation_rev.
  - intros r1 r2 d1 d2 v1 v2 H1 H2 (Hd1 & _ & Hv1) (Hd2 & _ & Hv2) Hkey.
    simpl in H1, H2.
    destruct H1 as [<- | [<- | [<- | []]]];
      destruct H2 as [<- | [<- | [<- | []]]];
      simpl in Hd1, Hd2, Hv1, Hv2;
      injection Hd1 as <-; injection Hd2 as <-; subst v1 v2;
      first [ split; reflexivity | vm_compute in Hkey; discriminate Hkey ].
Defined.

Lemma numeric_like_value_witness :
  isNaN (Number_of_cell (CStr " 1,234.5 ")) = false.
Proof. apply numeric_like_value_is_not_NaN. reflexivity. Defined.

(** ** Date coercion *)

Lemma looksLikeNumber_digits (ds : string) :
  ds <> EmptyString -> allDigits ds = true -> looksLikeNumber ds = true.
Proof.
  intros Hne Hall. unfold looksLikeNumber.
  assert (Hs : match ds with String "-" r => r | _ => ds end = ds).
  { destruct ds as [| c ds]; [reflexivity |]. simpl in Hall.
    apply andb_true_iff in Hall as [Hc _]. digit_cases c Hc; reflexivity. }
  rewrite Hs, (takeDigits_all ds Hall).
  destruct ds; [congruence | reflexivity].
Qed.

Section CoercionFacts.

Context {host : Host}.

(** X8. A whole number written as text is coerced as the number is: a column of
    serials exported as text gives the dates of the serials. *)
Theorem coerceDate_text_of_number (n : Z) :
  0 <= n < 10 ^ 21 ->
  coerceDate (CStr (String_of_int n)) = coerceDate (CNum (ofZ n))
  /\ Number_of_cell (CStr (String_of_int n)) = ofZ n.
Proof.
  intros Hn. rewrite String_of_int_nonneg by lia.
  destruct (String_of_nonneg_spec n (proj1 Hn)) as (Hne & Hall & Hval).
  assert (Hnum : Number_of_string (String_of_nonneg n) = ofZ n).
  { unfold Number_of_string. rewrite (trim_digits _ Hall).
    replace (isEmpty (String_of_nonneg n)) with false
      by (destruct (String_of_nonneg n); [congruence | reflexivity]).
    rewrite (scanRadix_digits _ Hall), (scanDecimal_digits _ Hne Hall), Hval.
    change (10 ^ 0) with 1. rewrite Z.mul_1_r. reflexivity. }
  split.
  - unfold coerceDate. cbn [String_of_cell]. rewrite (trim_digits _ Hall).
    replace (isEmpty (String_of_nonneg n)) with false
      by (destruct (String_of_nonneg n); [congruence | reflexivity]).
    now rewrite (looksLikeNumber_digits _ Hne Hall), Hnum.
  - unfold Number_of_cell. cbn [String_of_cell]. rewrite (trim_digits _ Hall).
    assert (Hc : stripCommas (String_of_nonneg n) = String_of_nonneg n).
    { revert Hall. generalize (String_of_nonneg n) as ds.
      induction ds as [| c ds IH]; simpl; [reflexivity |]. intros H.
      apply andb_true_iff in H as [Hc Hds]. rewrite (IH Hds).
      digit_cases c Hc; reflexivity. }
    now rewrite Hc.
Qed.

(** X9. When the decoder of the spreadsheet library gives nothing for a whole
    serial (or no year), the serial is a count of days from 1899-12-30:
    serial [n] is midnight UTC of day [n - 25569] after 1970-01-01. *)
Theorem coerceDate_day_count (n : Z) :
  match parse_date_code (ofZ n) with
  | Some dc => dc_y dc = 0
  | None => True
  end ->
  Z.abs ((n - 25569) * msPerDay) <= 8640000000000000 ->
  coerceDate (CNum (ofZ n)) = Some ((n - 25569) * msPerDay)
  /\ Day ((n - 25569) * msPerDay) = n - 25569
  /\ isDateLike (CNum (ofZ n)) = true.
Proof.
  intros Hdc Hrange.
  assert (Hc : coerceDate (CNum (ofZ n)) = Some ((n - 25569) * msPerDay)).
  { unfold coerceDate, coerceDateNum.
    assert (Hnone : match parse_date_code (ofZ n) with
                    | Some dc => if dc_y dc =? 0 then None else Some dc
                    | None => None
                    end = None).
    { destruct (parse_date_code (ofZ n)) as [dc |]; [| reflexivity].
      now rewrite Hdc. }
    rewrite Hnone. unfold msPerDay in Hrange.
    assert (H53 : 2 ^ 53 = 9007199254740992) by reflexivity.
    rewrite (ofZ_exact n) by lia.
    rewrite (ofZ_exact 25569), (ofZ_exact 86400), (ofZ_exact 1000) by reflexivity.
    cbn [isNaN negb]. unfold nsub.
    rewrite (nneg_int 25569) by discriminate.
    rewrite nadd_int by lia.
    rewrite nmul_int by lia.
    rewrite nmul_int by lia.
    cbn [Date_of_num Qnum Qden inject_Z]. rewrite Z.quot_1_r.
    replace ((n + - (25569)) * 86400 * 1000) with ((n - 25569) * msPerDay)
      by (unfold msPerDay; lia).
    unfold TimeClip, msPerDay.
    now replace (Z.abs ((n - 25569) * 86400000) <=? 8640000000000000) with true
      by (symmetry; now apply Z.leb_le). }
  split; [exact Hc |]. split.
  - unfold Day. apply Z.div_mul. discriminate.
  - unfold isDateLike. now rewrite Hc.
Qed.

End CoercionFacts.

Lemma coerceDate_text_of_number_witness :
  coerceDate (CStr "44927") = coerceDate (CNum (ofZ 44927)).
Proof.
  destruct (coerceDate_text_of_number 44927) as [H _]; [| exact H].
  split; [discriminate | reflexivity].
Defined.

Lemma coerceDate_day_count_witness :
  coerceDate (CNum (ofZ 44927)) = Some jan1
  /\ civil_from_days (Day jan1) = (2023, 1, 1).
Proof.
  split; [| reflexivity].
  destruct (coerceDate_day_count 44927) as [H _];
    [exact I | discriminate | exact H].
Defined.

(** ** Trailing returns: short histories *)

Lemma find_all_false {A : Type} (f : A -> bool) (l : list A) :
  (forall x, In x l -> f x = false) -> find f l = None.
Proof.
  induction l as [| a l IH]; simpl; intros H; [reflexivity |].
  rewrite (H a (or_introl eq_refl)). apply IH. intros x Hx. apply H. now right.
Qed.

Lemma lastPoint_exists (series : list point) :
  series <> [] ->
  exists latest, lastPoint series = Some latest /\ In latest series.
Proof.
  induction series as [| a l IH]; [congruence |]. intros _.
  destruct l as [| b l].
  - exists a. split; [reflexivity | now left].
  - destruct IH as (latest & Hl & Hin); [discriminate |].
    exists latest. split; [exact Hl | now right].
Qed.

Section TrailingFacts.

Context {host : Host}.

(** X11. A window that reaches back before the first point of the series is
    reported as [null]. *)
Theorem trailing_window_beyond_history
        (series : list point) (first latest : point) (label : string) (w : Z) :
  StronglySorted (fun p q => date p < date q) series ->
  hd_error series = Some first -> lastPoint series = Some latest ->
  In (label, w) lookbackPeriods ->
  UTC (LocalTime (date latest) - w * msPerDay) < date first ->
  exists r,
    calculateTrailingReturns series = Returned r
    /\ mapGet label r = Some None.
Proof.
  intros Hsorted Hfirst Hlast Hin Hbefore.
  destruct (trailing_returns series latest Hlast) as (r & Hr).
  exists r. split; [exact Hr |].
  rewrite (trailing_lookup series latest label w r Hlast Hin Hr).
  unfold findClosest. rewrite setDateBack_spec, find_all_false; [reflexivity |].
  intros q Hq. apply in_rev in Hq.
  assert (Hge : date first <= date q).
  { destruct series as [| a l]; [discriminate |]. injection Hfirst as ->.
    destruct Hq as [<- | Hq]; [lia |].
    inversion Hsorted as [| ? ? _ Ha]; subst.
    rewrite Forall_forall in Ha. specialize (Ha q Hq). lia. }
  unfold dateLe, TimeClip.
  destruct (Z.abs (UTC (LocalTime (date latest) - w * msPerDay))
            <=? 8640000000000000); [| reflexivity].
  apply Z.leb_gt. lia.
Qed.

End TrailingFacts.

Lemma trailing_window_beyond_history_witness :
  exists r,
    calculateTrailingReturns seriesA = Returned r
    /\ mapGet "1Y" r = Some None.
Proof.
  apply (trailing_window_beyond_history
           seriesA
           {| date := jan1; dateLabel := "2023-01-01"; nav := ofZ 100;
              equity := ofZ 100; drawdown := ofZ 0 |}
           {| date := mar1; dateLabel := "2023-03-01"; nav := ofZ 99;
              equity := ofZ 99; drawdown := ofZ (-10) |} "1Y" 365).
  - vm_compute. repeat constructor.
  - vm_compute. reflexivity.
  - vm_compute. reflexivity.
  - simpl. tauto.
  - reflexivity.
Defined.

(** ** The summary cards of the portfolio page *)

Lemma mapSet_length {V : Type} (k : string) (v : V) (m : jsmap V) :
  (List.length (mapSet k v m) <= S (List.length m))%nat.
Proof.
  induction m as [| [k0 v0] m IH]; simpl; [lia |].
  destruct (String.eqb k0 k); simpl; lia.
Qed.

Lemma pushedFrom_length (l : list rec) (st : walk) :
  List.length (pushedFrom st l) = List.length l.
Proof.
  revert st. induction l as [| c l IH]; intros st; simpl; [reflexivity |].
  now rewrite IH.
Qed.

Lemma equityCards_some (s : list point) (first last : point) :
  hd_error s = Some first -> lastPoint s = Some last ->
  equityCards s
  = Some {| card_ret := nsub (ndiv (equity last) (equity first)) (ofZ 1);
            card_maxDD := Math_min_list (map drawdown s);
            card_points := List.length s |}.
Proof.
  intros Hfirst Hlast. destruct s as [| a l]; [discriminate |].
  injection Hfirst as ->. unfold equityCards. now rewrite Hlast.
Qed.

Section CardFacts.

Context {host : Host}.

Lemma clean_length (dateKey navKey : string) (rows : list row) (m : jsmap rec) :
  (List.length (fold_left (cleanStep dateKey navKey) rows m)
   <= List.length m + List.length rows)%nat.
Proof.
  revert m. induction rows as [| r rows IH]; intros m; simpl; [lia |].
  specialize (IH (cleanStep dateKey navKey m r)).
  destruct (cleanStep_cases dateKey navKey m r) as [[_ E] | (d & v & _ & E)];
    rewrite E in *.
  - lia.
  - pose proof (mapSet_length (isoKey d) {| rc_date := d; rc_nav := v |} m). lia.
Qed.

(** X13. On a built series that is not empty the Since Inception card is the
    stored equity index of the last point over 100, minus 1 (the first index
    is 100); the Max Drawdown card is 100 times the Max DD of the table of
    trailing returns before the division; the Data Points card is at most
    the number of rows. *)
Theorem equityCards_of_built_series
        (rows : list row) (dateKey navKey : option string) :
  let s := toSeries rows dateKey navKey in
  s <> [] ->
  exists last c r,
    lastPoint s = Some last /\ equityCards s = Some c
    /\ card_ret c = nsub (ndiv (equity last) (ofZ 100)) (ofZ 1)
    /\ calculateTrailingReturns s = Returned r
    /\ mapGet "Max DD" r = Some (Some (ndiv (card_maxDD c) (ofZ 100)))
    /\ (card_points c <= List.length rows)%nat.
Proof.
  intros s Hne.
  pose proof (toSeries_walked rows dateKey navKey) as Hw. fold s in Hw.
  assert (Hlen : (List.length s <= List.length rows)%nat).
  { destruct (toSeries_cases rows dateKey navKey)
      as [He | (dk & nk & _ & _ & _ & He)]; fold s in He; rewrite He.
    - simpl. lia.
    - rewrite pushedFrom_length. unfold cleanRecords.
      rewrite (Permutation_length (sortBy_perm _ _)). unfold mapValues.
      rewrite length_map.
      pose proof (clean_length dk nk rows []) as H. simpl in H. exact H. }
  clearbody s.
  destruct (lastPoint_exists s Hne) as (last & Hlast & _).
  destruct s as [| first rest] eqn:Hs; [congruence |]. rewrite <- Hs in *.
  assert (Hfirst : hd_error s = Some first) by now rewrite Hs.
  assert (Hn0 : nth_error s 0 = Some first) by now rewrite Hs.
  assert (He : equity first = ofZ 100).
  { rewrite (walked_equity s 0 first Hw Hn0), (internalEquity_0 s first Hn0).
    exact toFixed2_100. }
  destruct (trailing_returns s last Hlast) as (r & Hr).
  destruct (trailing_fixed s first last r Hfirst Hlast Hr) as (_ & _ & Hmax & _).
  eexists last, _, r. split; [exact Hlast |]. split.
  - apply (equityCards_some s first last Hfirst Hlast).
  - cbn [card_ret card_maxDD card_points]. rewrite He. auto.
Qed.

End CardFacts.

Lemma equityCards_witness :
  exists c, equityCards seriesA = Some c
            /\ card_ret c = nsub (ndiv (ofZ 99) (ofZ 100)) (ofZ 1)
            /\ card_points c = 3%nat.
Proof.
  destruct (equityCards_of_built_series rowsA (Some "Date") (Some "NAV"))
    as (last & c & r & Hlast & Hc & Hret & _ & _ & _).
  - intros H. vm_compute in H. discriminate H.
  - exists c. split; [exact Hc |].
    assert (Hl : last = {| date := mar1; dateLabel := "2023-03-01";
                           nav := ofZ 99; equity := ofZ 99;
                           drawdown := ofZ (-10) |}).
    { assert (H : lastPoint seriesA
                  = Some {| date := mar1; dateLabel := "2023-03-01";
                            nav := ofZ 99; equity := ofZ 99;
                            drawdown := ofZ (-10) |})
        by (vm_compute; reflexivity).
      change (toSeries rowsA (Some "Date") (Some "NAV")) with seriesA in Hlast.
      congruence. }
    split.
    + rewrite Hret, Hl. reflexivity.
    + change (toSeries rowsA (Some "Date") (Some "NAV")) with seriesA in Hc.
      assert (H : option_map card_points (equityCards seriesA) = Some 3%nat)
        by (vm_compute; reflexivity).
      rewrite Hc in H. now injection H.
Defined.

(** ** The drawdown figures of the table of trailing returns *)

Section MinFacts.

Local Open Scope Q_scope.

Lemma nle_refl (x : num) : x <> NaN -> nle x x = true.
Proof.
  destruct x as [| [|] | q |]; intros H; try congruence; try reflexivity.
  unfold nle. cbn [valueOf]. apply Qle_bool_iff. lra.
Qed.

Lemma nle_total (x y : num) :
  x <> NaN -> y <> NaN -> nle x y = false -> nle y x = true.
Proof.
  destruct x as [| [|] | a |], y as [| [|] | b |]; intros Hx Hy H;
    try congruence; try reflexivity; try discriminate;
    unfold nle in *; cbn [valueOf] in *; apply Qle_bool_iff;
    (destruct (Qlt_le_dec 0 0) as [L | L] || idtac);
    match type of H with
    | Qle_bool ?u ?v = false =>
        destruct (Qlt_le_dec v u) as [L' | L']; [lra |];
        apply Qle_bool_iff in L'; congruence
    end.
Qed.

Lemma nle_trans (x y z : num) :
  nle x y = true -> nle y z = true -> nle x z = true.
Proof.
  destruct x as [| [|] | a |], y as [| [|] | b |], z as [| [|] | c |];
    intros H1 H2; try discriminate; try reflexivity;
    unfold nle in *; cbn [valueOf] in *;
    apply Qle_bool_iff in H1; apply Qle_bool_iff in H2; apply Qle_bool_iff; lra.
Qed.

Lemma Math_min_NaN_r (x : num) : Math_min x NaN = NaN.
Proof. now destruct x. Qed.

(** [Math.min] of two numbers is one of them, and at most both. *)
Lemma Math_min_cases (x y : num) :
  x <> NaN -> y <> NaN ->
  (Math_min x y = x \/ Math_min x y = y)
  /\ nle (Math_min x y) x = true /\ nle (Math_min x y) y = true.
Proof.
  intros Hx Hy.
  assert (E : Math_min x y
              = if isNegZero y && isPosZero x then y
                else if nlt y x then y else x).
  { destruct x, y; try congruence; reflexivity. }
  rewrite E. destruct (isNegZero y && isPosZero x) eqn:Ez.
  - apply andb_true_iff in Ez as [Ey Ex].
    destruct y; try discriminate. destruct x as [| | q |]; try discriminate.
    cbn [isPosZero] in Ex. apply qzero_true in Ex.
    repeat split; auto. unfold nle. cbn [valueOf]. apply Qle_bool_iff. lra.
  - assert (En : nlt y x = negb (nle x y))
      by (destruct x, y; try congruence; reflexivity).
    rewrite En. destruct (nle x y) eqn:El; cbn [negb].
    + repeat split; auto. now apply nle_refl.
    + repeat split; auto; [now apply nle_total | now apply nle_refl].
Qed.

Lemma fold_min_NaN (l : list num) : fold_left Math_min l NaN = NaN.
Proof. induction l as [| d l IH]; [reflexivity | exact IH]. Qed.

Lemma fold_min_has_NaN (l : list num) (acc : num) :
  In NaN l -> fold_left Math_min l acc = NaN.
Proof.
  revert acc. induction l as [| d l IH]; intros acc; [contradiction |].
  intros [-> | Hin]; cbn [fold_left].
  - rewrite Math_min_NaN_r. apply fold_min_NaN.
  - now apply IH.
Qed.

Lemma fold_min_spec (l : list num) :
  forall acc, acc <> NaN -> ~ In NaN l ->
    let m := fold_left Math_min l acc in
    m <> NaN /\ (m = acc \/ In m l) /\ nle m acc = true
    /\ forall d, In d l -> nle m d = true.
Proof.
  induction l as [| d l IH]; intros acc Hacc Hl; cbn [fold_left].
  - split; [exact Hacc |]. split; [now left |].
    split; [now apply nle_refl |]. intros d [].
  - assert (Hd : d <> NaN) by (intros ->; apply Hl; now left).
    destruct (Math_min_cases acc d Hacc Hd) as (Hsel & Hle1 & Hle2).
    assert (Hm : Math_min acc d <> NaN) by (destruct Hsel as [-> | ->]; auto).
    destruct (IH (Math_min acc d) Hm) as (Hn & Hin & Hle & Hall).
    { intros H. apply Hl. now right. }
    repeat split.
    + exact Hn.
    + destruct Hin as [-> | Hin]; [| right; now right].
      destruct Hsel as [-> | ->]; [now left | right; now left].
    + now apply nle_trans with (Math_min acc d).
    + intros d' [<- | Hd']; [| now apply Hall].
      now apply nle_trans with (Math_min acc d).
Qed.

Lemma In_NaN_dec (xs : list num) : In NaN xs \/ ~ In NaN xs.
Proof.
  induction xs as [| d xs [IH | IH]].
  - right. intros [].
  - left. now right.
  - destruct d as [| b | q |]; [left; now left | | |];
      right; intros [H | H]; try discriminate; contradiction.
Qed.

(** [Math.min(...xs)]: [NaN] when an argument is [NaN]; otherwise, of
    arguments that are not [Infinity], one of them that is at most each. *)
Lemma Math_min_list_spec (xs : list num) :
  xs <> [] -> ~ In (Inf false) xs ->
  (Math_min_list xs = NaN <-> In NaN xs)
  /\ (Math_min_list xs <> NaN ->
      In (Math_min_list xs) xs
      /\ forall d, In d xs -> nle (Math_min_list xs) d = true).
Proof.
  intros Hne Hinf. unfold Math_min_list.
  destruct (In_NaN_dec xs) as [H | H].
  - rewrite (fold_min_has_NaN xs (Inf false) H). split; [tauto | congruence].
  - destruct (fold_min_spec xs (Inf false)) as (Hn & Hin & _ & Hall);
      [discriminate | exact H |].
    split; [tauto |]. intros _. split; [| exact Hall].
    destruct Hin as [E | Hin]; [| exact Hin]. exfalso.
    destruct xs as [| d xs]; [congruence |].
    specialize (Hall d (or_introl eq_refl)). rewrite E in Hall.
    apply Hinf. left.
    destruct d as [| [|] | q |]; try discriminate; reflexivity.
Qed.

Lemma ndiv_100_notPositive (x : num) :
  notPositive x -> notPositive (ndiv x (ofZ 100)).
Proof.
  rewrite ofZ_100.
  destruct x as [| s | q |]; cbn [notPositive]; intros H.
  - exact I.
  - subst s. reflexivity.
  - unfold ndiv. cbn [isZero valueOf signBit].
    replace (qzero 100) with false by reflexivity.
    destruct (qzero q); [destruct (xorb (qneg q) (qneg 100)); cbn; lra |].
    apply atMost_notPositive, round64_nonpos.
    apply Qle_shift_div_r; lra.
  - reflexivity.
Qed.

End MinFacts.

Section SummaryFacts.

Context {host : Host}.

(** X12. On a built series that is not empty the table of trailing returns is
    returned, with DD the stored drawdown of the last point over 100 and
    Max DD the least stored drawdown, by [Math.min], over 100.  That least
    one is [NaN] exactly when a stored drawdown is; otherwise it is one of
    the stored drawdowns and at most each of them.  DD and Max DD are each
    [NaN] or at most 0. *)
Theorem drawdown_summary (rows : list row) (dateKey navKey : option string) :
  let s := toSeries rows dateKey navKey in
  s <> [] ->
  exists latest r,
    lastPoint s = Some latest
    /\ calculateTrailingReturns s = Returned r
    /\ mapGet "DD" r = Some (Some (ndiv (drawdown latest) (ofZ 100)))
    /\ mapGet "Max DD" r
       = Some (Some (ndiv (Math_min_list (map drawdown s)) (ofZ 100)))
    /\ (Math_min_list (map drawdown s) = NaN
        <-> exists p, In p s /\ drawdown p = NaN)
    /\ (Math_min_list (map drawdown s) <> NaN ->
        (exists p, In p s /\ drawdown p = Math_min_list (map drawdown s))
        /\ forall p, In p s ->
             nle (Math_min_list (map drawdown s)) (drawdown p) = true)
    /\ (forall x,
          x = ndiv (drawdown latest) (ofZ 100)
          \/ x = ndiv (Math_min_list (map drawdown s)) (ofZ 100) ->
          x = NaN \/ nle x (ofZ 0) = true).
Proof.
  intros s Hne.
  pose proof (toSeries_walked rows dateKey navKey) as Hw. fold s in Hw.
  clearbody s.
  destruct (lastPoint_exists s Hne) as (latest & Hlast & Hin).
  destruct (trailing_returns s latest Hlast) as (r & Hr).
  destruct s as [| first rest] eqn:Hs; [congruence |]. rewrite <- Hs in *.
  assert (Hfirst : hd_error s = Some first) by now rewrite Hs.
  destruct (trailing_fixed s first latest r Hfirst Hlast Hr) as (_ & Hdd & Hmax & _).
  assert (Hnp : forall d, In d (map drawdown s) -> notPositive d).
  { intros d Hd. apply in_map_iff in Hd as (p & <- & Hp).
    now apply (walked_drawdown_notPositive s). }
  destruct (Math_min_list_spec (map drawdown s)) as (Hnan & Hmin).
  { rewrite Hs. discriminate. }
  { intros H. apply Hnp in H. discriminate H. }
  exists latest, r. repeat split; auto.
  - intros H. apply Hnan, in_map_iff in H as (p & Hp & Hin'). now exists p.
  - intros (p & Hp & E). apply Hnan. rewrite <- E. now apply in_map.
  - destruct (Hmin H) as [Hm _].
    apply in_map_iff in Hm as (p & Hp & Hin'). now exists p.
  - intros p Hp. apply (Hmin H). now apply in_map.
  - intros x [-> | ->]; apply notPositive_nle, ndiv_100_notPositive.
    + now apply (walked_drawdown_notPositive s).
    + destruct (In_NaN_dec (map drawdown s)) as [Hn | Hn].
      * apply Hnan in Hn. rewrite Hn. exact I.
      * apply Hnp. apply Hmin. intros E. apply Hn. now apply Hnan.
Qed.

End SummaryFacts.

Lemma drawdown_summary_witness :
  exists r, calculateTrailingReturns seriesA = Returned r
            /\ mapGet "DD" r = Some (Some (ndiv (ofZ (-10)) (ofZ 100)))
            /\ mapGet "Max DD" r = Some (Some (ndiv (ofZ (-10)) (ofZ 100))).
Proof.
  destruct (drawdown_summary rowsA (Some "Date") (Some "NAV"))
    as (latest & r & Hlast & Hr & Hdd & Hmax & _).
  - intros H. vm_compute in H. discriminate H.
  - exists r. split; [exact Hr |].
    change (toSeries rowsA (Some "Date") (Some "NAV")) with seriesA in *.
    assert (Hl : option_map drawdown (lastPoint seriesA) = Some (ofZ (-10)))
      by (vm_compute; reflexivity).
    rewrite Hlast in Hl. injection Hl as Hl.
    assert (Hm : Math_min_list (map drawdown seriesA) = ofZ (-10))
      by (vm_compute; reflexivity).
    rewrite Hdd, Hmax, Hl, Hm. split; reflexivity.
Defined.

(** ** The rows of the monthly grid *)

Section GridRows.

Context {host : Host}.

(** X14. Whatever the series, each row of the table holds the twelve months in
    calendar order, and its YTD is the compounding of the returns that the
    row itself shows: [None] when the row shows none. *)
Theorem monthlyReturns_row_shape (series : list point) (row : yearRow) :
  In row (fst (monthlyReturns series)) ->
  map fst (cells row) = months
  /\ YTD row = compound (map snd (cells row)).
Proof.
  unfold monthlyReturns. destruct series as [| p0 rest]; [intros [] |].
  cbv zeta. cbn [fst]. intros Hrow.
  apply in_map_iff in Hrow as (y & <- & _).
  unfold yearRowOf. rewrite yearStep_fold.
  cbn [cells YTD ya_cells ya_ytdAcc ya_anyMonth app orb]. split.
  - rewrite map_map. reflexivity.
  - unfold compound. rewrite map_map.
    set (rows := monthRows (p0 :: rest)).
    replace (map (fun x : string * Z =>
                    snd (let '(name, idx) := x in
                         (name,
                          match find (fun r => (year r =? y) && (month r =? idx + 1))
                                     rows with
                          | Some r => ret r
                          | None => None
                          end))) (indexed months))
      with (map (fun '(_, idx) =>
                   match find (fun r => (year r =? y) && (month r =? idx + 1))
                              rows with
                   | Some r => ret r
                   | None => None
                   end) (indexed months))
      by (apply map_ext; now intros [name idx]).
    reflexivity.
Qed.

End GridRows.

Lemma monthlyReturns_row_shape_witness :
  forallb (fun row =>
             match YTD row with
             | Some x => nlt x (ofZ 0) && nlt (ofLiteral (- (1 # 50))) x
             | None => false
             end) (fst (monthlyReturns seriesA)) = true.
Proof.
  apply forallb_forall. intros row Hrow.
  destruct (monthlyReturns_row_shape seriesA row Hrow) as [_ ->].
  vm_compute in Hrow. destruct Hrow as [<- | []]. reflexivity.
Defined.

(** ** The empty series *)

Section EmptySeries.

Context {host : Host}.

(** A row that passes both tests of the first loop leaves a point. *)
Lemma toSeries_of_kept_row (rows : list row) (dateKey navKey : string) (r : row) :
  isEmpty dateKey = false -> isEmpty navKey = false ->
  In r rows -> keeps dateKey navKey r = true ->
  toSeries rows (Some dateKey) (Some navKey) <> [].
Proof.
  intros Hdk Hnk Hr Hk He.
  assert (Hs : toSeries rows (Some dateKey) (Some navKey)
               = pushedFrom walk0 (cleanRecords rows dateKey navKey)).
  { unfold toSeries. rewrite Hdk, Hnk. cbn [orb]. rewrite walk0_out.
    destruct rows; [reflexivity | reflexivity]. }
  rewrite Hs in He.
  unfold keeps, isDateLike in Hk. apply andb_true_iff in Hk as [Hd Hn].
  destruct (coerceDate (getCell r dateKey)) as [d |] eqn:Ed; [| discriminate].
  destruct (cleanRecords_present dateKey navKey rows r d _ Hr
              (conj Ed (conj Hn eq_refl))) as (c & Hc & _).
  assert (Hlen : List.length (pushedFrom walk0 (cleanRecords rows dateKey navKey))
                 = 0%nat) by now rewrite He.
  rewrite pushedFrom_length in Hlen.
  destruct (cleanRecords rows dateKey navKey); [contradiction | discriminate].
Qed.

(** X15. With two column names that are not empty, the series is empty exactly
    when no row passes both tests of the first loop. *)
Theorem toSeries_empty_iff (rows : list row) (dateKey navKey : string) :
  isEmpty dateKey = false -> isEmpty navKey = false ->
  (toSeries rows (Some dateKey) (Some navKey) = []
   <-> forall r, In r rows -> keeps dateKey navKey r = false).
Proof.
  intros Hdk Hnk.
  assert (Hs : toSeries rows (Some dateKey) (Some navKey)
               = pushedFrom walk0 (cleanRecords rows dateKey navKey)).
  { unfold toSeries. rewrite Hdk, Hnk. cbn [orb]. rewrite walk0_out.
    destruct rows; [reflexivity | reflexivity]. }
  rewrite Hs. split.
  - intros He r Hr. destruct (keeps dateKey navKey r) eqn:Hk; [| reflexivity].
    exfalso. rewrite <- Hs in He.
    exact (toSeries_of_kept_row rows dateKey navKey r Hdk Hnk Hr Hk He).
  - intros Hnone.
    destruct (cleanRecords rows dateKey navKey) as [| c l] eqn:Ec; [reflexivity |].
    exfalso.
    destruct (cleanRecords_source dateKey navKey rows c)
      as (l1 & r & l2 & -> & Hr & _); [rewrite Ec; now left |].
    pose proof (keptAs_keeps dateKey navKey r _ _ Hr) as Hk.
    rewrite (Hnone r (in_elt _ _ _)) in Hk. discriminate.
Qed.

End EmptySeries.

Lemma toSeries_empty_iff_witness :
  toSeries [sheetRow jan1 (CStr "n/a"); sheetRow feb1 CNull]
           (Some "Date") (Some "NAV") = [].
Proof.
  apply toSeries_empty_iff; try reflexivity.
  intros r [<- | [<- | []]]; reflexivity.
Defined.

(** ** Year to date *)

(** A day is not before the first day of its year. *)
Lemma year_start_le (z : Z) :
  let '(y, m, d) := civil_from_days z in days_from_civil y 1 1 <= z.
Proof.
  unfold civil_from_days. cbv zeta.
  set (z0 := z + 719468).
  set (era := z0 / 146097).
  set (doe := z0 - era * 146097).
  assert (Hdoe : 0 <= doe <= 146096)
    by (unfold doe, era; Z.div_mod_to_equations; lia).
  pose proof (yoe_bounds doe Hdoe) as Hy. cbv zeta in Hy.
  set (yoe := (doe - doe / 1460 + doe / 36524 - doe / 146096) / 365) in *.
  set (doy := doe - (365 * yoe + yoe / 4 - yoe / 100)) in *.
  set (mp := (5 * doy + 2) / 153).
  assert (Hmp : 0 <= mp <= 11) by (unfold mp; Z.div_mod_to_equations; lia).
  unfold days_from_civil.
  change (1 <=? 2) with true. change (2 <? 1) with false. cbv iota.
  assert (Hz : z = era * 146097 + doe - 719468) by (unfold doe, z0; lia).
  destruct (mp <? 10) eqn:E.
  - apply Z.ltb_lt in E.
    destruct (mp + 3 <=? 2) eqn:E2; [apply Z.leb_le in E2; lia |].
    assert (Hera : (yoe + era * 400 - 1) / 400
                   = if yoe =? 0 then era - 1 else era).
    { destruct (yoe =? 0) eqn:E0;
        [apply Z.eqb_eq in E0 | apply Z.eqb_neq in E0];
        Z.div_mod_to_equations; lia. }
    rewrite Hera. unfold doy in *.
    destruct (yoe =? 0) eqn:E0;
      [apply Z.eqb_eq in E0 | apply Z.eqb_neq in E0];
      Z.div_mod_to_equations; lia.
  - apply Z.ltb_ge in E.
    destruct (mp - 9 <=? 2) eqn:E2; [| apply Z.leb_gt in E2; lia].
    replace ((yoe + era * 400 + 1 - 1) / 400) with era
      by (Z.div_mod_to_equations; lia).
    unfold mp, doy in *. Z.div_mod_to_equations. lia.
Qed.

Section YearToDate.

Context {host : Host}.

Variable off : Z.

Hypothesis offset_utc : forall t, LocalTZA_utc t = off.
Hypothesis offset_local : forall t, LocalTZA_local t = off.

Lemma Date_of_fields_year_start (y : Z) :
  ~ (0 <= y <= 99) ->
  Date_of_fields y 0 1 0 0 0 = TimeClip (days_from_civil y 1 1 * msPerDay - off).
Proof.
  intros Hy. unfold Date_of_fields.
  assert (Hq : (0 <=? y) && (y <=? 99) = false).
  { apply andb_false_iff. destruct (0 <=? y) eqn:E.
    - right. apply Z.leb_gt. apply Z.leb_le in E. lia.
    - now left. }
  rewrite Hq. f_equal. unfold UTC. rewrite offset_local. f_equal.
  unfold MakeDay, MakeTime. rewrite Z.div_0_l, Z.mod_0_l by discriminate.
  rewrite !Z.mul_0_l, !Z.add_0_r, Z.add_0_l. f_equal. lia.
Qed.

Lemma yearStart_le (t ys : Z) :
  ~ (0 <= getFullYear t <= 99) ->
  Date_of_fields (getFullYear t) 0 1 0 0 0 = Some ys -> ys <= t.
Proof.
  intros Hy Hs. rewrite (Date_of_fields_year_start _ Hy) in Hs.
  assert (Hys : ys = days_from_civil (getFullYear t) 1 1 * msPerDay - off).
  { unfold TimeClip in Hs.
    destruct (Z.abs (days_from_civil (getFullYear t) 1 1 * msPerDay - off)
              <=? 8640000000000000); [now injection Hs | discriminate]. }
  rewrite Hys. clear Hs Hys Hy. unfold getFullYear, LocalTime.
  rewrite offset_utc.
  pose proof (year_start_le (Day (t + off))) as H.
  destruct (civil_from_days (Day (t + off))) as [[y m] d].
  revert H. generalize (days_from_civil y 1 1). intros D HD.
  assert (Hday : Day (t + off) * msPerDay <= t + off).
  { unfold Day. pose proof (Z.mul_div_le (t + off) msPerDay eq_refl) as Hm. lia. }
  assert (Hpos : 0 < msPerDay) by reflexivity.
  nia.
Qed.

(** X16. On a host at a fixed offset from UTC, for a series whose last point is
    outside the years 0 to 99 and whose year start is a date, YTD is
    available: it is the value of the last point over the value of the
    first point of the series dated at or after the local start of the last
    point's year, minus 1. *)
Theorem ytd_available (series : list point) (latest : point) (ys : Z) :
  lastPoint series = Some latest ->
  ~ (0 <= getFullYear (date latest) <= 99) ->
  Date_of_fields (getFullYear (date latest)) 0 1 0 0 0 = Some ys ->
  exists l1 start l2,
    series = l1 ++ start :: l2
    /\ ys <= date start
    /\ (forall q, In q l1 -> date q < ys)
    /\ calculateYTD series
       = Returned (Some (nsub (ndiv (nav latest) (nav start)) (ofZ 1))).
Proof.
  intros Hlast Hy Hs. unfold calculateYTD. rewrite Hlast, Hs.
  assert (Hin : In latest series).
  { unfold lastPoint in Hlast. clear -Hlast.
    induction series as [| a l IH]; [discriminate |].
    destruct l as [| b l]; [injection Hlast as <-; now left |].
    right. now apply IH. }
  pose proof (yearStart_le (date latest) ys Hy Hs) as Hle.
  assert (Hfind : forall l, In latest l ->
            exists l1 start l2,
              l = l1 ++ start :: l2 /\ ys <= date start
              /\ (forall q, In q l1 -> date q < ys)
              /\ find (fun p => dateGe (date p) (Some ys)) l = Some start).
  { induction l as [| a l IH]; intros Hl; [contradiction |].
    simpl. destruct (ys <=? date a) eqn:E.
    - apply Z.leb_le in E. exists [], a, l. repeat split; auto.
      intros q [].
    - apply Z.leb_gt in E. destruct Hl as [-> | Hl]; [lia |].
      destruct (IH Hl) as (l1 & start & l2 & -> & Hge & Hlt & Hf).
      exists (a :: l1), start, l2. repeat split; auto.
      intros q [<- | Hq]; auto. }
  destruct (Hfind series Hin) as (l1 & start & l2 & Heq & Hge & Hlt & Hf).
  exists l1, start, l2. rewrite Hf. auto.
Qed.

End YearToDate.

Lemma ytd_available_witness :
  exists l1 start l2,
    seriesA = l1 ++ start :: l2
    /\ jan1 <= date start
    /\ (forall q, In q l1 -> date q < jan1)
    /\ calculateYTD seriesA
       = Returned (Some (nsub (ndiv (ofZ 99) (nav start)) (ofZ 1))).
Proof.
  refine (@ytd_available utcHost 0 (fun _ => eq_refl) (fun _ => eq_refl)
            seriesA
            {| date := mar1; dateLabel := "2023-03-01"; nav := ofZ 99;
               equity := ofZ 99; drawdown := ofZ (-10) |} jan1 _ _ _).
  - reflexivity.
  - vm_compute. intros [_ H]. apply H. reflexivity.
  - reflexivity.
Defined.

(** ** The upload handler *)

(** Two tests that each pass on many elements pass together on some. *)
Lemma filter_both {A : Type} (f g : A -> bool) (l : list A) :
  (List.length (filter f l) + List.length (filter g l)
   <= List.length l + List.length (filter (fun x => f x && g x) l))%nat.
Proof.
  induction l as [| x l IH]; simpl; [lia |].
  destruct (f x), (g x); simpl; lia.
Qed.

(** With a column at the threshold, the column chosen is at the threshold. *)
Lemma chooseKey_passing (cnt : score -> Z) (thr : Z) (scores : list score)
      (s0 : score) :
  1 <= thr -> (forall s, In s scores -> 0 <= cnt s) ->
  In s0 scores -> thr <= cnt s0 ->
  exists s, In s scores /\ thr <= cnt s
            /\ chooseKey cnt thr scores = Some (key s).
Proof.
  intros Hthr Hnn Hin Hs0.
  assert (Hp : In s0 (filter (fun s => thr <=? cnt s) scores)).
  { apply filter_In. split; [exact Hin | now apply Z.leb_le]. }
  destruct (chooseKey_selects cnt thr scores Hthr Hnn)
    as [(s & Hs & Hk) | [(He & _) | (He & _)]].
  - destruct Hs as (l1 & l2 & Hl & _).
    assert (Hi : In s (filter (fun s => thr <=? cnt s) scores))
      by (rewrite Hl; apply in_elt).
    apply filter_In in Hi as [Hi Hc]. apply Z.leb_le in Hc. eauto.
  - rewrite He in Hp. contradiction.
  - rewrite He in Hp. contradiction.
Qed.

Section UploadFacts.

Context {host : Host}.

(** X17. When no header of the sheet is empty, one column is date-like and
    one column numeric-like in at least the threshold (60 percent) of the
    sampled rows, [handleFile] does not alert and the series it sets has a
    point: the two chosen columns hold a date and a number together in one
    of the sampled rows.  The months of the grid are then the twelve
    names. *)
Theorem handleFile_columns_over_threshold
        (rows : list row) (st : page) (k1 k2 : string) :
  let n := Z.min (Z.of_nat (List.length rows)) 50 in
  let sample := firstn 50 rows in
  ~ In EmptyString (map fst (hd [] rows)) ->
  In k1 (map fst (hd [] rows)) ->
  threshold n <= dateCount (scoreKey sample k1) ->
  In k2 (map fst (hd [] rows)) ->
  threshold n <= numCount (scoreKey sample k2) ->
  pg_series (handleFile rows st) <> []
  /\ pg_months (handleFile rows st) = months
  /\ exists dk nk r,
       dateKey (detectColumns rows) = Some dk
       /\ navKey (detectColumns rows) = Some nk
       /\ In r sample /\ keeps dk nk r = true.
Proof.
  intros n sample Hne Hk1 Hd Hk2 Hn.
  destruct rows as [| first rest]; [contradiction |].
  cbn [hd] in Hne, Hk1, Hk2.
  assert (Hsample : firstn (Z.to_nat n) (first :: rest) = sample).
  { unfold sample.
    destruct (Z.le_ge_cases (Z.of_nat (List.length (first :: rest))) 50) as [H | H].
    - rewrite !firstn_all2; [reflexivity | lia | unfold n; lia].
    - f_equal. unfold n. lia. }
  assert (Hlen : Z.of_nat (List.length sample) = n).
  { unfold sample, n. rewrite length_firstn. lia. }
  assert (Hthr : 1 <= threshold n /\ n < 2 * threshold n).
  { unfold threshold, n.
    change (List.length (first :: rest)) with (S (List.length rest)).
    Z.div_mod_to_equations. lia. }
  set (scores := map (scoreKey sample) (map fst first)).
  assert (Hsel : forall cnt k0,
             (forall k, 0 <= cnt (scoreKey sample k)) ->
             In k0 (map fst first) -> threshold n <= cnt (scoreKey sample k0) ->
             exists k, In k (map fst first)
                       /\ threshold n <= cnt (scoreKey sample k)
                       /\ chooseKey cnt (threshold n) scores = Some k).
  { intros cnt k0 Hnn Hin Hc.
    destruct (chooseKey_passing cnt (threshold n) scores (scoreKey sample k0))
      as (s & Hs & Hcs & Hk); [lia | | | exact Hc |].
    - intros s Hs. apply in_map_iff in Hs as (k & <- & _). apply Hnn.
    - apply in_map. exact Hin.
    - apply in_map_iff in Hs as (k & <- & Hk').
      rewrite (proj1 (scoreKey_counts sample k)) in Hk. eauto. }
  destruct (Hsel dateCount k1) as (dk & Hdk & Hcd & Hcdk); [| exact Hk1 | exact Hd |].
  { intros k. rewrite (proj1 (proj2 (scoreKey_counts sample k))). lia. }
  destruct (Hsel numCount k2) as (nk & Hnk & Hcn & Hcnk); [| exact Hk2 | exact Hn |].
  { intros k. rewrite (proj2 (proj2 (scoreKey_counts sample k))). lia. }
  assert (Hcols : detectColumns (first :: rest)
                  = {| dateKey := Some dk; navKey := Some nk |}).
  { unfold detectColumns. fold n. rewrite Hsample. fold scores.
    now rewrite Hcdk, Hcnk. }
  assert (Hnonempty : forall k, In k (map fst first) -> isEmpty k = false).
  { intros k Hk. destruct k; [contradiction | reflexivity]. }
  rewrite (proj1 (proj2 (scoreKey_counts sample dk))) in Hcd.
  rewrite (proj2 (proj2 (scoreKey_counts sample nk))) in Hcn.
  pose proof (filter_both (fun r => isDateLike (getCell r dk))
                          (fun r => isNumericLike (getCell r nk)) sample) as Hboth.
  cbv beta in Hboth.
  destruct (filter (fun r => isDateLike (getCell r dk)
                             && isNumericLike (getCell r nk)) sample)
    as [| r l] eqn:Ef; [cbn [List.length] in Hboth; lia |].
  assert (Hr : In r (filter (fun r => isDateLike (getCell r dk)
                                      && isNumericLike (getCell r nk)) sample))
    by (rewrite Ef; now left).
  apply filter_In in Hr as [Hr Hkeep]. fold (keeps dk nk r) in Hkeep.
  assert (Hrows : In r (first :: rest)).
  { unfold sample in Hr.
    rewrite <- (firstn_skipn 50 (first :: rest)). apply in_or_app. now left. }
  assert (Hser : toSeries (first :: rest) (Some dk) (Some nk) <> []).
  { apply (toSeries_of_kept_row (first :: rest) dk nk r);
      auto using Hnonempty. }
  unfold handleFile. rewrite Hcols. cbn [dateKey navKey falsy].
  rewrite (Hnonempty dk Hdk), (Hnonempty nk Hnk). cbn [orb pg_series pg_months].
  split; [exact Hser |]. split.
  - destruct (toSeries (first :: rest) (Some dk) (Some nk));
      [congruence | reflexivity].
  - exists dk, nk, r. auto.
Qed.

End UploadFacts.

Lemma handleFile_columns_over_threshold_witness :
  pg_series (handleFile rowsA {| pg_series := []; pg_table := []; pg_months := [] |})
  <> []
  /\ pg_months (handleFile rowsA
                  {| pg_series := []; pg_table := []; pg_months := [] |})
     = months
  /\ exists dk nk r,
       dateKey (detectColumns rowsA) = Some dk
       /\ navKey (detectColumns rowsA) = Some nk
       /\ In r (firstn 50 rowsA) /\ keeps dk nk r = true.
Proof.
  refine (@handleFile_columns_over_threshold utcHost rowsA _ "Date" "NAV"
            _ _ _ _ _).
  - simpl. intros [H | [H | []]]; discriminate H.
  - simpl. now left.
  - vm_compute. discriminate.
  - simpl. right. now left.
  - vm_compute. discriminate.
Defined.
